(** * WTF::ParkingLot and WTF::Lock: a shallow embedding

    The definitions below follow [Source/WTF/wtf/ParkingLot.cpp] and
    [Source/WTF/wtf/Lock.h].  Pointers to [ThreadData] and [Bucket] objects
    are keys of two finite maps (the respective heaps); [nullptr] is [None].
    Executions that yield no result (a dereference of a dangling pointer, a
    failed [RELEASE_ASSERT], a division by zero, a loop that does not end) are
    [None] in the [option] monad.  Debug-only [ASSERT]s are not executed; they
    appear as hypotheses of the theorems that need them. *)

From Stdlib Require Import ZArith Lia.
From stdpp Require Import base option list sorting gmap fin_maps.

Set Default Proof Using "Type".
Local Open Scope Z_scope.

(** ** Data model *)

(** [ThreadData*] and [Bucket*]; a null pointer is [None]. *)
Abbreviation ThreadDataPtr := positive.
Abbreviation BucketPtr := positive.

(** [struct ThreadData].  [address] is a [const void*] taken as a machine
    word, [0] being [nullptr].  The mutex and the condition variable carry no
    data; calls of [notify_all] are recorded in the state's [notified] log. *)
Module ThreadData.
Record ThreadData := mkThreadData {
  threadIdentifier : positive;
  shouldPark : bool;
  address : Z;
  nextInQueue : option ThreadDataPtr
}.
End ThreadData.
Export ThreadData.

Definition setNextInQueue (n : option ThreadDataPtr) (td : ThreadData) : ThreadData :=
  mkThreadData (threadIdentifier td) (shouldPark td) (address td) n.

Definition setShouldPark (s : bool) (td : ThreadData) : ThreadData :=
  mkThreadData (threadIdentifier td) s (address td) (nextInQueue td).

Definition setAddress (a : Z) (td : ThreadData) : ThreadData :=
  mkThreadData (threadIdentifier td) (shouldPark td) a (nextInQueue td).

(** [enum class DequeueResult]. *)
Inductive DequeueResult := Ignore | RemoveAndContinue | RemoveAndStop.

(** [struct Bucket]: the two queue pointers.  The bucket's [WordLock] is held
    around every use of the queue below, so a queue operation runs as one
    step here. *)
Record Bucket := mkBucket {
  queueHead : option ThreadDataPtr;
  queueTail : option ThreadDataPtr
}.

Definition emptyBucket : Bucket := mkBucket None None.

Abbreviation Heap := (gmap ThreadDataPtr ThreadData).

(** The target of [ThreadData** currentPtr] in [genericDequeue]: either
    [&queueHead] or [&p->nextInQueue]. *)
Inductive LinkRef := HeadRef | NextRef (p : ThreadDataPtr).

Definition loadLink (h : Heap) (b : Bucket) (r : LinkRef) : option (option ThreadDataPtr) :=
  match r with
  | HeadRef => Some (queueHead b)
  | NextRef p => nextInQueue <$> h !! p
  end.

(** [p->nextInQueue = v]. *)
Definition storeNext (h : Heap) (p : ThreadDataPtr) (v : option ThreadDataPtr) : option Heap :=
  match h !! p with
  | Some td => Some (<[p := setNextInQueue v td]> h)
  | None => None
  end.

Definition storeLink (h : Heap) (b : Bucket) (r : LinkRef) (v : option ThreadDataPtr)
  : option (Heap * Bucket) :=
  match r with
  | HeadRef => Some (h, mkBucket v (queueTail b))
  | NextRef p => h' ← storeNext h p v; Some (h', b)
  end.

Module Bucket.

(** [Bucket::enqueue(ThreadData* data)]. *)
Definition enqueue (h : Heap) (b : Bucket) (data : ThreadDataPtr) : option (Heap * Bucket) :=
  match queueTail b with
  | Some t =>
      h' ← storeNext h t (Some data);
      Some (h', mkBucket (queueHead b) (Some data))
  | None => Some (h, mkBucket (Some data) (Some data))
  end.

Section GenericDequeue.
(** The functor of [genericDequeue] is a closure that inspects the element
    and may update captured variables; the captured variables are the
    accumulator [A]. *)
Context {A : Type}.
Variable functor : ThreadDataPtr → ThreadData → A → DequeueResult * A.

(** The [while (shouldContinue)] loop; [fuel] bounds the iterations. *)
Fixpoint genericDequeueLoop (fuel : nat) (h : Heap) (b : Bucket)
    (currentPtr : LinkRef) (previous : option ThreadDataPtr) (acc : A)
  : option (Heap * Bucket * A) :=
  match fuel with
  | O => None
  | S fuel' =>
      current ← loadLink h b currentPtr;
      match current with
      | None => Some (h, b, acc)
      | Some cur =>
          td ← h !! cur;
          let '(result, acc') := functor cur td acc in
          match result with
          | Ignore => genericDequeueLoop fuel' h b (NextRef cur) (Some cur) acc'
          | _ =>
              let b1 := if decide (Some cur = queueTail b)
                        then mkBucket (queueHead b) previous else b in
              '(h2, b2) ← storeLink h b1 currentPtr (nextInQueue td);
              h3 ← storeNext h2 cur None;
              match result with
              | RemoveAndStop => Some (h3, b2, acc')
              | _ => genericDequeueLoop fuel' h3 b2 currentPtr previous acc'
              end
          end
      end
  end.

(** [Bucket::genericDequeue(functor)].  On a queue that ends in [nullptr]
    every iteration passes a record of its own, so the loop is given one
    more iteration than the heap has records; running out of them means the
    links are cyclic, and there is no result. *)
Definition genericDequeue (h : Heap) (b : Bucket) (acc : A) : option (Heap * Bucket * A) :=
  match queueHead b with
  | None => Some (h, b, acc)
  | Some _ => genericDequeueLoop (S (size h)) h b HeadRef None acc
  end.
End GenericDequeue.

(** The functor of [Bucket::dequeue()]; it captures the variable [result]. *)
Definition dequeueFunctor (element : ThreadDataPtr) (_ : ThreadData)
    (_ : option ThreadDataPtr) : DequeueResult * option ThreadDataPtr :=
  (RemoveAndStop, Some element).

(** [Bucket::dequeue()]. *)
Definition dequeue (h : Heap) (b : Bucket) : option (Heap * Bucket * option ThreadDataPtr) :=
  genericDequeue dequeueFunctor h b None.

End Bucket.

(** ** The hashtable and the global state *)

(** [unsigned] arithmetic wraps modulo [2^32]. *)
Definition wrapUnsigned (z : Z) : Z := z mod 2 ^ 32.

(** [WTF::PtrHash<const void*>::hash], declared in [HashFunctions.h]; the
    parking lot uses it only through [hashAddress]. *)
Class PtrHash := ptrHash : Z → Z.

Definition hashAddress `{PtrHash} (address : Z) : Z := wrapUnsigned (ptrHash address).

Definition maxLoadFactor : Z := 3.
Definition growthFactor : Z := 2.

Module Hashtable.
(** [struct Hashtable]: [size] slots of [Atomic<Bucket*>], zeroed by
    [fastZeroedMalloc]; a slot that holds [nullptr] is absent from [data]. *)
Record Hashtable := mkHashtable {
  size : Z;
  data : gmap Z BucketPtr
}.

(** [Hashtable::create(size)]. *)
Definition create (size : Z) : Hashtable := mkHashtable size ∅.

Definition store (i : Z) (b : BucketPtr) (t : Hashtable) : Hashtable :=
  mkHashtable (size t) (<[i := b]> (data t)).
End Hashtable.

Abbreviation Hashtable := Hashtable.Hashtable.

(** The globals [threadData], [hashtable] and [numThreads], the objects they
    reach, and the log of [parkingCondition.notify_all()] calls. *)
Record State := mkState {
  heap : Heap;
  buckets : gmap BucketPtr Bucket;
  hashtable : option Hashtable;
  numThreads : Z;
  threadData : gmap positive ThreadDataPtr;
  notified : list ThreadDataPtr
}.

Definition withHeap (h : Heap) (st : State) : State :=
  mkState h (buckets st) (hashtable st) (numThreads st) (threadData st) (notified st).

Definition withQueues (h : Heap) (bs : gmap BucketPtr Bucket) (st : State) : State :=
  mkState h bs (hashtable st) (numThreads st) (threadData st) (notified st).

Definition withTable (bs : gmap BucketPtr Bucket) (t : Hashtable) (st : State) : State :=
  mkState (heap st) bs (Some t) (numThreads st) (threadData st) (notified st).

(** [new Bucket()]. *)
Definition newBucket (bs : gmap BucketPtr Bucket) : BucketPtr * gmap BucketPtr Bucket :=
  let p := fresh (dom bs) in (p, <[p := emptyBucket]> bs).

(** The inner [for (;;)] of [lockHashtable] and of [enqueue]: load the slot,
    and install a new bucket when it is null. *)
Definition materializeBucket (i : Z) (bs : gmap BucketPtr Bucket) (t : Hashtable)
  : BucketPtr * gmap BucketPtr Bucket * Hashtable :=
  match Hashtable.data t !! i with
  | Some bucket => (bucket, bs, t)
  | None => let '(bucket, bs') := newBucket bs in (bucket, bs', Hashtable.store i bucket t)
  end.

(** [for (unsigned i = currentHashtable->size; i--;)] of [lockHashtable],
    with [n] slots left to visit. *)
Fixpoint materializeAll (n : nat) (bs : gmap BucketPtr Bucket) (t : Hashtable)
    (found : list BucketPtr) : list BucketPtr * gmap BucketPtr Bucket * Hashtable :=
  match n with
  | O => (found, bs, t)
  | S i =>
      let '(bucket, bs', t') := materializeBucket (Z.of_nat i) bs t in
      materializeAll i bs' t' (found ++ [bucket])
  end.

(** [lockHashtable()]: guarantees a hashtable full of buckets and returns the
    buckets in the order of [std::sort]. *)
Definition lockHashtable (st : State) : list BucketPtr * State :=
  let currentHashtable :=
    match hashtable st with
    | Some t => t
    | None => Hashtable.create maxLoadFactor
    end in
  let '(found, bs, t) :=
    materializeAll (Z.to_nat (Hashtable.size currentHashtable)) (buckets st) currentHashtable [] in
  (merge_sort Pos.le found, withTable bs t st).

(** [static_cast<double>(size) / static_cast<double>(numThreads) >= maxLoadFactor].
    Both operands are below [2^32], so the conversions are exact, and a
    quotient below 3 stays below 3 after rounding (it is at least [2^-32]
    away from it): for [numThreads > 0] the test is [3 * numThreads <= size].
    Dividing by zero gives infinity for a positive size and NaN for zero. *)
Definition loadFactorReached (size numThreads : Z) : bool :=
  if numThreads =? 0 then 0 <? size else maxLoadFactor * numThreads <=? size.

Definition noNeedToRehash (st : State) (numThreads : Z) : bool :=
  match hashtable st with
  | Some oldHashtable => loadFactorReached (Hashtable.size oldHashtable) numThreads
  | None => false
  end.

(** [while (ThreadData* threadData = bucket->dequeue()) threadDatas.append(threadData);] *)
Fixpoint drainBucket (fuel : nat) (h : Heap) (b : Bucket) (threadDatas : list ThreadDataPtr)
  : option (Heap * Bucket * list ThreadDataPtr) :=
  match fuel with
  | O => None
  | S fuel' =>
      '(h', b', result) ← Bucket.dequeue h b;
      match result with
      | Some td => drainBucket fuel' h' b' (threadDatas ++ [td])
      | None => Some (h', b', threadDatas)
      end
  end.

(** [for (Bucket* bucket : reusableBuckets)] gathering all thread datas. *)
Fixpoint drainBuckets (reusableBuckets : list BucketPtr) (h : Heap)
    (bs : gmap BucketPtr Bucket) (threadDatas : list ThreadDataPtr)
  : option (Heap * gmap BucketPtr Bucket * list ThreadDataPtr) :=
  match reusableBuckets with
  | [] => Some (h, bs, threadDatas)
  | bucket :: rest =>
      b ← bs !! bucket;
      '(h', b', threadDatas') ← drainBucket (S (size h)) h b threadDatas;
      drainBuckets rest h' (<[bucket := b']> bs) threadDatas'
  end.

(** [Vector::takeLast()] on a non-empty vector. *)
Definition takeLast {T} (v : list T) : option (T * list T) :=
  match last v with
  | Some x => Some (x, take (length v - 1)%nat v)
  | None => None
  end.

(** [Bucket* bucket = newHashtable->data[index].load(); if (!bucket) { ... }]
    in the loop of [ensureHashtableSize]: the bucket at [index], installing a
    reusable bucket, or a new one when none is left, if the slot is null. *)
Definition bucketAt (index : Z) (bs : gmap BucketPtr Bucket) (newHashtable : Hashtable)
    (reusableBuckets : list BucketPtr)
  : BucketPtr * gmap BucketPtr Bucket * Hashtable * list BucketPtr :=
  match Hashtable.data newHashtable !! index with
  | Some bucket => (bucket, bs, newHashtable, reusableBuckets)
  | None =>
      match takeLast reusableBuckets with
      | None =>
          let '(bucket, bs') := newBucket bs in
          (bucket, bs', Hashtable.store index bucket newHashtable, reusableBuckets)
      | Some (bucket, reusable') =>
          (bucket, bs, Hashtable.store index bucket newHashtable, reusable')
      end
  end.

(** [for (ThreadData* threadData : threadDatas)] placing every thread data
    into the new hashtable. *)
Fixpoint rehash `{PtrHash} (threadDatas : list ThreadDataPtr) (h : Heap)
    (bs : gmap BucketPtr Bucket) (newHashtable : Hashtable) (reusableBuckets : list BucketPtr)
  : option (Heap * gmap BucketPtr Bucket * Hashtable * list BucketPtr) :=
  match threadDatas with
  | [] => Some (h, bs, newHashtable, reusableBuckets)
  | threadData :: rest =>
      td ← h !! threadData;
      let hash := hashAddress (address td) in
      if Hashtable.size newHashtable =? 0 then None else
      let index := hash mod Hashtable.size newHashtable in
      let '(bucket, bs1, t1, reusable1) := bucketAt index bs newHashtable reusableBuckets in
      b ← bs1 !! bucket;
      '(h', b') ← Bucket.enqueue h b threadData;
      rehash rest h' (<[bucket := b']> bs1) t1 reusable1
  end.

(** [for (unsigned i = 0; i < newHashtable->size && !reusableBuckets.isEmpty(); ++i)]
    placing the unreused buckets, with [n] slots left and [i] the next one. *)
Fixpoint placeLeftovers (n : nat) (i : Z) (newHashtable : Hashtable)
    (reusableBuckets : list BucketPtr) : Hashtable * list BucketPtr :=
  match n with
  | O => (newHashtable, reusableBuckets)
  | S n' =>
      match takeLast reusableBuckets with
      | None => (newHashtable, reusableBuckets)
      | Some (bucket, reusable') =>
          match Hashtable.data newHashtable !! i with
          | Some _ => placeLeftovers n' (i + 1) newHashtable reusableBuckets
          | None => placeLeftovers n' (i + 1) (Hashtable.store i bucket newHashtable) reusable'
          end
      end
  end.

(** [ensureHashtableSize(numThreads)]. *)
Definition ensureHashtableSize `{PtrHash} (numThreads : Z) (st : State) : option State :=
  if noNeedToRehash st numThreads then Some st else
  let '(bucketsToUnlock, st1) := lockHashtable st in
  if noNeedToRehash st1 numThreads then Some st1 else
  oldHashtable ← hashtable st1;
  let reusableBuckets := bucketsToUnlock in
  '(h, bs, threadDatas) ← drainBuckets reusableBuckets (heap st1) (buckets st1) [];
  let newSize := wrapUnsigned (wrapUnsigned (numThreads * growthFactor) * maxLoadFactor) in
  if negb (Hashtable.size oldHashtable <? newSize) then None else
  let newHashtable := Hashtable.create newSize in
  '(h', bs', filled, reusable') ← rehash threadDatas h bs newHashtable reusableBuckets;
  let '(final, _) := placeLeftovers (Z.to_nat newSize) 0 filled reusable' in
  Some (withTable bs' final (withHeap h' st1)).

(** Modelled from the spec: [ThreadSpecific<ThreadData>] (in
    [ThreadSpecific.h]) hands out the thread's record and constructs it on
    first use; a record that is not parked has a null [address].

    [myThreadData()] for the thread [me], running [ThreadData::ThreadData()]
    when the thread has no record yet. *)
Definition myThreadData `{PtrHash} (me : positive) (st : State) : option (ThreadDataPtr * State) :=
  match threadData st !! me with
  | Some p => Some (p, st)
  | None =>
      let currentNumThreads := wrapUnsigned (numThreads st + 1) in
      let st1 := mkState (heap st) (buckets st) (hashtable st) currentNumThreads
                         (threadData st) (notified st) in
      st2 ← ensureHashtableSize currentNumThreads st1;
      let p := fresh (dom (heap st2)) in
      Some (p, mkState (<[p := mkThreadData me false 0 None]> (heap st2)) (buckets st2)
                       (hashtable st2) (numThreads st2) (<[me := p]> (threadData st2))
                       (notified st2))
  end.

(** [ThreadData::~ThreadData()]: the compare-and-swap loop that decrements
    [numThreads]. *)
Definition destroyThreadData (st : State) : State :=
  mkState (heap st) (buckets st) (hashtable st) (wrapUnsigned (numThreads st - 1))
          (threadData st) (notified st).

(** ** Parking and unparking *)

(** The namespace-level [enqueue(address, functor)].  The functor runs with
    the bucket lock held; it may write thread datas and its captured
    variables [E].  The outer [for (;;)] repeats only when another thread
    replaced the hashtable meanwhile. *)
Definition enqueue `{PtrHash} {E : Type} (address : Z)
    (functor : Heap → E → option ThreadDataPtr * Heap * E) (st : State) (env : E)
  : option (bool * State * E) :=
  let hash := hashAddress address in
  myHashtable ← hashtable st;
  if Hashtable.size myHashtable =? 0 then None else
  let index := hash mod Hashtable.size myHashtable in
  let '(bucket, bs, t) := materializeBucket index (buckets st) myHashtable in
  b ← bs !! bucket;
  let '(threadData, h, env') := functor (heap st) env in
  match threadData with
  | Some td =>
      '(h', b') ← Bucket.enqueue h b td;
      Some (true, withTable (<[bucket := b']> bs) t (withHeap h' st), env')
  | None => Some (false, withTable bs t (withHeap h st), env')
  end.

(** The namespace-level [dequeue(address, functor)]. *)
Definition dequeue `{PtrHash} {A : Type} (address : Z)
    (functor : ThreadDataPtr → ThreadData → A → DequeueResult * A) (st : State) (acc : A)
  : option (bool * State * A) :=
  let hash := hashAddress address in
  match hashtable st with
  | None => Some (false, st, acc)
  | Some myHashtable =>
      if Hashtable.size myHashtable =? 0 then None else
      let index := hash mod Hashtable.size myHashtable in
      match Hashtable.data myHashtable !! index with
      | None => Some (false, st, acc)
      | Some bucket =>
          b ← buckets st !! bucket;
          '(h', b', acc') ← Bucket.genericDequeue functor (heap st) b acc;
          let result := bool_decide (queueHead b' ≠ None) in
          Some (result, withQueues h' (<[bucket := b']> (buckets st)) st, acc')
      end
  end.

(** [threadData->shouldPark = false; threadData->parkingCondition.notify_all();]
    under the record's [parkingLock]. *)
Definition signal (p : ThreadDataPtr) (st : State) : option State :=
  td ← heap st !! p;
  Some (mkState (<[p := setShouldPark false td]> (heap st)) (buckets st) (hashtable st)
                (numThreads st) (threadData st) (notified st ++ [p])).

Fixpoint signalAll (ps : list ThreadDataPtr) (st : State) : option State :=
  match ps with
  | [] => Some st
  | p :: rest => st' ← signal p st; signalAll rest st'
  end.

Module ParkingLot.

(** What a call of [parkConditionally] comes to when no other thread runs:
    it returns, or it waits on [parkingCondition] with [shouldPark] set. *)
Inductive ParkOutcome := Returned (result : bool) | Waiting.

(** The functor that [parkConditionally] passes to [enqueue]; it captures
    [validation], [me] and [address]. *)
Definition parkFunctor {U : Type} (validation : U → bool * U) (me : ThreadDataPtr)
    (address : Z) (h : Heap) (u : U) : option ThreadDataPtr * Heap * U :=
  let '(valid, u') := validation u in
  if negb valid then (None, h, u')
  else (Some me, alter (λ td, setShouldPark true (setAddress address td)) me h, u').

(** [ParkingLot::parkConditionally(address, validation)] called by thread
    [me]; [validation] reads and writes the caller's own state [U]. *)
Definition parkConditionally `{PtrHash} {U : Type} (me : positive) (address : Z)
    (validation : U → bool * U) (st : State) (u : U) : option (ParkOutcome * State * U) :=
  '(me, st0) ← myThreadData me st;
  '(result, st1, u') ← enqueue address (parkFunctor validation me address) st0 u;
  if negb result then Some (Returned false, st1, u') else
  td ← heap st1 !! me;
  if shouldPark td then Some (Waiting, st1, u')
  else Some (Returned true, withHeap (<[me := setAddress 0 td]> (heap st1)) st1, u').

(** The functor that [unparkOne] passes to [dequeue]; it captures [address]
    and the variable [threadData]. *)
Definition unparkOneFunctor (address : Z) (element : ThreadDataPtr) (td : ThreadData)
    (threadData : option ThreadDataPtr) : DequeueResult * option ThreadDataPtr :=
  if decide (ThreadData.address td ≠ address) then (Ignore, threadData)
  else (RemoveAndStop, Some element).

(** [ParkingLot::unparkOne(address)]. *)
Definition unparkOne `{PtrHash} (address : Z) (st : State) : option (bool * State) :=
  '(result, st1, threadData) ← dequeue address (unparkOneFunctor address) st None;
  match threadData with
  | None => Some (false, st1)
  | Some p => st2 ← signal p st1; Some (result, st2)
  end.

(** The functor that [unparkAll] passes to [dequeue]; it captures [address]
    and the vector [threadDatas]. *)
Definition unparkAllFunctor (address : Z) (element : ThreadDataPtr) (td : ThreadData)
    (threadDatas : list ThreadDataPtr) : DequeueResult * list ThreadDataPtr :=
  if decide (ThreadData.address td ≠ address) then (Ignore, threadDatas)
  else (RemoveAndContinue, threadDatas ++ [element]).

(** [ParkingLot::unparkAll(address)]. *)
Definition unparkAll `{PtrHash} (address : Z) (st : State) : option State :=
  '(_, st1, threadDatas) ← dequeue address (unparkAllFunctor address) st [];
  signalAll threadDatas st1.

(** The end of [parkConditionally], from the wait loop on, as a thread runs
    it when it is scheduled again: it still waits while [shouldPark] is set,
    and otherwise clears [address] and returns true. *)
Definition resumeParked (me : ThreadDataPtr) (st : State) : option (ParkOutcome * State) :=
  td ← heap st !! me;
  if shouldPark td then Some (Waiting, st)
  else Some (Returned true, withHeap (<[me := setAddress 0 td]> (heap st)) st).

(** [for (ThreadData* td = bucket->queueHead; td; td = td->nextInQueue)
    callback(td->threadIdentifier, td->address);] of [forEach].  The callback
    is a closure; [A] holds its captured variables.  A walk of more records
    than the heap holds is a walk around a cycle, which does not end. *)
Fixpoint forEachInQueue {A : Type} (callback : positive → Z → A → A) (fuel : nat)
    (h : Heap) (currentThreadData : option ThreadDataPtr) (acc : A) : option A :=
  match currentThreadData with
  | None => Some acc
  | Some p =>
      match fuel with
      | O => None
      | S fuel' =>
          td ← h !! p;
          forEachInQueue callback fuel' h (nextInQueue td)
            (callback (threadIdentifier td) (ThreadData.address td) acc)
      end
  end.

(** [for (unsigned i = currentHashtable->size; i--;)] of [forEach], with [n]
    slots left to visit. *)
Fixpoint forEachBucket {A : Type} (callback : positive → Z → A → A) (n : nat)
    (h : Heap) (bs : gmap BucketPtr Bucket) (currentHashtable : Hashtable) (acc : A)
  : option A :=
  match n with
  | O => Some acc
  | S i =>
      match Hashtable.data currentHashtable !! Z.of_nat i with
      | None => forEachBucket callback i h bs currentHashtable acc
      | Some bucket =>
          b ← bs !! bucket;
          acc' ← forEachInQueue callback (size h) h (queueHead b) acc;
          forEachBucket callback i h bs currentHashtable acc'
      end
  end.

(** [ParkingLot::forEach(callback)]. *)
Definition forEach {A : Type} (callback : positive → Z → A → A) (st : State) (acc : A)
  : option (State * A) :=
  let '(bucketsToUnlock, st1) := lockHashtable st in
  currentHashtable ← hashtable st1;
  acc' ← forEachBucket callback (Z.to_nat (Hashtable.size currentHashtable))
           (heap st1) (buckets st1) currentHashtable acc;
  Some (st1, acc').

End ParkingLot.

(** ** [LockBase] of [Lock.h] *)

Module LockBase.

Definition isHeldBit : Z := 1.
Definition hasParkedBit : Z := 2.

(** Modelled from the spec: [Atomic<uint8_t>::compareExchangeWeak] (in
    [Atomics.h]) is a compare-and-swap: CAS byte from [expected] to
    [desired].  A weak compare-and-swap may also fail when the byte equals
    [expected]; [spurious] says whether this call does. *)
Definition compareExchangeWeak (spurious : bool) (m_byte expected desired : Z) : bool * Z :=
  if (m_byte =? expected) && negb spurious then (true, desired) else (false, m_byte).

(** How [unlock()] leaves its fast path. *)
Inductive UnlockPath := Released (m_byte : Z) | UnlockSlow (m_byte : Z).

(** [LockBase::unlock()] up to the call of [unlockSlow()] (which [Lock.cpp]
    defines). *)
Definition unlock (spurious : bool) (m_byte : Z) : UnlockPath :=
  let '(exchanged, m_byte') := compareExchangeWeak spurious m_byte isHeldBit 0 in
  if exchanged then Released m_byte' else UnlockSlow m_byte'.

(** How [lock()] leaves its fast path. *)
Inductive LockPath := Acquired (m_byte : Z) | LockSlow (m_byte : Z).

(** [LockBase::lock()] up to the call of [lockSlow()] (which [Lock.cpp]
    defines). *)
Definition lock (spurious : bool) (m_byte : Z) : LockPath :=
  let '(exchanged, m_byte') := compareExchangeWeak spurious m_byte 0 isHeldBit in
  if exchanged then Acquired m_byte' else LockSlow m_byte'.

(** [LockBase::isHeld()]: [m_byte.load() & isHeldBit], converted to [bool]. *)
Definition isHeld (m_byte : Z) : bool := negb (Z.land m_byte isHeldBit =? 0).

(** [LockBase::isLocked()]. *)
Definition isLocked (m_byte : Z) : bool := isHeld m_byte.

(** [Lock::Lock()]: [m_byte.store(0)]. *)
Definition newLock : Z := 0.

End LockBase.

(** ** [WordLock] of [WordLock.h] *)

Module WordLock.

Definition isLockedBit : Z := 1.
Definition isQueueLockedBit : Z := 2.
Definition queueHeadMask : Z := 3.

(** [WordLock::WordLock()]: [m_word.store(0)]. *)
Definition newWordLock : Z := 0.

Inductive LockPath := Acquired (m_word : Z) | LockSlow (m_word : Z).

(** [WordLock::lock()] up to the call of [lockSlow()] (which [WordLock.cpp]
    defines); [Atomic<uintptr_t>::compareExchangeWeak] is the compare-and-swap
    of [LockBase.compareExchangeWeak]. *)
Definition lock (spurious : bool) (m_word : Z) : LockPath :=
  let '(exchanged, m_word') :=
    LockBase.compareExchangeWeak spurious m_word 0 isLockedBit in
  if exchanged then Acquired m_word' else LockSlow m_word'.

Inductive UnlockPath := Released (m_word : Z) | UnlockSlow (m_word : Z).

(** [WordLock::unlock()] up to the call of [unlockSlow()]. *)
Definition unlock (spurious : bool) (m_word : Z) : UnlockPath :=
  let '(exchanged, m_word') :=
    LockBase.compareExchangeWeak spurious m_word isLockedBit 0 in
  if exchanged then Released m_word' else UnlockSlow m_word'.

(** [WordLock::isHeld()] and [WordLock::isLocked()]. *)
Definition isHeld (m_word : Z) : bool := negb (Z.land m_word isLockedBit =? 0).

Definition isLocked (m_word : Z) : bool := isHeld m_word.

End WordLock.

(** ** Queues as lists *)

(** The records [l], in order, link [from] to [to] through [nextInQueue]. *)
Fixpoint lseg (h : Heap) (from : option ThreadDataPtr) (l : list ThreadDataPtr)
    (to : option ThreadDataPtr) : Prop :=
  match l with
  | [] => from = to
  | p :: l' => from = Some p ∧ ∃ td, h !! p = Some td ∧ lseg h (nextInQueue td) l' to
  end.

(** The bucket's queue holds exactly the records [l], first to last:
    [queueHead] leads through [l] to [nullptr] and [queueTail] is the last
    record. *)
Definition isQueue (h : Heap) (b : Bucket) (l : list ThreadDataPtr) : Prop :=
  NoDup l ∧ lseg h (queueHead b) l None ∧ queueTail b = last l.

(** The walk [for (p = from; p; p = p->nextInQueue)] of [ParkingLot::forEach],
    cut off after [fuel] records. *)
Fixpoint walk (fuel : nat) (h : Heap) (from : option ThreadDataPtr) : list ThreadDataPtr :=
  match fuel, from with
  | S fuel', Some p =>
      p :: match h !! p with
           | Some td => walk fuel' h (nextInQueue td)
           | None => []
           end
  | _, _ => []
  end.

Definition queueOrder (h : Heap) (b : Bucket) : list ThreadDataPtr :=
  walk (size h) h (queueHead b).

(** [p->address], and the slot it hashes to in a table of [n] slots. *)
Definition addressOf (h : Heap) (p : ThreadDataPtr) : Z :=
  default 0 (address <$> h !! p).

Definition slotOf `{PtrHash} (n : Z) (a : Z) : Z := hashAddress a mod n.

(** The bucket invariant for the bucket at slot [i] of a table of [n] slots. *)
Definition BucketInvariant `{PtrHash} (h : Heap) (b : Bucket) (n i : Z)
    (l : list ThreadDataPtr) : Prop :=
  isQueue h b l ∧ Forall (λ p, slotOf n (addressOf h p) = i) l.

(** The records queued at slot [i] of the table [t]. *)
Definition slotQueue (h : Heap) (bs : gmap BucketPtr Bucket) (t : Hashtable) (i : Z)
    (l : list ThreadDataPtr) : Prop :=
  match Hashtable.data t !! i with
  | Some bucket => ∃ b, bs !! bucket = Some b ∧ isQueue h b l
  | None => l = []
  end.

(** The table [t] over the objects [h] and [bs] is well formed. *)
Record TableInvariant `{PtrHash} (h : Heap) (bs : gmap BucketPtr Bucket) (t : Hashtable)
  : Prop := mkTableInvariant {
  table_size : 0 < Hashtable.size t;
  table_range : ∀ i bucket, Hashtable.data t !! i = Some bucket → 0 ≤ i < Hashtable.size t;
  table_inj : ∀ i j bucket,
    Hashtable.data t !! i = Some bucket → Hashtable.data t !! j = Some bucket → i = j;
  table_queues : ∀ i, ∃ l,
    slotQueue h bs t i l ∧ Forall (λ p, slotOf (Hashtable.size t) (addressOf h p) = i) l
}.

Definition WellFormed `{PtrHash} (st : State) : Prop :=
  match hashtable st with
  | Some t => TableInvariant (heap st) (buckets st) t
  | None => True
  end.

(** The queue of the bucket at slot [i] of the current hashtable, the queue
    of the bucket that [address] hashes to, and the records in it that are
    parked on [address], first to last. *)
Definition queueAt (st : State) (i : Z) : list ThreadDataPtr :=
  match hashtable st with
  | Some t =>
      match Hashtable.data t !! i with
      | Some bucket =>
          match buckets st !! bucket with
          | Some b => queueOrder (heap st) b
          | None => []
          end
      | None => []
      end
  | None => []
  end.

Definition tableSize (st : State) : Z := from_option Hashtable.size 0 (hashtable st).

Definition queueFor `{PtrHash} (st : State) (address : Z) : list ThreadDataPtr :=
  queueAt st (slotOf (tableSize st) address).

Definition parkedOn `{PtrHash} (st : State) (address : Z) : list ThreadDataPtr :=
  filter (λ p, addressOf (heap st) p = address) (queueFor st address).

(** The record [p] is in the queue of some bucket of the hashtable. *)
Definition enqueued (st : State) (p : ThreadDataPtr) : Prop := ∃ i, p ∈ queueAt st i.

(** The calling thread [me] is not parked: its record, if it has one, is in
    no queue; if it has none, one more thread fits the [unsigned] sizes. *)
Definition notParked (st : State) (me : positive) : Prop :=
  match threadData st !! me with
  | Some p =>
      is_Some (hashtable st) ∧ ¬ enqueued st p ∧
      ∃ td, heap st !! p = Some td ∧ nextInQueue td = None
  | None => 0 ≤ numThreads st ∧ 6 * (numThreads st + 1) < 2 ^ 32
  end.

(** ** Abstract counterparts used in the proofs *)

(** What [genericDequeue] does to a queue [l]: the records kept, the records
    removed and the functor's final variables. *)
Fixpoint select {A : Type} (functor : ThreadDataPtr → ThreadData → A → DequeueResult * A)
    (h : Heap) (l : list ThreadDataPtr) (acc : A)
  : list ThreadDataPtr * list ThreadDataPtr * A :=
  match l with
  | [] => ([], [], acc)
  | p :: l' =>
      match h !! p with
      | None => ([], [], acc)
      | Some td =>
          let '(result, acc') := functor p td acc in
          match result with
          | Ignore => let '(kept, removed, a) := select functor h l' acc' in (p :: kept, removed, a)
          | RemoveAndContinue =>
              let '(kept, removed, a) := select functor h l' acc' in (kept, p :: removed, a)
          | RemoveAndStop => (l', [p], acc')
          end
      end
  end.

(** The two heaps hold the same records up to their [nextInQueue] links. *)
Definition sameRecords (h h' : Heap) : Prop :=
  ∀ p, setNextInQueue None <$> h' !! p = setNextInQueue None <$> h !! p.

(** The two heaps agree on every record outside [l]. *)
Definition agreeOutside (l : list ThreadDataPtr) (h h' : Heap) : Prop :=
  ∀ p, p ∉ l → h' !! p = h !! p.

(** The buckets left for reuse during a rehash: distinct, empty, and not in
    the new table. *)
Definition reusableInvariant (bs : gmap BucketPtr Bucket) (t : Hashtable)
    (reusable : list BucketPtr) : Prop :=
  NoDup reusable ∧
  ∀ bucket, bucket ∈ reusable →
    (∃ b, bs !! bucket = Some b ∧ queueHead b = None ∧ queueTail b = None) ∧
    ∀ j, Hashtable.data t !! j ≠ Some bucket.

(** The state [st'] holds the same thread datas, parked on the same addresses
    in the same order, as [st]; only links and the table may differ. *)
Record sameWaiters `{PtrHash} (st st' : State) : Prop := mkSameWaiters {
  waiters_wf : WellFormed st';
  waiters_table : is_Some (hashtable st');
  waiters_records : sameRecords (heap st) (heap st');
  waiters_numThreads : numThreads st' = numThreads st;
  waiters_threadData : threadData st' = threadData st;
  waiters_notified : notified st' = notified st;
  waiters_parked : ∀ a, parkedOn st' a = parkedOn st a;
  waiters_enqueued : ∀ p, enqueued st' p ↔ enqueued st p
}.

(** Every queue tail of a bucket that a rehash can still use (one left for
    reuse, or one in the new table) satisfies [P]. *)
Definition tailsIn (P : ThreadDataPtr → Prop) (bs : gmap BucketPtr Bucket) (t : Hashtable)
    (reusable : list BucketPtr) : Prop :=
  ∀ bucket b q,
    bucket ∈ reusable ∨ (∃ j, Hashtable.data t !! j = Some bucket) →
    bs !! bucket = Some b → queueTail b = Some q → P q.

(** The slots of the table that hold a bucket, and the buckets it holds. *)
Definition slotsInUse (t : Hashtable) : list Z :=
  filter (λ j, is_Some (Hashtable.data t !! j)) (seqZ 0 (Hashtable.size t)).

Definition hasBucket (t : Hashtable) (bucket : BucketPtr) : Prop :=
  ∃ j, Hashtable.data t !! j = Some bucket.

(** What the debug assertions of the file check, as a property of the
    state: a thread that has a record has it in the heap, and the hashtable
    exists by then; a record has [shouldPark] set exactly while it is in a
    queue ([ASSERT(!me->shouldPark)] before a park,
    [ASSERT(threadData->shouldPark)] at an unpark); and a record that is in
    no queue has a null [nextInQueue] ([ASSERT(!data->nextInQueue)] in
    [Bucket::enqueue]). *)
Record Consistent `{PtrHash} (st : State) : Prop := mkConsistent {
  consistent_wf : WellFormed st;
  consistent_threads : ∀ me p, threadData st !! me = Some p →
    is_Some (heap st !! p) ∧ is_Some (hashtable st);
  consistent_records : ∀ p td, heap st !! p = Some td →
    (shouldPark td = true ↔ enqueued st p) ∧ (¬ enqueued st p → nextInQueue td = None)
}.

(** The thread [me] may call [parkConditionally]: its record, if it has
    one, passes [ASSERT(!me->shouldPark)]; if it has none, one more thread
    fits the [unsigned] sizes. *)
Definition canPark (st : State) (me : positive) : Prop :=
  match threadData st !! me with
  | Some p => shouldPark <$> heap st !! p = Some false
  | None => 0 ≤ numThreads st ∧ 6 * (numThreads st + 1) < 2 ^ 32
  end.

(** The state [st'] is [st] after the records [ws] were taken out of their
    queues and signalled. *)
Record unparked (ws : list ThreadDataPtr) (st st' : State) : Prop := mkUnparked {
  unparked_table : hashtable st' = hashtable st;
  unparked_numThreads : numThreads st' = numThreads st;
  unparked_threadData : threadData st' = threadData st;
  unparked_notified : notified st' = notified st ++ ws;
  unparked_queues : ∀ i, queueAt st' i = filter (λ q, q ∉ ws) (queueAt st i);
  unparked_woken : ∀ q, q ∈ ws →
    enqueued st q ∧ shouldPark <$> heap st' !! q = Some false ∧
    nextInQueue <$> heap st' !! q = Some None;
  unparked_address : ∀ q, addressOf (heap st') q = addressOf (heap st) q;
  unparked_others : ∀ q, q ∉ ws →
    shouldPark <$> heap st' !! q = shouldPark <$> heap st !! q;
  unparked_frame : ∀ q, ¬ enqueued st q → heap st' !! q = heap st !! q;
  unparked_identifier : ∀ q,
    threadIdentifier <$> heap st' !! q = threadIdentifier <$> heap st !! q
}.

(** Every thread's record carries the identifier of that thread. *)
Definition ownRecords (st : State) : Prop :=
  ∀ me p, threadData st !! me = Some p → threadIdentifier <$> heap st !! p = Some me.

(** The invariant of the parking lot between calls: the state is
    consistent, [numThreads] is the number of threads that have a thread
    data, the hashtable, once made, has at least [maxLoadFactor] slots for
    each of them, every thread's record carries the identifier of that
    thread, and every record in a queue has a non-null [address]. *)
Record RunInvariant `{PtrHash} (st : State) : Prop := mkRunInvariant {
  run_consistent : Consistent st;
  run_count : numThreads st = Z.of_nat (size (threadData st));
  run_load : is_Some (hashtable st) → maxLoadFactor * numThreads st ≤ tableSize st;
  run_own : ownRecords st;
  run_address : ∀ p, enqueued st p → addressOf (heap st) p ≠ 0
}.

(** From [st] to [st'] only threads parked on [address] were signalled, and
    for every other thread data nothing changed that a thread parked on
    another address could observe. *)
Definition untouchedExcept `{PtrHash} (address : Z) (st st' : State) : Prop :=
  (∃ ws, notified st' = notified st ++ ws ∧
         Forall (λ q, addressOf (heap st) q = address) ws) ∧
  (∀ a', a' ≠ address → parkedOn st' a' = parkedOn st a') ∧
  (∀ q, addressOf (heap st) q ≠ address →
     (enqueued st' q ↔ enqueued st q) ∧
     shouldPark <$> heap st' !! q = shouldPark <$> heap st !! q ∧
     addressOf (heap st') q = addressOf (heap st) q).

(** The slots in the order in which [forEach] visits them, [n - 1] down to
    0, the records it meets on the way, and one call of the callback on the
    record [p]. *)
Definition slotsDescending (n : Z) : list Z :=
  (λ i : nat, Z.of_nat i) <$> reverse (seq 0 (Z.to_nat n)).

Definition visited (st : State) : list ThreadDataPtr :=
  mjoin (queueAt st <$> slotsDescending (tableSize st)).

Definition callOn {A : Type} (callback : positive → Z → A → A) (h : Heap) (acc : A)
    (p : ThreadDataPtr) : A :=
  match h !! p with
  | Some td => callback (threadIdentifier td) (ThreadData.address td) acc
  | None => acc
  end.

(** ** Worked examples *)

(** A hash for the examples: the pointer value itself. *)
Definition identityHash : PtrHash := λ address, address.

Section Examples.
#[local] Existing Instance identityHash.

(** No thread has touched the parking lot yet. *)
Definition initialState : State := mkState ∅ ∅ None 0 ∅ [].

Definition alwaysValid (u : unit) : bool * unit := (true, u).

(** The thread [me] parks on [address]; the state it waits in. *)
Definition park (st : State) (who : positive * Z) : State :=
  match ParkingLot.parkConditionally who.1 who.2 alwaysValid st tt with
  | Some (_, st', _) => st'
  | None => st
  end.

Definition parkAll (parks : list (positive * Z)) : State := foldl park initialState parks.

(** One thread parked on address 100. *)
Definition oneWaiter : State := parkAll [(1%positive, 100)].

(** Two threads parked on the addresses 100 and 112, which share a bucket
    of the 12-slot table. *)
Definition sharedBucket : State := parkAll [(1%positive, 100); (2%positive, 112)].

(** Threads 1, 2 and 4 parked on address 100, thread 3 on address 112 in
    the same bucket. *)
Definition fourWaiters : State :=
  parkAll [(1%positive, 100); (2%positive, 100); (3%positive, 112); (4%positive, 100)].
End Examples.

(** * Proofs *)

(** ** List segments *)

Lemma lseg_app h from l1 l2 to :
  lseg h from (l1 ++ l2) to ↔ ∃ mid, lseg h from l1 mid ∧ lseg h mid l2 to.
Proof.
  revert from. induction l1 as [|p l1 IH]; intros from; simpl.
  - split; [intros Hl; eauto | intros (mid & -> & Hl); done].
  - split.
    + intros (-> & td & Htd & Hl). apply IH in Hl as (mid & H1 & H2). eauto 10.
    + intros (mid & (-> & td & Htd & H1) & H2). split; [done|].
      exists td. split; [done|]. apply IH. eauto.
Qed.

Lemma lseg_snoc h from l p to :
  lseg h from (l ++ [p]) to ↔
  lseg h from l (Some p) ∧ ∃ td, h !! p = Some td ∧ nextInQueue td = to.
Proof.
  rewrite lseg_app. simpl. split.
  - intros (mid & H1 & -> & td & Htd & Hto). eauto.
  - intros (H1 & td & Htd & Hto). eauto 10.
Qed.

Lemma lseg_links h h' from l to :
  (∀ p, p ∈ l → nextInQueue <$> h' !! p = nextInQueue <$> h !! p) →
  lseg h from l to → lseg h' from l to.
Proof.
  revert from. induction l as [|p l IH]; intros from Hagree; simpl; [done|].
  intros (-> & td & Htd & Hl). split; [done|].
  pose proof (Hagree p (list_elem_of_here _ _)) as Hp. rewrite Htd in Hp. simpl in Hp.
  destruct (h' !! p) as [td'|] eqn:Htd'; simpl in Hp; [|done]. injection Hp as Hp.
  exists td'. split; [done|]. rewrite Hp. apply IH; [|done].
  intros q Hq. apply Hagree. by apply list_elem_of_further.
Qed.

Lemma lseg_dom h from l to p : lseg h from l to → p ∈ l → is_Some (h !! p).
Proof.
  revert from. induction l as [|q l IH]; intros from; simpl; [by intros _ ?%elem_of_nil|].
  intros (-> & td & Htd & Hl) [->|Hp]%elem_of_cons; eauto.
Qed.

Lemma lseg_head h from l to : lseg h from l to → from = from_option Some to (head l).
Proof. destruct l; simpl; [done|]. by intros (-> & _). Qed.

Lemma lseg_functional h from l1 l2 :
  lseg h from l1 None → lseg h from l2 None → l1 = l2.
Proof.
  revert from l2. induction l1 as [|p l1 IH]; intros from [|q l2]; simpl; try done.
  - by intros -> (? & _).
  - by intros (-> & _) ?.
  - intros (-> & td & Htd & H1) (? & td' & Htd' & H2). simplify_eq. f_equal. eauto.
Qed.

Lemma walk_lseg fuel h from l :
  lseg h from l None → (length l ≤ fuel)%nat → walk fuel h from = l.
Proof.
  revert from l. induction fuel as [|fuel IH]; intros from [|p l]; simpl.
  - done.
  - lia.
  - by intros ->.
  - intros (-> & td & -> & Hl) ?. f_equal. apply IH; [done|lia].
Qed.

Lemma NoDup_length_dom (h : Heap) (l : list ThreadDataPtr) :
  NoDup l → (∀ p, p ∈ l → is_Some (h !! p)) → (length l ≤ size h)%nat.
Proof.
  intros Hnd Hin. rewrite <- size_dom, <- (size_list_to_set (C := gset positive) l Hnd).
  apply subseteq_size. intros p Hp%elem_of_list_to_set. apply elem_of_dom. auto.
Qed.

Lemma isQueue_length h b l : isQueue h b l → (length l ≤ size h)%nat.
Proof.
  intros (Hnd & Hl & _). apply NoDup_length_dom; [done|].
  intros p Hp. eapply lseg_dom; eauto.
Qed.

Lemma isQueue_order h b l : isQueue h b l → queueOrder h b = l.
Proof.
  intros Hq. pose proof (isQueue_length _ _ _ Hq). destruct Hq as (_ & Hl & _).
  by apply walk_lseg.
Qed.

Lemma isQueue_functional h b l1 l2 : isQueue h b l1 → isQueue h b l2 → l1 = l2.
Proof. intros (_ & H1 & _) (_ & H2 & _). eapply lseg_functional; eauto. Qed.

Lemma isQueue_nil h b : isQueue h b [] ↔ queueHead b = None ∧ queueTail b = None.
Proof.
  unfold isQueue. simpl. split; [by intros (_ & ? & ?)|]. intros [-> ->]. split; [constructor|done].
Qed.

Lemma isQueue_head_tail h b l :
  isQueue h b l → queueHead b = head l ∧ queueTail b = last l.
Proof.
  intros (_ & Hl & Ht). split; [|done]. apply lseg_head in Hl. by destruct l.
Qed.

Lemma isQueue_null_iff h b l : isQueue h b l → (queueHead b = None ↔ queueTail b = None).
Proof.
  intros [Hh Ht]%isQueue_head_tail. rewrite Hh, Ht.
  destruct l as [|p l]; [done|]. simpl. split; [done|].
  intros Hn. by apply last_None in Hn.
Qed.

Lemma isQueue_links h h' b l :
  (∀ p, p ∈ l → nextInQueue <$> h' !! p = nextInQueue <$> h !! p) →
  isQueue h b l → isQueue h' b l.
Proof. intros Hagree (Hnd & Hl & Ht). split_and!; [done| |done]. eapply lseg_links; eauto. Qed.

(** ** Heaps that differ in links only *)

Lemma sameRecords_refl h : sameRecords h h.
Proof. by intros p. Qed.

Lemma sameRecords_trans h1 h2 h3 : sameRecords h1 h2 → sameRecords h2 h3 → sameRecords h1 h3.
Proof. intros H12 H23 p. by rewrite H23, H12. Qed.

Lemma sameRecords_insert h p td v :
  h !! p = Some td → sameRecords h (<[p := setNextInQueue v td]> h).
Proof.
  intros Htd q. destruct (decide (p = q)) as [<-|Hne].
  - by rewrite lookup_insert_eq, Htd.
  - by rewrite lookup_insert_ne.
Qed.

Lemma sameRecords_address h h' p : sameRecords h h' → addressOf h' p = addressOf h p.
Proof.
  intros Hs. specialize (Hs p). unfold addressOf.
  destruct (h' !! p) as [[]|], (h !! p) as [[]|]; simplify_eq/=; done.
Qed.

Lemma agreeOutside_refl l h : agreeOutside l h h.
Proof. by intros p. Qed.

Lemma agreeOutside_trans l h1 h2 h3 :
  agreeOutside l h1 h2 → agreeOutside l h2 h3 → agreeOutside l h1 h3.
Proof. intros H12 H23 p Hp. by rewrite H23, H12. Qed.

Lemma agreeOutside_mono l l' h h' : l ⊆ l' → agreeOutside l h h' → agreeOutside l' h h'.
Proof. intros Hsub Ha p Hp. apply Ha. intros Hin. by apply Hp, Hsub. Qed.

Lemma agreeOutside_insert l h p td : p ∈ l → agreeOutside l h (<[p := td]> h).
Proof. intros Hp q Hq. rewrite lookup_insert_ne; [done|]. by intros ->. Qed.

Lemma agreeOutside_last l h h' :
  agreeOutside (option_list (last l)) h h' → agreeOutside l h h'.
Proof.
  intros Ha p Hp. apply Ha. destruct (last l) as [x|] eqn:Hlast; simpl.
  - intros ->%list_elem_of_singleton. by apply Hp, last_Some_elem_of.
  - by intros ?%elem_of_nil.
Qed.

Lemma storeNext_Some h p td v :
  h !! p = Some td → storeNext h p v = Some (<[p := setNextInQueue v td]> h).
Proof. intros Htd. unfold storeNext. by rewrite Htd. Qed.

Lemma isQueue_agree l' h h' b l :
  agreeOutside l' h h' → (∀ p, p ∈ l → p ∉ l') → isQueue h b l → isQueue h' b l.
Proof.
  intros Ha Hdisj. apply isQueue_links. intros p Hp. by rewrite Ha; [|apply Hdisj].
Qed.

(** ** [Bucket::enqueue] *)

Lemma Bucket_enqueue_spec h b l data td :
  isQueue h b l → h !! data = Some td → nextInQueue td = None → data ∉ l →
  ∃ h' b', Bucket.enqueue h b data = Some (h', b') ∧
    isQueue h' b' (l ++ [data]) ∧ sameRecords h h' ∧
    agreeOutside (option_list (last l)) h h'.
Proof.
  intros (Hnd & Hl & Ht) Htd Hnext Hfresh. unfold Bucket.enqueue. rewrite Ht.
  assert (NoDup (l ++ [data])) as Hnd'.
  { apply NoDup_app. split_and!; [done| |apply NoDup_singleton].
    intros p Hp ->%list_elem_of_singleton. done. }
  destruct (last l) as [t|] eqn:Hlast.
  - apply last_Some in Hlast as [l' ->].
    apply lseg_snoc in Hl as (Hl' & tdt & Htdt & Hnt).
    assert (t ≠ data) as Hne by (intros ->; apply Hfresh; set_solver).
    rewrite (storeNext_Some _ _ _ _ Htdt). simpl. eexists _, _. split; [done|].
    split_and!.
    + split_and!; [done| |by rewrite last_snoc]. simpl.
      apply lseg_snoc. split.
      * apply lseg_snoc. split.
        -- eapply lseg_links; [|done]. intros p Hp. rewrite lookup_insert_ne; [done|].
           intros <-. apply NoDup_app in Hnd as (_ & Hd & _). apply (Hd t); set_solver.
        -- exists (setNextInQueue (Some data) tdt). by rewrite lookup_insert_eq.
      * exists td. by rewrite lookup_insert_ne.
    + by apply sameRecords_insert.
    + apply agreeOutside_insert. simpl. set_solver.
  - apply last_None in Hlast as ->. simpl in *. eexists _, _. split; [done|].
    split_and!; [|apply sameRecords_refl|apply agreeOutside_refl].
    split_and!; [done| |done]. simpl. eauto.
Qed.

(** ** [Bucket::genericDequeue] *)

Lemma select_ext {A} (functor : ThreadDataPtr → ThreadData → A → DequeueResult * A) h h' l acc :
  (∀ p, p ∈ l → h' !! p = h !! p) → select functor h' l acc = select functor h l acc.
Proof.
  revert acc. induction l as [|p l IH]; intros acc Hagree; simpl; [done|].
  assert (∀ q, q ∈ l → h' !! q = h !! q) as Hl
    by (intros q Hq; by apply Hagree, list_elem_of_further).
  rewrite (Hagree p) by apply list_elem_of_here. destruct (h !! p) as [td|]; [|done].
  destruct (functor p td acc) as [[] acc']; [|by rewrite IH|done].
  by rewrite IH.
Qed.

Lemma select_kept_subset {A} (functor : ThreadDataPtr → ThreadData → A → DequeueResult * A)
    h l acc p :
  p ∈ (select functor h l acc).1.1 → p ∈ l.
Proof.
  revert acc. induction l as [|q l IH]; intros acc; simpl; [done|].
  destruct (h !! q) as [td|]; [|by intros ?%elem_of_nil].
  destruct (functor q td acc) as [[] acc']; simpl.
  - specialize (IH acc'). destruct (select functor h l acc') as [[kept removed] a].
    simpl in *. intros [->|Hp]%elem_of_cons; [left|right; auto].
  - specialize (IH acc'). destruct (select functor h l acc') as [[kept removed] a].
    simpl in *. right; auto.
  - by right.
Qed.

Lemma select_partition {A} (functor : ThreadDataPtr → ThreadData → A → DequeueResult * A)
    h l acc p :
  (∀ q, q ∈ l → is_Some (h !! q)) → p ∈ l →
  p ∈ (select functor h l acc).1.1 ∨ p ∈ (select functor h l acc).1.2.
Proof.
  revert acc. induction l as [|q l IH]; intros acc Hdom; [by intros ?%elem_of_nil|].
  assert (∀ r, r ∈ l → is_Some (h !! r)) as Hdom'
    by (intros r Hr; by apply Hdom, list_elem_of_further).
  cbn [select]. destruct (Hdom q (list_elem_of_here _ _)) as [td ->].
  destruct (functor q td acc) as [[] acc']; simpl.
  - specialize (IH acc' Hdom'). destruct (select functor h l acc') as [[kept removed] a].
    simpl in *. intros [->|Hp]%elem_of_cons; [left; left|].
    destruct (IH Hp); [left; by right|by right].
  - specialize (IH acc' Hdom'). destruct (select functor h l acc') as [[kept removed] a].
    simpl in *. intros [->|Hp]%elem_of_cons; [right; left|].
    destruct (IH Hp); [by left|right; by right].
  - intros [->|Hp]%elem_of_cons; [right; left|by left].
Qed.

Lemma select_kept_sublist {A} (functor : ThreadDataPtr → ThreadData → A → DequeueResult * A)
    h l acc :
  sublist (select functor h l acc).1.1 l.
Proof.
  revert acc. induction l as [|q l IH]; intros acc; simpl; [constructor|].
  destruct (h !! q) as [td|]; [|apply sublist_nil_l].
  destruct (functor q td acc) as [[] acc']; simpl.
  - specialize (IH acc'). destruct (select functor h l acc') as [[kept removed] a].
    by apply sublist_skip.
  - specialize (IH acc'). destruct (select functor h l acc') as [[kept removed] a].
    by apply sublist_cons.
  - by apply sublist_cons.
Qed.

(** Removing the record [cur] that follows the records [pre]. *)
Lemma remove_step h b pre cur suf td :
  NoDup (pre ++ cur :: suf) →
  lseg h (queueHead b) (pre ++ cur :: suf) None →
  queueTail b = last (pre ++ cur :: suf) →
  h !! cur = Some td →
  ∃ h2 b2 h3,
    storeLink h (if decide (Some cur = queueTail b)
                 then mkBucket (queueHead b) (last pre) else b)
              (from_option NextRef HeadRef (last pre)) (nextInQueue td) = Some (h2, b2) ∧
    storeNext h2 cur None = Some h3 ∧
    lseg h3 (queueHead b2) (pre ++ suf) None ∧
    queueTail b2 = last (pre ++ suf) ∧
    h3 !! cur = Some (setNextInQueue None td) ∧
    sameRecords h h3 ∧
    agreeOutside (pre ++ [cur]) h h3.
Proof.
  intros Hnd Hl Ht Htd.
  apply NoDup_app in Hnd as (Hndpre & Hdisj & [Hcur Hndsuf]%NoDup_cons).
  assert (cur ∉ pre) as Hcurpre by (intros Hin; apply (Hdisj cur Hin); set_solver).
  set (b1 := if decide (Some cur = queueTail b)
             then mkBucket (queueHead b) (last pre) else b).
  assert (queueHead b1 = queueHead b) as Hh1 by (unfold b1; by case_decide).
  assert (queueTail b1 = last (pre ++ suf)) as Ht1.
  { unfold b1. rewrite Ht. destruct suf as [|x suf'] using rev_ind.
    - rewrite last_snoc, app_nil_r. by rewrite decide_True.
    - rewrite !app_comm_cons, !app_assoc, !last_snoc. rewrite decide_False; [|intros [= ->]].
      + rewrite Ht. by rewrite !app_comm_cons, !app_assoc, !last_snoc.
      + apply Hcur. set_solver. }
  apply lseg_app in Hl as (mid & Hpre & Hsuf). simpl in Hsuf.
  destruct Hsuf as (-> & td' & Htd' & Hsuf).
  rewrite Htd in Htd'. injection Htd' as <-.
  destruct (last pre) as [p|] eqn:Hlast; simpl.
  - apply last_Some in Hlast as [pre' ->].
    apply lseg_snoc in Hpre as (Hpre' & tdp & Htdp & Hnp).
    assert (p ≠ cur) as Hpc by (intros ->; apply Hcurpre; set_solver).
    rewrite (storeNext_Some _ _ _ _ Htdp). simpl.
    eexists _, _, _. split; [done|].
    rewrite (storeNext_Some _ _ td) by (by rewrite lookup_insert_ne).
    split; [done|].
    apply NoDup_app in Hndpre as (_ & Hpp & _).
    split_and!.
    + rewrite Hh1. rewrite <- app_assoc. apply lseg_app. exists (Some p). split.
      * eapply lseg_links; [|done]. intros q Hq.
        rewrite !lookup_insert_ne; [done| |]; intros <-.
        -- apply (Hpp p Hq). set_solver.
        -- apply Hcurpre. set_solver.
      * simpl. split; [done|]. exists (setNextInQueue (nextInQueue td) tdp).
        split; [by rewrite lookup_insert_ne, lookup_insert_eq|]. simpl.
        eapply lseg_links; [|done]. intros q Hq.
        rewrite !lookup_insert_ne; [done| |]; intros <-; [|done].
        apply (Hdisj p); set_solver.
    + done.
    + by rewrite lookup_insert_eq.
    + apply (sameRecords_trans _ (<[p:=setNextInQueue (nextInQueue td) tdp]> h));
        [by apply sameRecords_insert|].
      apply sameRecords_insert. by rewrite lookup_insert_ne.
    + intros q Hq. rewrite !lookup_insert_ne; [done| |]; intros <-; apply Hq; set_solver.
  - apply last_None in Hlast as ->. simpl in *. subst.
    eexists _, _, _. split; [done|]. rewrite (storeNext_Some _ _ _ _ Htd).
    split; [done|]. simpl. split_and!.
    + eapply lseg_links; [|done]. intros q Hq. rewrite lookup_insert_ne; [done|].
      by intros <-.
    + done.
    + by rewrite lookup_insert_eq.
    + by apply sameRecords_insert.
    + apply agreeOutside_insert. set_solver.
Qed.

Section GenericDequeueSpec.
Context {A : Type} (functor : ThreadDataPtr → ThreadData → A → DequeueResult * A).

Lemma loadLink_current h b pre mid :
  lseg h (queueHead b) pre mid →
  loadLink h b (from_option NextRef HeadRef (last pre)) = Some mid.
Proof.
  destruct (last pre) as [p|] eqn:Hlast; simpl.
  - apply last_Some in Hlast as [pre' ->].
    intros (_ & td & -> & <-)%lseg_snoc. done.
  - apply last_None in Hlast as ->. simpl. by intros ->.
Qed.

Lemma genericDequeueLoop_spec suf : ∀ pre h b acc fuel,
  NoDup (pre ++ suf) →
  lseg h (queueHead b) (pre ++ suf) None →
  queueTail b = last (pre ++ suf) →
  (length suf < fuel)%nat →
  ∃ h' b',
    Bucket.genericDequeueLoop functor fuel h b
      (from_option NextRef HeadRef (last pre)) (last pre) acc
    = Some (h', b', (select functor h suf acc).2) ∧
    isQueue h' b' (pre ++ (select functor h suf acc).1.1) ∧
    (∀ p, p ∈ (select functor h suf acc).1.2 → nextInQueue <$> h' !! p = Some None) ∧
    sameRecords h h' ∧
    agreeOutside (pre ++ suf) h h' ∧
    ((select functor h suf acc).1.2 = [] → h' = h ∧ b' = b).
Proof.
  induction suf as [|cur suf IH]; intros pre h b acc fuel Hnd Hl Ht Hfuel.
  - destruct fuel as [|fuel]; [simpl in Hfuel; lia|]. simpl.
    rewrite app_nil_r in Hl, Ht, Hnd.
    rewrite (loadLink_current _ _ _ _ Hl). simpl.
    exists h, b. rewrite app_nil_r.
    split_and!; [done|done| |apply sameRecords_refl|apply agreeOutside_refl|done].
    by intros p ?%elem_of_nil.
  - destruct fuel as [|fuel]; [simpl in Hfuel; lia|]. simpl in Hfuel.
    pose proof Hl as (mid & Hpre & Hsuf)%lseg_app.
    pose proof Hsuf as (-> & td & Htd & Hsuf').
    cbn [Bucket.genericDequeueLoop select].
    rewrite (loadLink_current _ _ _ _ Hpre). simpl. rewrite Htd. simpl.
    destruct (functor cur td acc) as [result acc'] eqn:Hf.
    destruct (remove_step h b pre cur suf td Hnd Hl Ht Htd)
      as (h2 & b2 & h3 & Hstore & Hclear & Hl3 & Ht3 & Hcur3 & Hsame3 & Hout3).
    assert (NoDup (pre ++ suf) ∧ cur ∉ pre ++ suf) as [Hnd3 Hcur].
    { apply NoDup_app in Hnd as (? & Hd & [? ?]%NoDup_cons). split.
      - apply NoDup_app. split_and!; [done| |done].
        intros x Hx Hx'. apply (Hd x Hx). by apply list_elem_of_further.
      - intros [Hin|Hin]%elem_of_app; [|done].
        apply (Hd cur Hin). apply list_elem_of_here. }
    assert (agreeOutside (pre ++ cur :: suf) h h3) as Hout3'.
    { eapply agreeOutside_mono; [|done]. intros x. rewrite !elem_of_app, !elem_of_cons.
      rewrite elem_of_nil. tauto. }
    destruct result.
    + (* Ignore: the record stays and the loop moves to its link *)
      specialize (IH (pre ++ [cur]) h b acc' fuel).
      rewrite last_snoc, <- !app_assoc in IH. simpl in IH.
      destruct IH as (h' & b' & Hrun & Hq & Hrem & Hsame & Hout & Hnone); [done..|lia|].
      exists h', b'. destruct (select functor h suf acc') as [[kept removed] a].
      simpl in *. done.
    + (* RemoveAndContinue *)
      rewrite Hstore. simpl. rewrite Hclear. simpl.
      destruct (IH pre h3 b2 acc' fuel)
        as (h' & b' & Hrun & Hq & Hrem & Hsame & Hout & _); [done..|lia|].
      assert (select functor h3 suf acc' = select functor h suf acc') as Hsel.
      { apply select_ext. intros p Hp. apply Hout3. intros Hin.
        apply NoDup_app in Hnd as (? & Hd & [? ?]%NoDup_cons).
        apply elem_of_app in Hin as [Hin| ->%list_elem_of_singleton]; [|done].
        apply (Hd p Hin). by apply list_elem_of_further. }
      rewrite Hsel in *. exists h', b'.
      destruct (select functor h suf acc') as [[kept removed] a]. simpl in *.
      split_and!; [done|done| | | |done].
      * intros p [->|Hp]%elem_of_cons; [|by apply Hrem].
        rewrite (Hout cur Hcur). by rewrite Hcur3.
      * by eapply sameRecords_trans.
      * eapply agreeOutside_trans; [done|].
        eapply agreeOutside_mono; [|done]. intros x. rewrite !elem_of_app, !elem_of_cons.
        tauto.
    + (* RemoveAndStop *)
      rewrite Hstore. simpl. rewrite Hclear. simpl.
      exists h3, b2. split_and!; [done| | |done|done|done].
      * split_and!; done.
      * intros p ->%list_elem_of_singleton. by rewrite Hcur3.
Qed.

Lemma genericDequeue_spec h b l acc :
  isQueue h b l →
  ∃ h' b',
    Bucket.genericDequeue functor h b acc = Some (h', b', (select functor h l acc).2) ∧
    isQueue h' b' (select functor h l acc).1.1 ∧
    (∀ p, p ∈ (select functor h l acc).1.2 → nextInQueue <$> h' !! p = Some None) ∧
    sameRecords h h' ∧
    agreeOutside l h h' ∧
    ((select functor h l acc).1.2 = [] → h' = h ∧ b' = b).
Proof.
  intros Hq. pose proof (isQueue_length _ _ _ Hq) as Hlen.
  pose proof Hq as (Hnd & Hl & Ht). unfold Bucket.genericDequeue.
  destruct (queueHead b) as [p|] eqn:Hhead.
  - rewrite <- Hhead in Hl.
    destruct (genericDequeueLoop_spec l [] h b acc (S (size h))) as (h' & b' & Hrun);
      [done..|lia|].
    exists h', b'. done.
  - destruct l as [|q l]; [|by destruct Hl]. simpl.
    exists h, b. split_and!; [done|done| |apply sameRecords_refl|apply agreeOutside_refl|done].
    by intros p ?%elem_of_nil.
Qed.
End GenericDequeueSpec.

(** ** What the functors of the parking lot select *)

Lemma addressOf_lookup h p td : h !! p = Some td → addressOf h p = address td.
Proof. intros Htd. unfold addressOf. by rewrite Htd. Qed.

Lemma select_dequeue h p l acc :
  is_Some (h !! p) → select Bucket.dequeueFunctor h (p :: l) acc = (l, [p], Some p).
Proof. intros [td Htd]. simpl. by rewrite Htd. Qed.

Lemma unparkOneFunctor_miss a p td acc :
  address td ≠ a → ParkingLot.unparkOneFunctor a p td acc = (Ignore, acc).
Proof. intros Hne. unfold ParkingLot.unparkOneFunctor. by rewrite decide_True. Qed.

Lemma unparkOneFunctor_hit a p td acc :
  address td = a → ParkingLot.unparkOneFunctor a p td acc = (RemoveAndStop, Some p).
Proof.
  intros Heq. unfold ParkingLot.unparkOneFunctor.
  by rewrite decide_False by (intros Hne; by apply Hne).
Qed.

Lemma unparkAllFunctor_miss a p td acc :
  address td ≠ a → ParkingLot.unparkAllFunctor a p td acc = (Ignore, acc).
Proof. intros Hne. unfold ParkingLot.unparkAllFunctor. by rewrite decide_True. Qed.

Lemma unparkAllFunctor_hit a p td acc :
  address td = a → ParkingLot.unparkAllFunctor a p td acc = (RemoveAndContinue, acc ++ [p]).
Proof.
  intros Heq. unfold ParkingLot.unparkAllFunctor.
  by rewrite decide_False by (intros Hne; by apply Hne).
Qed.

Lemma select_one_miss a h l acc :
  (∀ p, p ∈ l → is_Some (h !! p)) →
  Forall (λ p, addressOf h p ≠ a) l →
  select (ParkingLot.unparkOneFunctor a) h l acc = (l, [], acc).
Proof.
  induction l as [|p l IH]; intros Hdom Hmiss; cbn [select]; [done|].
  apply Forall_cons in Hmiss as [Hp Hmiss].
  destruct (Hdom p) as [td Htd]; [apply list_elem_of_here|]. rewrite Htd.
  rewrite (addressOf_lookup _ _ _ Htd) in Hp.
  rewrite unparkOneFunctor_miss by done. rewrite IH; [done| |done].
  intros q Hq. by apply Hdom, list_elem_of_further.
Qed.

Lemma select_one_hit a h l1 p l2 acc :
  (∀ q, q ∈ l1 ++ p :: l2 → is_Some (h !! q)) →
  Forall (λ q, addressOf h q ≠ a) l1 → addressOf h p = a →
  select (ParkingLot.unparkOneFunctor a) h (l1 ++ p :: l2) acc = (l1 ++ l2, [p], Some p).
Proof.
  induction l1 as [|q l1 IH]; intros Hdom Hmiss Hp; cbn [select app].
  - destruct (Hdom p) as [td Htd]; [apply list_elem_of_here|]. rewrite Htd.
    rewrite (addressOf_lookup _ _ _ Htd) in Hp.
    by rewrite unparkOneFunctor_hit.
  - apply Forall_cons in Hmiss as [Hq Hmiss].
    destruct (Hdom q) as [td Htd]; [apply list_elem_of_here|]. rewrite Htd.
    rewrite (addressOf_lookup _ _ _ Htd) in Hq.
    rewrite unparkOneFunctor_miss by done. rewrite IH; [done| |done..].
    intros r Hr. by apply Hdom, list_elem_of_further.
Qed.

Lemma select_all a h l acc :
  (∀ p, p ∈ l → is_Some (h !! p)) →
  select (ParkingLot.unparkAllFunctor a) h l acc
  = (filter (λ p, addressOf h p ≠ a) l, filter (λ p, addressOf h p = a) l,
     acc ++ filter (λ p, addressOf h p = a) l).
Proof.
  revert acc. induction l as [|p l IH]; intros acc Hdom; cbn [select].
  - by rewrite app_nil_r.
  - destruct (Hdom p) as [td Htd]; [apply list_elem_of_here|]. rewrite Htd.
    assert (∀ q, q ∈ l → is_Some (h !! q)) as Hdom'
      by (intros q Hq; by apply Hdom, list_elem_of_further).
    rewrite !filter_cons. rewrite (addressOf_lookup _ _ _ Htd).
    destruct (decide (address td ≠ a)) as [Hne|Heq].
    + rewrite unparkAllFunctor_miss, IH by done. by rewrite decide_False by done.
    + apply dec_stable in Heq. rewrite unparkAllFunctor_hit, IH by done.
      rewrite decide_True by done. by rewrite <- app_assoc.
Qed.

Lemma filter_first {T} (P : T → Prop) `{!∀ x, Decision (P x)} (l : list T) x rest :
  filter P l = x :: rest →
  ∃ l1 l2, l = l1 ++ x :: l2 ∧ Forall (λ y, ¬ P y) l1 ∧ P x ∧ filter P l2 = rest.
Proof.
  induction l as [|y l IH]; [done|]. rewrite filter_cons.
  destruct (decide (P y)) as [Hy|Hy].
  - intros [= -> <-]. exists [], l. split_and!; [done|constructor|done|done].
  - intros (l1 & l2 & -> & Hl1 & Hx & Hrest)%IH. exists (y :: l1), l2.
    split_and!; [done|by constructor|done|done].
Qed.

Lemma filter_none {T} (P : T → Prop) `{!∀ x, Decision (P x)} (l : list T) :
  filter P l = [] ↔ Forall (λ y, ¬ P y) l.
Proof.
  induction l as [|y l IH]; [by split; [constructor|]|]. rewrite filter_cons, Forall_cons.
  destruct (decide (P y)); [split; [done|by intros []]|]. rewrite IH. tauto.
Qed.

(** ** The table invariant *)

Section Table.
Context `{PtrHash}.

Lemma slotQueue_functional h bs t i l1 l2 :
  slotQueue h bs t i l1 → slotQueue h bs t i l2 → l1 = l2.
Proof.
  unfold slotQueue. destruct (Hashtable.data t !! i) as [bucket|]; [|by intros -> ->].
  intros (b & Hb & Hq1) (b' & Hb' & Hq2). simplify_eq. by eapply isQueue_functional.
Qed.

Lemma table_slot_Forall h bs t i l :
  TableInvariant h bs t → slotQueue h bs t i l →
  Forall (λ p, slotOf (Hashtable.size t) (addressOf h p) = i) l.
Proof.
  intros Hinv Hl. destruct (table_queues _ _ _ Hinv i) as (l' & Hl' & Hall).
  by rewrite (slotQueue_functional _ _ _ _ _ _ Hl Hl').
Qed.

Lemma table_disjoint h bs t i j li lj p :
  TableInvariant h bs t → slotQueue h bs t i li → slotQueue h bs t j lj →
  i ≠ j → p ∈ li → p ∉ lj.
Proof.
  intros Hinv Hi Hj Hne Hpi Hpj.
  pose proof (table_slot_Forall _ _ _ _ _ Hinv Hi) as Hfi.
  pose proof (table_slot_Forall _ _ _ _ _ Hinv Hj) as Hfj.
  rewrite Forall_forall in Hfi, Hfj. apply Hne. by rewrite <- (Hfi p Hpi), <- (Hfj p Hpj).
Qed.

Lemma slotQueue_dom h bs t i l p : slotQueue h bs t i l → p ∈ l → is_Some (h !! p).
Proof.
  unfold slotQueue. destruct (Hashtable.data t !! i); [|by intros -> ?%elem_of_nil].
  intros (b & _ & _ & Hl & _) Hp. by eapply lseg_dom.
Qed.

Lemma table_bucket_dom h bs t i bucket :
  TableInvariant h bs t → Hashtable.data t !! i = Some bucket → is_Some (bs !! bucket).
Proof.
  intros Hinv Hi. destruct (table_queues _ _ _ Hinv i) as (l & Hl & _).
  unfold slotQueue in Hl. rewrite Hi in Hl. destruct Hl as (b & -> & _). eauto.
Qed.

(** One bucket and the records of its queue change. *)
Lemma TableInvariant_update h bs t i bucket l h' b' l' :
  TableInvariant h bs t →
  Hashtable.data t !! i = Some bucket →
  slotQueue h bs t i l →
  sameRecords h h' → agreeOutside l h h' →
  isQueue h' b' l' →
  Forall (λ p, slotOf (Hashtable.size t) (addressOf h' p) = i) l' →
  TableInvariant h' (<[bucket := b']> bs) t ∧
  slotQueue h' (<[bucket := b']> bs) t i l' ∧
  ∀ j lj, j ≠ i → slotQueue h bs t j lj → slotQueue h' (<[bucket := b']> bs) t j lj.
Proof.
  intros Hinv Hi Hl Hsame Hout Hq' Hall'.
  assert (slotQueue h' (<[bucket := b']> bs) t i l') as Hnew.
  { unfold slotQueue. rewrite Hi. exists b'. by rewrite lookup_insert_eq. }
  assert (∀ j lj, j ≠ i → slotQueue h bs t j lj →
            slotQueue h' (<[bucket := b']> bs) t j lj) as Hother.
  { intros j lj Hne Hj. pose proof Hj as Hj'. unfold slotQueue in Hj |- *.
    destruct (Hashtable.data t !! j) as [bj|] eqn:Hbj; [|done].
    destruct Hj as (b & Hb & Hq). exists b. split.
    - rewrite lookup_insert_ne; [done|]. intros <-.
      apply Hne. by eapply (table_inj _ _ _ Hinv).
    - eapply isQueue_agree; [done| |done]. intros p Hp.
      by eapply (table_disjoint _ _ _ j i lj l). }
  split_and!; [|done|done].
  split; [by destruct Hinv|by destruct Hinv|by destruct Hinv|].
  intros j. destruct (decide (j = i)) as [->|Hne]; [by exists l'|].
  destruct (table_queues _ _ _ Hinv j) as (lj & Hj & Hall). exists lj.
  split; [by apply Hother|]. eapply Forall_impl; [done|].
  intros q Hq. simpl in *. by rewrite (sameRecords_address h h' q Hsame).
Qed.

(** The heaps agree on the links and addresses of all queued records. *)
Lemma TableInvariant_agree h h' bs t :
  TableInvariant h bs t →
  (∀ i l p, slotQueue h bs t i l → p ∈ l →
     nextInQueue <$> h' !! p = nextInQueue <$> h !! p ∧ addressOf h' p = addressOf h p) →
  TableInvariant h' bs t ∧ ∀ i l, slotQueue h bs t i l → slotQueue h' bs t i l.
Proof.
  intros Hinv Hagree.
  assert (∀ i l, slotQueue h bs t i l → slotQueue h' bs t i l) as Hslots.
  { intros i l Hl. pose proof Hl as Hl'. unfold slotQueue in Hl |- *.
    destruct (Hashtable.data t !! i) as [bucket|]; [|done]. destruct Hl as (b & Hb & Hq).
    exists b. split; [done|]. eapply isQueue_links; [|done].
    intros p Hp. by eapply Hagree. }
  split; [|done].
  split; [by destruct Hinv|by destruct Hinv|by destruct Hinv|].
  intros i. destruct (table_queues _ _ _ Hinv i) as (l & Hl & Hall). exists l.
  split; [by apply Hslots|]. rewrite Forall_forall in Hall |- *.
  intros p Hp. destruct (Hagree i l p Hl Hp) as [_ ->]. by apply Hall.
Qed.

Lemma queueAt_slotQueue st t i l :
  hashtable st = Some t →
  slotQueue (heap st) (buckets st) t i l →
  queueAt st i = l.
Proof.
  intros Ht Hl. unfold queueAt, slotQueue in *. rewrite Ht.
  destruct (Hashtable.data t !! _); [|done].
  destruct Hl as (b & -> & Hq). by apply isQueue_order.
Qed.

Lemma queueFor_slotQueue st t a l :
  hashtable st = Some t →
  slotQueue (heap st) (buckets st) t (slotOf (Hashtable.size t) a) l →
  queueFor st a = l.
Proof.
  intros Ht Hl. unfold queueFor, tableSize. rewrite Ht. simpl.
  by apply (queueAt_slotQueue _ t).
Qed.

Lemma parkedOn_slotQueue st t a l :
  hashtable st = Some t →
  slotQueue (heap st) (buckets st) t (slotOf (Hashtable.size t) a) l →
  parkedOn st a = filter (λ p, addressOf (heap st) p = a) l.
Proof. intros Ht Hl. unfold parkedOn. by rewrite (queueFor_slotQueue _ _ _ _ Ht Hl). Qed.
End Table.

(** ** The namespace-level [dequeue] *)

Section Dequeue.
Context `{PtrHash} {A : Type} (functor : ThreadDataPtr → ThreadData → A → DequeueResult * A).

Lemma dequeue_no_table a st acc :
  hashtable st = None → dequeue a functor st acc = Some (false, st, acc).
Proof. intros Ht. unfold dequeue. by rewrite Ht. Qed.

Lemma dequeue_spec a st acc t l :
  hashtable st = Some t →
  TableInvariant (heap st) (buckets st) t →
  slotQueue (heap st) (buckets st) t (slotOf (Hashtable.size t) a) l →
  ∃ h' bs',
    dequeue a functor st acc
    = Some (bool_decide ((select functor (heap st) l acc).1.1 ≠ []),
            withQueues h' bs' st, (select functor (heap st) l acc).2) ∧
    TableInvariant h' bs' t ∧
    slotQueue h' bs' t (slotOf (Hashtable.size t) a) (select functor (heap st) l acc).1.1 ∧
    (∀ j lj, j ≠ slotOf (Hashtable.size t) a →
       slotQueue (heap st) (buckets st) t j lj → slotQueue h' bs' t j lj) ∧
    (∀ p, p ∈ (select functor (heap st) l acc).1.2 → nextInQueue <$> h' !! p = Some None) ∧
    sameRecords (heap st) h' ∧
    agreeOutside l (heap st) h' ∧
    ((select functor (heap st) l acc).1.2 = [] → h' = heap st ∧ bs' = buckets st).
Proof.
  intros Ht Hinv Hl. unfold dequeue. rewrite Ht.
  pose proof (table_size _ _ _ Hinv) as Hsize.
  rewrite (proj2 (Z.eqb_neq _ 0)) by lia.
  fold (slotOf (Hashtable.size t) a). set (i := slotOf (Hashtable.size t) a) in *.
  pose proof Hl as Hl'. unfold slotQueue in Hl'.
  destruct (Hashtable.data t !! i) as [bucket|] eqn:Hbucket.
  - destruct Hl' as (b & Hb & Hq). rewrite Hb. simpl.
    destruct (genericDequeue_spec functor _ _ _ acc Hq)
      as (h' & b' & Hrun & Hq' & Hrem & Hsame & Hout & Hnone).
    rewrite Hrun. simpl. exists h', (<[bucket := b']> (buckets st)).
    assert (Forall (λ p, slotOf (Hashtable.size t) (addressOf h' p) = i)
              (select functor (heap st) l acc).1.1) as Hall'.
    { pose proof (table_slot_Forall _ _ _ _ _ Hinv Hl) as Hall.
      rewrite Forall_forall in Hall |- *. intros p Hp.
      rewrite (sameRecords_address _ _ p Hsame).
      by eapply Hall, select_kept_subset. }
    destruct (TableInvariant_update _ _ _ _ _ _ _ _ _ Hinv Hbucket Hl Hsame Hout Hq' Hall')
      as (Hinv' & Hnew & Hother).
    split_and!; [|done..|].
    + do 3 f_equal. apply bool_decide_ext.
      apply isQueue_head_tail in Hq' as [-> _].
      by destruct ((select functor (heap st) l acc).1.1).
    + intros Hr. destruct (Hnone Hr) as [-> ->]. split; [done|]. by apply insert_id.
  - subst l. simpl. exists (heap st), (buckets st).
    split_and!; [by destruct st|done|done|done| |apply sameRecords_refl
                 |apply agreeOutside_refl|done].
    by intros p ?%elem_of_nil.
Qed.
End Dequeue.

(** ** Signalling *)

Section Signal.
Context `{PtrHash}.

Lemma wake_links h p td q :
  h !! p = Some td →
  nextInQueue <$> <[p := setShouldPark false td]> h !! q = nextInQueue <$> h !! q ∧
  addressOf (<[p := setShouldPark false td]> h) q = addressOf h q.
Proof.
  intros Htd. unfold addressOf. destruct (decide (p = q)) as [<-|Hne].
  - by rewrite lookup_insert_eq, Htd.
  - by rewrite lookup_insert_ne.
Qed.

Lemma signal_spec st p t :
  hashtable st = Some t → TableInvariant (heap st) (buckets st) t →
  is_Some (heap st !! p) →
  ∃ st', signal p st = Some st' ∧
    hashtable st' = Some t ∧ buckets st' = buckets st ∧
    numThreads st' = numThreads st ∧ threadData st' = threadData st ∧
    notified st' = notified st ++ [p] ∧
    TableInvariant (heap st') (buckets st') t ∧
    (∀ i l, slotQueue (heap st) (buckets st) t i l →
            slotQueue (heap st') (buckets st') t i l) ∧
    (∀ q, addressOf (heap st') q = addressOf (heap st) q) ∧
    (∀ q, nextInQueue <$> heap st' !! q = nextInQueue <$> heap st !! q) ∧
    (∀ q, q ≠ p → heap st' !! q = heap st !! q) ∧
    shouldPark <$> heap st' !! p = Some false.
Proof.
  intros Ht Hinv [td Htd]. unfold signal. rewrite Htd. simpl.
  eexists. split; [done|]. simpl.
  destruct (TableInvariant_agree (heap st) (<[p := setShouldPark false td]> (heap st))
              (buckets st) t Hinv) as [Hinv' Hslots].
  { intros i l q _ _. by apply wake_links. }
  split_and!; try done.
  - intros q. by apply wake_links.
  - intros q. by apply wake_links.
  - intros q Hq. by rewrite lookup_insert_ne.
  - by rewrite lookup_insert_eq.
Qed.
End Signal.

(** ** [unparkOne] *)

Section UnparkOne.
Context `{PtrHash}.

Lemma withQueues_same st : withQueues (heap st) (buckets st) st = st.
Proof. by destruct st. Qed.

Lemma parkedOn_no_table st a : hashtable st = None → parkedOn st a = [].
Proof. intros Ht. unfold parkedOn, queueFor, queueAt. by rewrite Ht. Qed.

Lemma unparkOne_none a st :
  WellFormed st → parkedOn st a = [] → ParkingLot.unparkOne a st = Some (false, st).
Proof.
  unfold WellFormed. intros Hwf Hnone. unfold ParkingLot.unparkOne.
  destruct (hashtable st) as [t|] eqn:Ht; [|by rewrite dequeue_no_table].
  destruct (table_queues _ _ _ Hwf (slotOf (Hashtable.size t) a)) as (l & Hl & _).
  rewrite (parkedOn_slotQueue _ _ _ _ Ht Hl) in Hnone.
  destruct (dequeue_spec (ParkingLot.unparkOneFunctor a) a st None t l Ht Hwf Hl)
    as (h' & bs' & Hrun & _ & _ & _ & _ & _ & _ & Hsame).
  apply filter_none in Hnone.
  rewrite (select_one_miss a (heap st) l None) in Hrun, Hsame
    by (done || by intros q Hq; eapply slotQueue_dom).
  rewrite Hrun. simpl. destruct Hsame as [-> ->]; [done|]. by rewrite withQueues_same.
Qed.

Lemma unparkOne_some a st p rest :
  WellFormed st → parkedOn st a = p :: rest →
  ∃ st' l1 l2,
    ParkingLot.unparkOne a st = Some (bool_decide (queueFor st' a ≠ []), st') ∧
    WellFormed st' ∧
    queueFor st a = l1 ++ p :: l2 ∧ queueFor st' a = l1 ++ l2 ∧
    parkedOn st' a = rest ∧
    notified st' = notified st ++ [p] ∧
    shouldPark <$> heap st' !! p = Some false ∧
    nextInQueue <$> heap st' !! p = Some None ∧
    hashtable st' = hashtable st ∧
    (∀ i, i ≠ slotOf (tableSize st) a → queueAt st' i = queueAt st i) ∧
    (∀ q, addressOf (heap st') q = addressOf (heap st) q) ∧
    Forall (λ q, addressOf (heap st) q ≠ a) l1.
Proof.
  unfold WellFormed. intros Hwf Hsome. unfold ParkingLot.unparkOne.
  destruct (hashtable st) as [t|] eqn:Ht; [|by rewrite parkedOn_no_table in Hsome].
  destruct (table_queues _ _ _ Hwf (slotOf (Hashtable.size t) a)) as (l & Hl & _).
  rewrite (parkedOn_slotQueue _ _ _ _ Ht Hl) in Hsome.
  apply filter_first in Hsome as (l1 & l2 & -> & Hl1 & Hp & Hrest).
  destruct (dequeue_spec (ParkingLot.unparkOneFunctor a) a st None t _ Ht Hwf Hl)
    as (h' & bs' & Hrun & Hinv' & Hnew & Hother & Hrem & Hsame & Hout & _).
  rewrite (select_one_hit a (heap st) l1 p l2 None) in Hrun, Hnew, Hrem
    by (done || by intros q Hq; eapply slotQueue_dom).
  simpl in *. rewrite Hrun. simpl.
  pose proof (Hrem p (list_elem_of_here _ _)) as Hnext.
  destruct (signal_spec (withQueues h' bs' st) p t) as
    (st' & Hsig & Ht' & Hbs' & _ & _ & Hnot & Hinv'' & Hslots & Haddr & Hlinks & _ & Hsp);
    [done|done|simpl; by destruct (h' !! p)|].
  rewrite Hsig. simpl. simpl in *.
  assert (queueFor st' a = l1 ++ l2) as Hq'.
  { apply (queueFor_slotQueue _ t); [done|]. by apply Hslots. }
  exists st', l1, l2. rewrite Hq', Ht'. split_and!; try done.
  - by apply (queueFor_slotQueue _ t).
  - unfold parkedOn. rewrite Hq'. rewrite <- Hrest.
    rewrite filter_app. rewrite (proj2 (filter_none _ l1)).
    + apply list_filter_iff. intros q. rewrite Haddr.
      by rewrite (sameRecords_address _ _ q Hsame).
    + eapply Forall_impl; [done|]. intros q Hq. simpl in *.
      rewrite Haddr. by rewrite (sameRecords_address _ _ q Hsame).
  - by rewrite Hlinks.
  - intros i Hne. unfold tableSize in Hne. rewrite Ht in Hne. simpl in Hne.
    destruct (table_queues _ _ _ Hwf i) as (l' & Hl' & _).
    rewrite (queueAt_slotQueue st t i l' Ht Hl').
    apply (queueAt_slotQueue _ t); [done|]. apply Hslots. by apply Hother.
  - intros q. rewrite Haddr. by apply sameRecords_address.
Qed.
End UnparkOne.

(** ** [unparkAll] *)

Section UnparkAll.
Context `{PtrHash}.

Lemma signalAll_spec ps : ∀ st t,
  hashtable st = Some t → TableInvariant (heap st) (buckets st) t →
  (∀ p, p ∈ ps → is_Some (heap st !! p)) →
  ∃ st', signalAll ps st = Some st' ∧
    hashtable st' = Some t ∧ buckets st' = buckets st ∧
    notified st' = notified st ++ ps ∧
    TableInvariant (heap st') (buckets st') t ∧
    (∀ i l, slotQueue (heap st) (buckets st) t i l →
            slotQueue (heap st') (buckets st') t i l) ∧
    (∀ q, addressOf (heap st') q = addressOf (heap st) q) ∧
    (∀ q, nextInQueue <$> heap st' !! q = nextInQueue <$> heap st !! q) ∧
    (∀ q, q ∉ ps → heap st' !! q = heap st !! q) ∧
    (∀ q, q ∈ ps → shouldPark <$> heap st' !! q = Some false).
Proof.
  induction ps as [|p ps IH]; intros st t Ht Hinv Hdom; simpl.
  - exists st. rewrite app_nil_r. split_and!; try done. by intros q ?%elem_of_nil.
  - destruct (signal_spec st p t Ht Hinv) as
      (st1 & -> & Ht1 & Hbs1 & _ & _ & Hnot1 & Hinv1 & Hslots1 & Haddr1 & Hlinks1 & Hframe1 & Hsp1);
      [apply Hdom, list_elem_of_here|]. simpl.
    destruct (IH st1 t Ht1 Hinv1) as
      (st' & -> & Ht' & Hbs' & Hnot' & Hinv' & Hslots' & Haddr' & Hlinks' & Hframe' & Hsp').
    { intros q Hq. destruct (Hdom q (list_elem_of_further _ _ _ Hq)) as [td Htd].
      specialize (Hlinks1 q). rewrite Htd in Hlinks1. by destruct (heap st1 !! q). }
    exists st'. split_and!; try done.
    + congruence.
    + rewrite Hnot', Hnot1. by rewrite <- app_assoc.
    + auto.
    + intros q. by rewrite Haddr', Haddr1.
    + intros q. by rewrite Hlinks', Hlinks1.
    + intros q [Hqp Hq]%not_elem_of_cons. by rewrite Hframe', Hframe1.
    + intros q Hq. destruct (decide (q ∈ ps)) as [Hin|Hnin]; [by apply Hsp'|].
      apply elem_of_cons in Hq as [->|Hq]; [|done]. by rewrite Hframe'.
Qed.

Lemma unparkAll_spec a st :
  WellFormed st →
  ∃ st', ParkingLot.unparkAll a st = Some st' ∧
    WellFormed st' ∧
    hashtable st' = hashtable st ∧
    notified st' = notified st ++ parkedOn st a ∧
    queueFor st' a = filter (λ p, addressOf (heap st) p ≠ a) (queueFor st a) ∧
    (∀ p, p ∈ parkedOn st a →
       shouldPark <$> heap st' !! p = Some false ∧
       nextInQueue <$> heap st' !! p = Some None) ∧
    (∀ i, i ≠ slotOf (tableSize st) a → queueAt st' i = queueAt st i) ∧
    (∀ q, addressOf (heap st') q = addressOf (heap st) q) ∧
    (parkedOn st a = [] → st' = st).
Proof.
  unfold WellFormed. intros Hwf. unfold ParkingLot.unparkAll.
  destruct (hashtable st) as [t|] eqn:Ht.
  - destruct (table_queues _ _ _ Hwf (slotOf (Hashtable.size t) a)) as (l & Hl & _).
    rewrite (parkedOn_slotQueue _ _ _ _ Ht Hl), (queueFor_slotQueue _ _ _ _ Ht Hl).
    destruct (dequeue_spec (ParkingLot.unparkAllFunctor a) a st [] t _ Ht Hwf Hl)
      as (h' & bs' & Hrun & Hinv' & Hnew & Hother & Hrem & Hsame & Hout & Hnone).
    rewrite (select_all a (heap st) l []) in Hrun, Hnew, Hrem, Hnone
      by (by intros q Hq; eapply slotQueue_dom).
    simpl in *. rewrite Hrun. simpl.
    set (woken := filter (λ p, addressOf (heap st) p = a) l) in *.
    destruct (signalAll_spec woken (withQueues h' bs' st) t) as
      (st' & Hsig & Ht' & Hbs' & Hnot & Hinv'' & Hslots & Haddr & Hlinks & Hframe & Hsp);
      [done|done| |].
    { intros p Hp. specialize (Hrem p Hp). simpl. by destruct (h' !! p). }
    rewrite Hsig. simpl in *. exists st'. rewrite Ht'. split_and!; try done.
    + apply (queueFor_slotQueue _ t); [done|]. by apply Hslots.
    + intros p Hp. split; [by apply Hsp|]. rewrite Hlinks. by apply Hrem.
    + intros i Hne. unfold tableSize in Hne. rewrite Ht in Hne. simpl in Hne.
      destruct (table_queues _ _ _ Hwf i) as (l' & Hl' & _).
      rewrite (queueAt_slotQueue st t i l' Ht Hl').
      apply (queueAt_slotQueue _ t); [done|]. apply Hslots. by apply Hother.
    + intros q. rewrite Haddr. by apply sameRecords_address.
    + intros Hw. rewrite Hw in Hsig. destruct (Hnone Hw) as [-> ->].
      rewrite withQueues_same in Hsig. simpl in Hsig. congruence.
  - rewrite dequeue_no_table by done. simpl. exists st.
    rewrite parkedOn_no_table by done. unfold queueFor, queueAt. rewrite Ht, app_nil_r.
    split_and!; try done. by intros p ?%elem_of_nil.
Qed.
End UnparkAll.

(** ** Rehashing: materializing and draining the old buckets *)

Section Rehash.
Context `{PtrHash}.

(** An empty bucket that is not in the table goes into an empty slot. *)
Lemma TableInvariant_store h bs bs' t i bucket b :
  TableInvariant h bs t →
  Hashtable.data t !! i = None → 0 ≤ i < Hashtable.size t →
  (∀ j, Hashtable.data t !! j ≠ Some bucket) →
  (∀ j bj, Hashtable.data t !! j = Some bj → bs' !! bj = bs !! bj) →
  bs' !! bucket = Some b → queueHead b = None → queueTail b = None →
  TableInvariant h bs' (Hashtable.store i bucket t) ∧
  ∀ j l, slotQueue h bs t j l → slotQueue h bs' (Hashtable.store i bucket t) j l.
Proof.
  intros Hinv Hi Hrange Hfresh Hbs Hb Hhead Htail.
  assert (∀ j l, slotQueue h bs t j l →
                 slotQueue h bs' (Hashtable.store i bucket t) j l) as Hslots.
  { intros j l. unfold slotQueue. simpl. destruct (decide (i = j)) as [<-|Hne].
    - rewrite Hi, lookup_insert_eq. intros ->. exists b. split; [done|].
      by apply isQueue_nil.
    - rewrite lookup_insert_ne by done.
      destruct (Hashtable.data t !! j) as [bj|] eqn:Hbj; [|done].
      intros (b0 & Hb0 & Hq). exists b0. split; [|done]. by rewrite (Hbs j bj). }
  split; [|done]. split; simpl.
  - by destruct Hinv.
  - intros j bj. destruct (decide (i = j)) as [<-|Hne]; [done|].
    rewrite lookup_insert_ne by done. by apply (table_range _ _ _ Hinv).
  - intros j k bj. destruct (decide (i = j)) as [<-|Hj], (decide (i = k)) as [<-|Hk];
      rewrite ?lookup_insert_eq, ?lookup_insert_ne by done; try done.
    + intros [= <-] Hk'. by destruct (Hfresh k).
    + intros Hj' [= <-]. by destruct (Hfresh j).
    + by apply (table_inj _ _ _ Hinv).
  - intros j. destruct (table_queues _ _ _ Hinv j) as (l & Hl & Hall).
    exists l. split; [by apply Hslots|done].
Qed.

Lemma fresh_bucket (bs : gmap BucketPtr Bucket) : bs !! fresh (dom bs) = None.
Proof. apply not_elem_of_dom, is_fresh. Qed.

Lemma materializeBucket_spec h bs t i :
  TableInvariant h bs t → 0 ≤ i < Hashtable.size t →
  ∃ bucket bs' t', materializeBucket i bs t = (bucket, bs', t') ∧
    TableInvariant h bs' t' ∧
    Hashtable.size t' = Hashtable.size t ∧
    Hashtable.data t' !! i = Some bucket ∧
    (∀ j, j ≠ i → Hashtable.data t' !! j = Hashtable.data t !! j) ∧
    (∀ j l, slotQueue h bs t j l → slotQueue h bs' t' j l) ∧
    (∀ bp b, bs !! bp = Some b → bs' !! bp = Some b).
Proof.
  intros Hinv Hi. unfold materializeBucket, newBucket.
  destruct (Hashtable.data t !! i) as [bucket|] eqn:Hbucket.
  - exists bucket, bs, t. by split_and!.
  - set (bucket := fresh (dom bs)). eexists _, _, _. split; [done|].
    pose proof (fresh_bucket bs) as Hfresh. fold bucket in Hfresh.
    destruct (TableInvariant_store h bs (<[bucket := emptyBucket]> bs) t i bucket emptyBucket)
      as [Hinv' Hslots]; try done.
    + intros j Hj. destruct (table_bucket_dom _ _ _ _ _ Hinv Hj) as [b Hb]. congruence.
    + intros j bj Hj. rewrite lookup_insert_ne; [done|]. intros <-.
      destruct (table_bucket_dom _ _ _ _ _ Hinv Hj) as [b Hb]. congruence.
    + by rewrite lookup_insert_eq.
    + split_and!; try done.
      * simpl. by rewrite lookup_insert_eq.
      * intros j Hj. simpl. by rewrite lookup_insert_ne.
      * intros bp b Hb. rewrite lookup_insert_ne; [done|]. intros <-. congruence.
Qed.

Lemma materializeAll_spec h n : ∀ bs t found,
  TableInvariant h bs t → Z.of_nat n ≤ Hashtable.size t →
  ∃ added bs' t', materializeAll n bs t found = (found ++ added, bs', t') ∧
    TableInvariant h bs' t' ∧
    Hashtable.size t' = Hashtable.size t ∧
    (∀ j, Z.of_nat n ≤ j → Hashtable.data t' !! j = Hashtable.data t !! j) ∧
    (∀ j l, slotQueue h bs t j l → slotQueue h bs' t' j l) ∧
    (∀ bp b, bs !! bp = Some b → bs' !! bp = Some b) ∧
    (∀ bp, bp ∈ added ↔ ∃ j, 0 ≤ j < Z.of_nat n ∧ Hashtable.data t' !! j = Some bp) ∧
    NoDup added.
Proof.
  induction n as [|n IH]; intros bs t found Hinv Hn.
  - exists [], bs, t. simpl. rewrite app_nil_r. split_and!; try done; [|constructor].
    intros bp. split; [by intros ?%elem_of_nil|]. intros (j & ? & _). lia.
  - cbn [materializeAll].
    destruct (materializeBucket_spec h bs t (Z.of_nat n) Hinv)
      as (bucket & bs1 & t1 & -> & Hinv1 & Hsize1 & Hat1 & Hother1 & Hslots1 & Hbs1); [lia|].
    destruct (IH bs1 t1 (found ++ [bucket]) Hinv1)
      as (added & bs' & t' & -> & Hinv' & Hsize' & Hhigh' & Hslots' & Hbs' & Hadded & Hnd);
      [lia|].
    exists (bucket :: added), bs', t'. rewrite <- app_assoc. simpl.
    assert (Hashtable.data t' !! Z.of_nat n = Some bucket) as Hbucket
      by (rewrite Hhigh' by lia; done).
    split_and!; try done.
    + congruence.
    + intros j Hj. rewrite Hhigh' by lia. apply Hother1. lia.
    + auto.
    + auto.
    + intros bp. rewrite elem_of_cons, Hadded. split.
      * intros [->|(j & Hj & Hbp)]; [exists (Z.of_nat n); split; [lia|done]|].
        exists j. split; [lia|done].
      * intros (j & Hj & Hbp). destruct (decide (j = Z.of_nat n)) as [->|Hne].
        -- left. congruence.
        -- right. exists j. split; [lia|done].
    + apply NoDup_cons. split; [|done]. rewrite Hadded. intros (j & Hj & Hbp).
      pose proof (table_inj _ _ _ Hinv' _ _ _ Hbp Hbucket). lia.
Qed.
End Rehash.

Section LockHashtable.
Context `{PtrHash}.

Lemma TableInvariant_create h bs n :
  0 < n → TableInvariant h bs (Hashtable.create n).
Proof.
  intros Hn. split; simpl; [done|done|done|].
  intros i. exists []. split; [|constructor]. unfold slotQueue. simpl.
  by rewrite lookup_empty.
Qed.

Lemma slotQueue_create h bs n i l : slotQueue h bs (Hashtable.create n) i l ↔ l = [].
Proof. unfold slotQueue. simpl. by rewrite lookup_empty. Qed.

(** The table that [lockHashtable] starts from. *)
Lemma currentHashtable_invariant st :
  WellFormed st →
  let t := default (Hashtable.create maxLoadFactor) (hashtable st) in
  TableInvariant (heap st) (buckets st) t ∧
  ∀ i l, slotQueue (heap st) (buckets st) t i l → queueAt st i = l.
Proof.
  unfold WellFormed. intros Hwf. destruct (hashtable st) as [t|] eqn:Ht; simpl.
  - split; [done|]. intros i l Hl. by apply (queueAt_slotQueue _ t).
  - split; [by apply TableInvariant_create|]. intros i l ->%slotQueue_create.
    unfold queueAt. by rewrite Ht.
Qed.

Lemma lockHashtable_spec st :
  WellFormed st →
  ∃ sorted bs' t', lockHashtable st = (sorted, withTable bs' t' st) ∧
    TableInvariant (heap st) bs' t' ∧
    Hashtable.size t'
      = Hashtable.size (default (Hashtable.create maxLoadFactor) (hashtable st)) ∧
    (∀ bp, bp ∈ sorted ↔ ∃ j, Hashtable.data t' !! j = Some bp) ∧
    NoDup sorted ∧
    (∀ i l, slotQueue (heap st) bs' t' i l → queueAt st i = l).
Proof.
  intros Hwf. destruct (currentHashtable_invariant st Hwf) as [Hinv Hqueues].
  unfold lockHashtable.
  assert (match hashtable st with
          | Some t => t
          | None => Hashtable.create maxLoadFactor
          end = default (Hashtable.create maxLoadFactor) (hashtable st)) as ->
    by (by destruct (hashtable st)).
  set (t := default (Hashtable.create maxLoadFactor) (hashtable st)) in *.
  pose proof (table_size _ _ _ Hinv) as Hsize.
  destruct (materializeAll_spec (heap st) (Z.to_nat (Hashtable.size t)) (buckets st) t [] Hinv)
    as (added & bs' & t' & -> & Hinv' & Hsize' & Hhigh & Hslots & Hbs & Hadded & Hnd); [lia|].
  simpl. exists (merge_sort Pos.le added), bs', t'.
  pose proof (merge_sort_Permutation Pos.le added) as Hperm.
  split_and!; try done.
  - intros bp. rewrite Hperm, Hadded. split; [intros (j & _ & Hj); eauto|].
    intros (j & Hj). exists j. split; [|done].
    pose proof (table_range _ _ _ Hinv' _ _ Hj) as Hr. rewrite Hsize' in Hr. lia.
  - by rewrite Hperm.
  - intros i l Hl. destruct (table_queues _ _ _ Hinv i) as (l0 & Hl0 & _).
    rewrite (Hqueues i l0 Hl0). eapply slotQueue_functional; [|done]. by apply Hslots.
Qed.
End LockHashtable.

(** ** Rehashing: draining *)

Lemma Bucket_dequeue_nil h b :
  isQueue h b [] → Bucket.dequeue h b = Some (h, b, None).
Proof.
  intros Hq. unfold Bucket.dequeue.
  destruct (genericDequeue_spec Bucket.dequeueFunctor h b [] None Hq)
    as (h' & b' & -> & _ & _ & _ & _ & Hsame).
  simpl in *. by destruct Hsame as [-> ->].
Qed.

Lemma Bucket_dequeue_cons h b p l :
  isQueue h b (p :: l) →
  ∃ h' b', Bucket.dequeue h b = Some (h', b', Some p) ∧
    isQueue h' b' l ∧ nextInQueue <$> h' !! p = Some None ∧
    sameRecords h h' ∧ agreeOutside (p :: l) h h'.
Proof.
  intros Hq. unfold Bucket.dequeue.
  destruct (genericDequeue_spec Bucket.dequeueFunctor h b _ None Hq)
    as (h' & b' & Hrun & Hq' & Hrem & Hsame & Hout & _).
  assert (is_Some (h !! p)) as Hp.
  { destruct Hq as (_ & Hl & _). eapply lseg_dom; [done|]. apply list_elem_of_here. }
  rewrite (select_dequeue h p l None Hp) in Hrun, Hq', Hrem. simpl in *.
  exists h', b'. split_and!; try done. apply Hrem, list_elem_of_here.
Qed.

Lemma drainBucket_spec l : ∀ h b threadDatas fuel,
  isQueue h b l → (length l < fuel)%nat →
  ∃ h' b', drainBucket fuel h b threadDatas = Some (h', b', threadDatas ++ l) ∧
    queueHead b' = None ∧ queueTail b' = None ∧
    (∀ p, p ∈ l → nextInQueue <$> h' !! p = Some None) ∧
    sameRecords h h' ∧ agreeOutside l h h'.
Proof.
  induction l as [|p l IH]; intros h b threadDatas fuel Hq Hfuel;
    (destruct fuel as [|fuel]; [simpl in Hfuel; lia|]); cbn [drainBucket].
  - rewrite (Bucket_dequeue_nil _ _ Hq). simpl. exists h, b. rewrite app_nil_r.
    apply isQueue_nil in Hq as [? ?].
    split_and!; try done; try apply sameRecords_refl; try apply agreeOutside_refl.
    by intros p ?%elem_of_nil.
  - destruct (Bucket_dequeue_cons _ _ _ _ Hq) as (h1 & b1 & -> & Hq1 & Hnext & Hsame1 & Hout1).
    simpl. destruct (IH h1 b1 (threadDatas ++ [p]) fuel Hq1)
      as (h' & b' & -> & Hhead & Htail & Hnexts & Hsame' & Hout'); [simpl in Hfuel; lia|].
    exists h', b'. rewrite <- app_assoc. split_and!; try done.
    + intros q [->|Hq']%elem_of_cons; [|by apply Hnexts].
      rewrite Hout'; [done|]. destruct Hq as (Hnd & _). by apply NoDup_cons in Hnd as [? _].
    + by eapply sameRecords_trans.
    + eapply agreeOutside_trans; [done|]. eapply agreeOutside_mono; [|done].
      intros q Hq'. by apply list_elem_of_further.
Qed.

Lemma drainBuckets_spec (queue : BucketPtr → list ThreadDataPtr) reusableBuckets :
  ∀ h bs threadDatas,
  NoDup reusableBuckets →
  (∀ bucket, bucket ∈ reusableBuckets → ∃ b, bs !! bucket = Some b ∧ isQueue h b (queue bucket)) →
  (∀ b1 b2 p, b1 ∈ reusableBuckets → b2 ∈ reusableBuckets → b1 ≠ b2 →
              p ∈ queue b1 → p ∉ queue b2) →
  ∃ h' bs',
    drainBuckets reusableBuckets h bs threadDatas
    = Some (h', bs', threadDatas ++ mjoin (queue <$> reusableBuckets)) ∧
    (∀ bucket, bucket ∈ reusableBuckets →
       ∃ b, bs' !! bucket = Some b ∧ queueHead b = None ∧ queueTail b = None) ∧
    (∀ bucket, bucket ∉ reusableBuckets → bs' !! bucket = bs !! bucket) ∧
    (∀ p, p ∈ mjoin (queue <$> reusableBuckets) → nextInQueue <$> h' !! p = Some None) ∧
    sameRecords h h' ∧ agreeOutside (mjoin (queue <$> reusableBuckets)) h h'.
Proof.
  induction reusableBuckets as [|bucket rest IH]; intros h bs threadDatas Hnd Hqueues Hdisj.
  - simpl. exists h, bs. rewrite app_nil_r.
    split_and!; try done; try (by intros p ?%elem_of_nil);
      try apply sameRecords_refl; try apply agreeOutside_refl.
  - apply NoDup_cons in Hnd as [Hbucket Hnd]. cbn [drainBuckets].
    destruct (Hqueues bucket) as (b & Hb & Hq); [apply list_elem_of_here|].
    rewrite Hb. cbn [mbind option_bind].
    destruct (drainBucket_spec _ h b threadDatas (S (size h)) Hq)
      as (h1 & b1 & -> & Hhead1 & Htail1 & Hnexts1 & Hsame1 & Hout1).
    { pose proof (isQueue_length _ _ _ Hq). lia. }
    cbn [mbind option_bind].
    destruct (IH h1 (<[bucket := b1]> bs) (threadDatas ++ queue bucket) Hnd)
      as (h' & bs' & -> & Hempty & Hframe & Hnexts & Hsame' & Hout').
    { intros bucket' Hin. destruct (Hqueues bucket') as (b' & Hb' & Hq');
        [by apply list_elem_of_further|].
      exists b'. split; [rewrite lookup_insert_ne; [done|by intros ->]|].
      eapply isQueue_agree; [done| |done]. intros p Hp Hp'.
      apply (Hdisj bucket' bucket p); [by apply list_elem_of_further|apply list_elem_of_here
                                      |by intros ->|done|done]. }
    { intros b2 b3 p Hb2 Hb3. apply Hdisj; by apply list_elem_of_further. }
    exists h', bs'. rewrite <- app_assoc. simpl.
    assert (∀ p, p ∈ queue bucket → p ∉ mjoin (queue <$> rest)) as Hsep.
    { intros p Hp (l' & Hpl' & Hl')%list_elem_of_join.
      apply list_elem_of_fmap in Hl' as (bucket' & -> & Hin').
      apply (Hdisj bucket bucket' p); [apply list_elem_of_here|by apply list_elem_of_further
                                      |by intros ->|done|done]. }
    split_and!; try done.
    + intros bucket' [->|Hin]%elem_of_cons; [|by apply Hempty].
      exists b1. rewrite Hframe by done. by rewrite lookup_insert_eq.
    + intros bucket' [Hne Hnin]%not_elem_of_cons. rewrite Hframe by done.
      by rewrite lookup_insert_ne.
    + intros p [Hp|Hp]%elem_of_app; [|by apply Hnexts].
      rewrite Hout' by (by apply Hsep). by apply Hnexts1.
    + by eapply sameRecords_trans.
    + eapply agreeOutside_trans; (eapply agreeOutside_mono; [|done]);
        intros p Hp; apply elem_of_app; [by left|by right].
Qed.

(** ** Rehashing: filling the new table *)

Lemma takeLast_None {T} (v : list T) : takeLast v = None ↔ v = [].
Proof.
  unfold takeLast. destruct (last v) as [x|] eqn:Hlast.
  - split; [done|]. intros ->. done.
  - by rewrite last_None in Hlast.
Qed.

Lemma takeLast_Some {T} (v v' : list T) x : takeLast v = Some (x, v') ↔ v = v' ++ [x].
Proof.
  unfold takeLast. split.
  - destruct (last v) as [y|] eqn:Hlast; [|done]. intros [= -> <-].
    apply last_Some in Hlast as [l' ->]. f_equal.
    rewrite length_app. simpl. rewrite Nat.add_sub. by rewrite take_app_length.
  - intros ->. rewrite last_snoc. do 2 f_equal.
    rewrite length_app. simpl. rewrite Nat.add_sub. by rewrite take_app_length.
Qed.

Section Refill.
Context `{PtrHash}.

Lemma bucketAt_spec h bs t reusable i :
  TableInvariant h bs t → reusableInvariant bs t reusable → 0 ≤ i < Hashtable.size t →
  ∃ bucket bs1 t1 reusable1,
    bucketAt i bs t reusable = (bucket, bs1, t1, reusable1) ∧
    TableInvariant h bs1 t1 ∧
    Hashtable.size t1 = Hashtable.size t ∧
    Hashtable.data t1 !! i = Some bucket ∧
    (∀ j l, slotQueue h bs t j l → slotQueue h bs1 t1 j l) ∧
    reusableInvariant bs1 t1 reusable1 ∧
    bucket ∉ reusable1.
Proof.
  intros Hinv [Hnd Hreusable] Hi. unfold bucketAt.
  destruct (Hashtable.data t !! i) as [bucket|] eqn:Hbucket.
  { exists bucket, bs, t, reusable. split_and!; try done.
    intros Hin. by destruct (proj2 (Hreusable bucket Hin) i). }
  destruct (takeLast reusable) as [[bucket reusable']|] eqn:Hlast.
  - apply takeLast_Some in Hlast as ->.
    apply NoDup_app in Hnd as (Hnd' & Hsep & _).
    assert (bucket ∈ reusable' ++ [bucket]) as Hlast
      by (apply elem_of_app; right; apply list_elem_of_here).
    destruct (Hreusable bucket Hlast) as [(b & Hb & Hhead & Htail) Hout].
    destruct (TableInvariant_store h bs bs t i bucket b) as [Hinv' Hslots]; try done.
    exists bucket, bs, (Hashtable.store i bucket t), reusable'.
    split_and!; try done.
    + simpl. by rewrite lookup_insert_eq.
    + split; [done|]. intros bucket' Hin.
      destruct (Hreusable bucket') as [Hb' Hout']; [apply elem_of_app; by left|].
      split; [done|]. intros j. simpl. destruct (decide (i = j)) as [<-|Hne].
      * rewrite lookup_insert_eq. intros [= ->]. apply (Hsep bucket' Hin).
        apply list_elem_of_here.
      * rewrite lookup_insert_ne by done. apply Hout'.
    + intros Hin. apply (Hsep bucket Hin). apply list_elem_of_here.
  - apply takeLast_None in Hlast as ->. unfold newBucket.
    set (bucket := fresh (dom bs)).
    pose proof (fresh_bucket bs) as Hfresh. fold bucket in Hfresh.
    destruct (TableInvariant_store h bs (<[bucket := emptyBucket]> bs) t i bucket emptyBucket)
      as [Hinv' Hslots]; try done.
    + intros j Hj. destruct (table_bucket_dom _ _ _ _ _ Hinv Hj) as [b Hb]. congruence.
    + intros j bj Hj. rewrite lookup_insert_ne; [done|]. intros <-.
      destruct (table_bucket_dom _ _ _ _ _ Hinv Hj) as [b Hb]. congruence.
    + by rewrite lookup_insert_eq.
    + exists bucket, (<[bucket := emptyBucket]> bs), (Hashtable.store i bucket t), [].
      split_and!; try done.
      * simpl. by rewrite lookup_insert_eq.
      * split; [constructor|]. by intros b ?%elem_of_nil.
      * by intros ?%elem_of_nil.
Qed.
End Refill.

Section RehashLoop.
Context `{PtrHash}.

Lemma rehash_spec (addr : ThreadDataPtr → Z) threadDatas :
  ∀ processed h bs t reusable,
  TableInvariant h bs t →
  (∀ p, addressOf h p = addr p) →
  (∀ i l, slotQueue h bs t i l →
     l = filter (λ p, slotOf (Hashtable.size t) (addr p) = i) processed) →
  reusableInvariant bs t reusable →
  NoDup (processed ++ threadDatas) →
  (∀ p, p ∈ threadDatas → ∃ td, h !! p = Some td ∧ nextInQueue td = None) →
  ∃ h' bs' t' reusable',
    rehash threadDatas h bs t reusable = Some (h', bs', t', reusable') ∧
    TableInvariant h' bs' t' ∧
    Hashtable.size t' = Hashtable.size t ∧
    (∀ i l, slotQueue h' bs' t' i l →
       l = filter (λ p, slotOf (Hashtable.size t) (addr p) = i) (processed ++ threadDatas)) ∧
    reusableInvariant bs' t' reusable' ∧
    sameRecords h h'.
Proof.
  induction threadDatas as [|threadData rest IH];
    intros processed h bs t reusable Hinv Haddr Horder Hreusable Hnd Hfree.
  - exists h, bs, t, reusable. rewrite app_nil_r. by split_and!.
  - cbn [rehash].
    destruct (Hfree threadData) as (td & Htd & Hnext); [apply list_elem_of_here|].
    rewrite Htd. cbn [mbind option_bind].
    pose proof (table_size _ _ _ Hinv) as Hsize.
    rewrite (proj2 (Z.eqb_neq _ 0)) by lia.
    fold (slotOf (Hashtable.size t) (address td)).
    set (i := slotOf (Hashtable.size t) (address td)).
    assert (0 ≤ i < Hashtable.size t) as Hi by (apply Z.mod_pos_bound; lia).
    destruct (bucketAt_spec h bs t reusable i Hinv Hreusable Hi)
      as (bucket & bs1 & t1 & reusable1 & -> & Hinv1 & Hsize1 & Hbucket & Hslots1
          & Hreusable1 & Hnotin).
    destruct (table_queues _ _ _ Hinv i) as (l & Hl & Hall).
    pose proof (Hslots1 i l Hl) as Hl1. pose proof Hl1 as Hl1'.
    unfold slotQueue in Hl1'. rewrite Hbucket in Hl1'. destruct Hl1' as (b & Hb & Hq).
    rewrite Hb. cbn [mbind option_bind].
    assert (threadData ∉ processed) as Hnew.
    { apply NoDup_app in Hnd as (_ & Hsep & _). intros Hin.
      apply (Hsep _ Hin), list_elem_of_here. }
    assert (l = filter (λ p, slotOf (Hashtable.size t) (addr p) = i) processed) as Hlist
      by (by apply Horder).
    assert (threadData ∉ l) as Hnotl.
    { rewrite Hlist. intros [_ Hin]%list_elem_of_filter. done. }
    destruct (Bucket_enqueue_spec h b l threadData td Hq Htd Hnext Hnotl)
      as (h' & b' & -> & Hq' & Hsame & Hout).
    cbn [mbind option_bind].
    assert (agreeOutside l h h') as Hout' by (by apply agreeOutside_last).
    assert (addr threadData = address td) as Haddrtd
      by (rewrite <- Haddr; by apply addressOf_lookup).
    destruct (TableInvariant_update h bs1 t1 i bucket l h' b' (l ++ [threadData]))
      as (Hinv' & Hnew' & Hother'); try done.
    { rewrite Hsize1. apply Forall_app. split.
      - eapply Forall_impl; [done|]. intros p Hp. simpl in *.
        by rewrite (sameRecords_address _ _ p Hsame).
      - apply Forall_singleton. rewrite (sameRecords_address _ _ _ Hsame).
        by rewrite Haddr, Haddrtd. }
    destruct (IH (processed ++ [threadData]) h' (<[bucket := b']> bs1) t1 reusable1)
      as (h'' & bs'' & t'' & reusable'' & -> & Hinv'' & Hsize'' & Horder'' & Hreusable''
          & Hsame''); try done.
    + intros p. rewrite <- Haddr. by apply sameRecords_address.
    + intros j lj Hlj. rewrite Hsize1, filter_app, filter_cons, filter_nil.
      destruct (decide (j = i)) as [->|Hne].
      * rewrite (slotQueue_functional _ _ _ _ _ _ Hlj Hnew'), Hlist.
        rewrite decide_True; [done|]. by rewrite Haddrtd.
      * rewrite decide_False by (by rewrite Haddrtd; intros <-). rewrite app_nil_r.
        destruct (table_queues _ _ _ Hinv j) as (lj0 & Hlj0 & _).
        rewrite <- (Horder j lj0 Hlj0).
        eapply slotQueue_functional; [done|]. by apply Hother', Hslots1.
    + destruct Hreusable1 as [Hnd1 Hreusable1]. split; [done|].
      intros bucket' Hin. destruct (Hreusable1 bucket' Hin) as [Hb' Hout1].
      split; [|done]. rewrite lookup_insert_ne; [done|]. by intros ->.
    + by rewrite <- app_assoc.
    + intros p Hp. destruct (Hfree p) as (tdp & Htdp & Hnextp);
        [by apply list_elem_of_further|].
      exists tdp. split; [|done]. rewrite Hout'; [done|].
      rewrite Hlist. intros [_ Hin]%list_elem_of_filter.
      apply NoDup_app in Hnd as (_ & Hsep & _).
      apply (Hsep _ Hin). by apply list_elem_of_further.
    + exists h'', bs'', t'', reusable''. rewrite <- app_assoc in Horder''.
      rewrite Hsize1 in Horder''. split_and!; try done.
      * congruence.
      * by eapply sameRecords_trans.
Qed.
End RehashLoop.

Lemma join_fmap_cons {K T} (q : K → list T) k ks :
  mjoin (q <$> k :: ks) = q k ++ mjoin (q <$> ks).
Proof. done. Qed.

Lemma NoDup_join {K T} (q : K → list T) (ks : list K) :
  NoDup ks → (∀ k, k ∈ ks → NoDup (q k)) →
  (∀ k1 k2 x, k1 ∈ ks → k2 ∈ ks → k1 ≠ k2 → x ∈ q k1 → x ∉ q k2) →
  NoDup (mjoin (q <$> ks)).
Proof.
  induction ks as [|k ks IH]; intros Hnd Hq Hdisj; [constructor|].
  rewrite join_fmap_cons.
  apply NoDup_cons in Hnd as [Hk Hnd]. apply NoDup_app. split_and!.
  - apply Hq, list_elem_of_here.
  - intros x Hx (l & Hxl & Hl)%list_elem_of_join.
    apply list_elem_of_fmap in Hl as (k' & -> & Hk').
    apply (Hdisj k k' x); [apply list_elem_of_here|by apply list_elem_of_further
                          |by intros ->|done|done].
  - apply IH; [done| |].
    + intros k' Hk'. by apply Hq, list_elem_of_further.
    + intros k1 k2 x Hk1 Hk2. apply Hdisj; by apply list_elem_of_further.
Qed.

Lemma filter_join_single {K T} (P : T → Prop) `{!∀ x, Decision (P x)}
    (q : K → list T) (ks : list K) k0 :
  NoDup ks → k0 ∈ ks → (∀ k, k ∈ ks → k ≠ k0 → filter P (q k) = []) →
  filter P (mjoin (q <$> ks)) = filter P (q k0).
Proof.
  induction ks as [|k ks IH]; intros Hnd Hk0 Hothers; [by apply elem_of_nil in Hk0|].
  apply NoDup_cons in Hnd as [Hk Hnd]. rewrite join_fmap_cons, filter_app.
  assert (∀ k', k' ∈ ks → k' ≠ k0 → filter P (q k') = []) as Hrest
    by (intros k' Hk'; by apply Hothers, list_elem_of_further).
  apply elem_of_cons in Hk0 as [->|Hk0].
  - assert (filter P (mjoin (q <$> ks)) = []) as ->; [|by rewrite app_nil_r].
    clear IH Hothers. induction ks as [|k' ks IH]; [done|].
    rewrite join_fmap_cons, filter_app.
    apply not_elem_of_cons in Hk as [Hne Hk]. apply NoDup_cons in Hnd as [_ Hnd].
    rewrite (Hrest k') by (done || apply list_elem_of_here). simpl. apply IH; try done.
    intros k'' Hk''. by apply Hrest, list_elem_of_further.
  - rewrite (Hothers k) by (apply list_elem_of_here || by intros ->). simpl. by apply IH.
Qed.

Section PlaceLeftovers.
Context `{PtrHash}.

Lemma placeLeftovers_spec h bs n : ∀ i t reusable,
  TableInvariant h bs t → reusableInvariant bs t reusable →
  0 ≤ i → i + Z.of_nat n ≤ Hashtable.size t →
  ∃ t' reusable', placeLeftovers n i t reusable = (t', reusable') ∧
    TableInvariant h bs t' ∧
    Hashtable.size t' = Hashtable.size t ∧
    (∀ j l, slotQueue h bs t j l → slotQueue h bs t' j l).
Proof.
  induction n as [|n IH]; intros i t reusable Hinv Hreusable Hi Hn; cbn [placeLeftovers].
  - by exists t, reusable.
  - destruct (takeLast reusable) as [[bucket reusable']|] eqn:Hlast; [|by exists t, reusable].
    destruct (Hashtable.data t !! i) as [present|] eqn:Hslot.
    + destruct (IH (i + 1) t reusable Hinv Hreusable) as (t' & r' & -> & ?); [lia..|].
      by exists t', r'.
    + apply takeLast_Some in Hlast as ->. destruct Hreusable as [Hnd Hreusable].
      apply NoDup_app in Hnd as (Hnd' & Hsep & _).
      assert (bucket ∈ reusable' ++ [bucket]) as Hlast
        by (apply elem_of_app; right; apply list_elem_of_here).
      destruct (Hreusable bucket Hlast) as [(b & Hb & Hhead & Htail) Hout].
      destruct (TableInvariant_store h bs bs t i bucket b) as [Hinv' Hslots];
        try done; [lia|].
      destruct (IH (i + 1) (Hashtable.store i bucket t) reusable' Hinv')
        as (t' & r' & -> & Hinv'' & Hsize'' & Hslots''); [|lia|simpl; lia|].
      * split; [done|]. intros bucket' Hin.
        destruct (Hreusable bucket') as [Hb' Hout']; [apply elem_of_app; by left|].
        split; [done|]. intros j. simpl. destruct (decide (i = j)) as [<-|Hne].
        -- rewrite lookup_insert_eq. intros [= ->]. apply (Hsep bucket' Hin).
           apply list_elem_of_here.
        -- rewrite lookup_insert_ne by done. apply Hout'.
      * exists t', r'. split_and!; try done. auto.
Qed.
End PlaceLeftovers.

(** ** [ensureHashtableSize] *)

Section EnsureHashtableSize.
Context `{PtrHash}.

Lemma queueAt_no_table st i : hashtable st = None → queueAt st i = [].
Proof. intros Ht. unfold queueAt. by rewrite Ht. Qed.

(** The state after [lockHashtable] shows the same queues. *)
Lemma lockHashtable_waiters st bs' t' :
  WellFormed st →
  TableInvariant (heap st) bs' t' →
  Hashtable.size t'
    = Hashtable.size (default (Hashtable.create maxLoadFactor) (hashtable st)) →
  (∀ i l, slotQueue (heap st) bs' t' i l → queueAt st i = l) →
  sameWaiters st (withTable bs' t' st).
Proof.
  intros Hwf Hinv Hsize Hqueues.
  assert (∀ i, queueAt (withTable bs' t' st) i = queueAt st i) as Hat.
  { intros i. destruct (table_queues _ _ _ Hinv i) as (l & Hl & _).
    rewrite (Hqueues i l Hl). by apply (queueAt_slotQueue _ t'). }
  split; try done.
  - intros a. unfold parkedOn, queueFor. simpl. rewrite Hat.
    destruct (hashtable st) as [t|] eqn:Ht.
    + unfold tableSize. simpl. rewrite Ht. simpl in *. by rewrite Hsize.
    + by rewrite !queueAt_no_table.
  - intros p. unfold enqueued. by setoid_rewrite Hat.
Qed.

Lemma ensureHashtableSize_spec n st :
  WellFormed st →
  let old := default (Hashtable.create maxLoadFactor) (hashtable st) in
  let newSize := wrapUnsigned (wrapUnsigned (n * growthFactor) * maxLoadFactor) in
  if noNeedToRehash st n then ensureHashtableSize n st = Some st
  else if loadFactorReached (Hashtable.size old) n then
    ∃ st', ensureHashtableSize n st = Some st' ∧ sameWaiters st st' ∧
           tableSize st' = Hashtable.size old
  else if Hashtable.size old <? newSize then
    ∃ st', ensureHashtableSize n st = Some st' ∧ sameWaiters st st' ∧
           tableSize st' = newSize
  else ensureHashtableSize n st = None.
Proof.
  intros Hwf old newSize. unfold ensureHashtableSize.
  destruct (noNeedToRehash st n) eqn:Hfast; [done|].
  destruct (lockHashtable_spec st Hwf)
    as (sorted & bs' & t' & -> & Hinv & Hsize & Hsorted & Hnd & Hqueues).
  fold old in Hsize.
  assert (noNeedToRehash (withTable bs' t' st) n
          = loadFactorReached (Hashtable.size old) n) as ->
    by (unfold noNeedToRehash; simpl; by rewrite Hsize).
  pose proof (lockHashtable_waiters st bs' t' Hwf Hinv Hsize Hqueues) as Hlocked.
  destruct (loadFactorReached (Hashtable.size old) n) eqn:Hload.
  { eexists. split; [done|]. split; [done|]. unfold tableSize. simpl. done. }
  cbn [hashtable heap buckets withTable mbind option_bind].
  set (queue := λ bucket : BucketPtr,
         match bs' !! bucket with
         | Some b => queueOrder (heap st) b
         | None => []
         end).
  assert (∀ j bucket, Hashtable.data t' !! j = Some bucket →
            ∃ b, bs' !! bucket = Some b ∧ isQueue (heap st) b (queue bucket) ∧
                 slotQueue (heap st) bs' t' j (queue bucket)) as Hqueue.
  { intros j bucket Hj. destruct (table_queues _ _ _ Hinv j) as (l & Hl & _).
    pose proof Hl as Hl'. unfold slotQueue in Hl'. rewrite Hj in Hl'.
    destruct Hl' as (b & Hb & Hq). exists b. unfold queue. rewrite Hb.
    rewrite (isQueue_order _ _ _ Hq). done. }
  assert (∀ b1 b2 p, b1 ∈ sorted → b2 ∈ sorted → b1 ≠ b2 →
            p ∈ queue b1 → p ∉ queue b2) as Hdisj.
  { intros b1 b2 p [j1 Hj1]%Hsorted [j2 Hj2]%Hsorted Hne.
    destruct (Hqueue j1 b1 Hj1) as (_ & _ & _ & Hs1).
    destruct (Hqueue j2 b2 Hj2) as (_ & _ & _ & Hs2).
    eapply table_disjoint; [done..|]. intros ->. congruence. }
  destruct (drainBuckets_spec queue sorted (heap st) bs' [] Hnd)
    as (h1 & bs1 & Hdrain & Hempty & Hframe & Hnexts & Hsame1 & Hout1); [|done|].
  { intros bucket [j Hj]%Hsorted. destruct (Hqueue j bucket Hj) as (b & ? & ? & _). eauto. }
  simpl in Hdrain. rewrite Hdrain. cbn [mbind option_bind].
  set (threadDatas := mjoin (queue <$> sorted)) in *.
  fold newSize. rewrite Hsize.
  destruct (Hashtable.size old <? newSize) eqn:Hgrow; [|done]. cbn [negb].
  apply Z.ltb_lt in Hgrow. pose proof (table_size _ _ _ Hinv) as Hpos.
  set (addr := addressOf (heap st)).
  destruct (rehash_spec addr threadDatas [] h1 bs1 (Hashtable.create newSize) sorted)
    as (h2 & bs2 & filled & reusable2 & -> & Hinv2 & Hsize2 & Horder & Hreusable2 & Hsame2).
  { apply TableInvariant_create. lia. }
  { intros p. by apply sameRecords_address. }
  { by intros i l ->%slotQueue_create. }
  { split; [done|]. intros bucket Hin. split; [by apply Hempty|].
    intros j. simpl. by rewrite lookup_empty. }
  { simpl. apply NoDup_join; [done| |done].
    intros bucket [j Hj]%Hsorted. by destruct (Hqueue j bucket Hj) as (b & _ & (? & _) & _). }
  { intros p Hp. specialize (Hnexts p Hp).
    destruct (h1 !! p) as [td|]; [|done]. exists td. split; [done|]. by injection Hnexts. }
  cbn [mbind option_bind]. simpl in Hsize2, Horder.
  destruct (placeLeftovers_spec h2 bs2 (Z.to_nat newSize) 0 filled reusable2)
    as (final & leftover & -> & Hinv3 & Hsize3 & Hslots3); [done|done|lia|lia|].
  eexists. split; [done|]. split; [|unfold tableSize; simpl; congruence].
  set (st' := withTable bs2 final (withHeap h2 (withTable bs' t' st))).
  assert (∀ i, queueAt st' i = filter (λ p, slotOf newSize (addr p) = i) threadDatas)
    as Hnewqueue.
  { intros i. destruct (table_queues _ _ _ Hinv2 i) as (l & Hl & _).
    rewrite <- (Horder i l Hl). apply (queueAt_slotQueue _ final); [done|].
    by apply Hslots3. }
  assert (∀ p, addressOf h2 p = addr p) as Haddr2.
  { intros p. rewrite (sameRecords_address _ _ p Hsame2).
    by apply sameRecords_address. }
  assert (∀ p, p ∈ threadDatas ↔ enqueued st p) as Hmember.
  { intros p. unfold threadDatas. rewrite list_elem_of_join. split.
    - intros (l & Hp & (bucket & -> & [j Hj]%Hsorted)%list_elem_of_fmap).
      destruct (Hqueue j bucket Hj) as (_ & _ & _ & Hs). exists j.
      by rewrite (Hqueues j _ Hs).
    - intros [j Hp]. destruct (table_queues _ _ _ Hinv j) as (l & Hl & _).
      rewrite (Hqueues j l Hl) in Hp. pose proof Hl as Hl'. unfold slotQueue in Hl'.
      destruct (Hashtable.data t' !! j) as [bucket|] eqn:Hj;
        [|subst l; by apply elem_of_nil in Hp].
      destruct (Hqueue j bucket Hj) as (_ & _ & _ & Hs).
      rewrite (slotQueue_functional _ _ _ _ _ _ Hl Hs) in Hp.
      exists (queue bucket). split; [done|]. apply list_elem_of_fmap.
      exists bucket. split; [done|]. apply Hsorted. eauto. }
  split.
  - unfold WellFormed. simpl. done.
  - simpl. by eexists.
  - simpl. by eapply sameRecords_trans.
  - done.
  - done.
  - done.
  - (* the records parked on an address keep their order *)
    intros a. unfold parkedOn at 1, queueFor. rewrite Hnewqueue.
    assert (tableSize st' = newSize) as -> by (unfold tableSize; simpl; congruence).
    rewrite list_filter_filter.
    transitivity (filter (λ p, addr p = a) threadDatas).
    { apply list_filter_iff. intros p. simpl. rewrite Haddr2. split; [tauto|].
      intros ->. done. }
    destruct (waiters_parked _ _ Hlocked a) as [].
    unfold parkedOn at 1, queueFor. unfold tableSize at 1. simpl.
    set (i := slotOf (Hashtable.size t') a).
    assert (0 ≤ i < Hashtable.size t') as Hi by (apply Z.mod_pos_bound; lia).
    destruct (table_queues _ _ _ Hinv i) as (l & Hl & Hall).
    rewrite (queueAt_slotQueue (withTable bs' t' st) t' i l eq_refl Hl).
    pose proof Hl as Hl'. unfold slotQueue in Hl'.
    destruct (Hashtable.data t' !! i) as [bucket|] eqn:Hbucket.
    + destruct (Hqueue i bucket Hbucket) as (_ & _ & _ & Hs).
      rewrite (slotQueue_functional _ _ _ _ _ _ Hl Hs).
      unfold threadDatas. apply filter_join_single; [done|apply Hsorted; eauto|].
      intros bucket' [j Hj]%Hsorted Hne.
      destruct (Hqueue j bucket' Hj) as (_ & _ & _ & Hs').
      apply filter_none. pose proof (table_slot_Forall _ _ _ _ _ Hinv Hs') as Hall'.
      eapply Forall_impl; [done|]. intros p Hp Hpa. simpl in *. unfold addr in Hpa.
      rewrite Hpa in Hp. fold i in Hp. subst j. congruence.
    + subst l. simpl. apply filter_none. apply Forall_forall. intros p Hp Hpa.
      apply Hmember in Hp as [j Hp].
      destruct (table_queues _ _ _ Hinv j) as (l & Hlj & Hallj).
      rewrite (Hqueues j l Hlj) in Hp. rewrite Forall_forall in Hallj.
      specialize (Hallj p Hp). simpl in Hallj. unfold addr in Hpa. rewrite Hpa in Hallj.
      fold i in Hallj. subst j. unfold slotQueue in Hlj. rewrite Hbucket in Hlj.
      subst l. by apply elem_of_nil in Hp.
  - intros p. rewrite <- Hmember. unfold enqueued. setoid_rewrite Hnewqueue. split.
    + by intros [i [_ ?]%list_elem_of_filter].
    + intros Hp. exists (slotOf newSize (addr p)). by apply list_elem_of_filter.
Qed.
End EnsureHashtableSize.

(** ** [myThreadData] and [enqueue] *)

Lemma filter_ext_in {T} (P Q : T → Prop) `{!∀ x, Decision (P x)} `{!∀ x, Decision (Q x)}
    (l : list T) :
  (∀ x, x ∈ l → P x ↔ Q x) → filter P l = filter Q l.
Proof.
  induction l as [|x l IH]; intros Hext; [done|]. rewrite !filter_cons.
  rewrite IH by (intros y Hy; by apply Hext, list_elem_of_further).
  pose proof (Hext x (list_elem_of_here _ _)) as Hx.
  destruct (decide (P x)) as [HP|HP], (decide (Q x)) as [HQ|HQ]; tauto || done.
Qed.

Lemma wrapUnsigned_small z : 0 ≤ z < 2 ^ 32 → wrapUnsigned z = z.
Proof. intros Hz. unfold wrapUnsigned. by apply Z.mod_small. Qed.

Section Park.
Context `{PtrHash}.

(** A change of the heap that leaves the links and addresses of the queued
    records alone, with any change of the table that keeps the queues. *)
Lemma queues_unchanged st st' t t' :
  hashtable st = Some t → hashtable st' = Some t' →
  TableInvariant (heap st) (buckets st) t →
  TableInvariant (heap st) (buckets st') t' →
  Hashtable.size t' = Hashtable.size t →
  (∀ i l, slotQueue (heap st) (buckets st) t i l → slotQueue (heap st) (buckets st') t' i l) →
  (∀ q, enqueued st q →
     nextInQueue <$> heap st' !! q = nextInQueue <$> heap st !! q ∧
     addressOf (heap st') q = addressOf (heap st) q) →
  WellFormed st' ∧
  (∀ i, queueAt st' i = queueAt st i) ∧
  (∀ a, parkedOn st' a = parkedOn st a) ∧
  (∀ q, enqueued st' q ↔ enqueued st q).
Proof.
  intros Ht Ht' Hinv Hinv0 Hsize Hslots Hagree.
  assert (∀ i l, slotQueue (heap st) (buckets st') t' i l → queueAt st i = l) as Hback.
  { intros i l Hl. destruct (table_queues _ _ _ Hinv i) as (l0 & Hl0 & _).
    rewrite (queueAt_slotQueue _ _ _ _ Ht Hl0).
    eapply slotQueue_functional; [|done]. by apply Hslots. }
  destruct (TableInvariant_agree (heap st) (heap st') (buckets st') t' Hinv0)
    as [Hinv' Hslots'].
  { intros i l q Hl Hq. apply Hagree. exists i. by rewrite (Hback i l Hl). }
  assert (∀ i, queueAt st' i = queueAt st i) as Hat.
  { intros i. destruct (table_queues _ _ _ Hinv0 i) as (l & Hl & _).
    rewrite (Hback i l Hl). apply (queueAt_slotQueue _ t'); [done|]. by apply Hslots'. }
  split_and!; [by unfold WellFormed; rewrite Ht'|done| |].
  - intros a. unfold parkedOn, queueFor, tableSize. rewrite Ht, Ht'. simpl.
    rewrite Hsize, Hat. apply filter_ext_in. intros q Hq.
    destruct (Hagree q) as [_ ->]; [by eexists|done].
  - intros q. unfold enqueued. by setoid_rewrite Hat.
Qed.

Lemma myThreadData_spec me st :
  WellFormed st → notParked st me →
  ∃ p st0 t0 td, myThreadData me st = Some (p, st0) ∧
    WellFormed st0 ∧ hashtable st0 = Some t0 ∧
    threadData st0 !! me = Some p ∧
    heap st0 !! p = Some td ∧ nextInQueue td = None ∧
    ¬ enqueued st0 p ∧
    notified st0 = notified st ∧
    (∀ a, parkedOn st0 a = parkedOn st a) ∧
    (∀ q, enqueued st0 q ↔ enqueued st q) ∧
    match threadData st !! me with
    | Some p0 => p = p0 ∧ st0 = st
    | None => td = mkThreadData me false 0 None ∧ sameRecords (heap st) (delete p (heap st0))
    end.
Proof.
  intros Hwf Hme. unfold myThreadData, notParked in *.
  destruct (threadData st !! me) as [p|] eqn:Hp.
  { destruct Hme as ([t0 Ht0] & Hnot & td & Htd & Hnext).
    exists p, st, t0, td. by split_and!. }
  destruct Hme as [Hn0 Hn1].
  set (n := wrapUnsigned (numThreads st + 1)).
  assert (n = numThreads st + 1) as Hn by (apply wrapUnsigned_small; lia).
  set (st1 := mkState (heap st) (buckets st) (hashtable st) n (threadData st) (notified st)).
  assert (WellFormed st1) as Hwf1 by done.
  assert (∃ st2 t2, ensureHashtableSize n st1 = Some st2 ∧ hashtable st2 = Some t2 ∧
            WellFormed st2 ∧ sameRecords (heap st) (heap st2) ∧
            threadData st2 = threadData st ∧ notified st2 = notified st ∧
            (∀ a, parkedOn st2 a = parkedOn st1 a) ∧
            (∀ q, enqueued st2 q ↔ enqueued st1 q)) as (st2 & t2 & -> & Ht2 & Hwf2 & Hsame
              & Htd2 & Hnot2 & Hparked2 & Henq2).
  { pose proof (ensureHashtableSize_spec n st1 Hwf1) as Hspec. simpl in Hspec.
    destruct (noNeedToRehash st1 n) eqn:Hfast.
    - unfold noNeedToRehash in Hfast. destruct (hashtable st1) as [t|] eqn:Ht; [|done].
      exists st1, t. by split_and!.
    - set (old := default (Hashtable.create maxLoadFactor) (hashtable st)) in *.
      assert (∀ st', sameWaiters st1 st' → ∃ t2, hashtable st' = Some t2 ∧
                WellFormed st' ∧ sameRecords (heap st) (heap st') ∧
                threadData st' = threadData st ∧ notified st' = notified st ∧
                (∀ a, parkedOn st' a = parkedOn st1 a) ∧
                (∀ q, enqueued st' q ↔ enqueued st1 q)) as Huse.
      { intros st' [Hw [t2 Ht2] Hr _ Htd' Hnot' Hpk Henq]. exists t2. by split_and!. }
      destruct (loadFactorReached (Hashtable.size old) n) eqn:Hload.
      { destruct Hspec as (st' & -> & Hw & _). destruct (Huse st' Hw) as (t2 & ?).
        by exists st', t2. }
      assert ((Hashtable.size old <?
               wrapUnsigned (wrapUnsigned (n * growthFactor) * maxLoadFactor)) = true)
        as Hgrow.
      { unfold growthFactor, maxLoadFactor in *.
        rewrite !wrapUnsigned_small by (rewrite ?wrapUnsigned_small; lia).
        unfold loadFactorReached, maxLoadFactor in Hload.
        destruct (n =? 0) eqn:Hz; [lia|]. apply Z.ltb_lt. lia. }
      rewrite Hgrow in Hspec. destruct Hspec as (st' & -> & Hw & _).
      destruct (Huse st' Hw) as (t2 & ?). by exists st', t2. }
  cbn [mbind option_bind]. set (p := fresh (dom (heap st2))).
  assert (heap st2 !! p = None) as Hfresh by (apply not_elem_of_dom, is_fresh).
  set (td := mkThreadData me false 0 None).
  set (st0 := mkState (<[p := td]> (heap st2)) (buckets st2) (hashtable st2)
                (numThreads st2) (<[me := p]> (threadData st2)) (notified st2)).
  unfold WellFormed in Hwf2. rewrite Ht2 in Hwf2.
  destruct (queues_unchanged st2 st0 t2 t2) as (Hwf0 & Hat0 & Hparked0 & Henq0); try done.
  { intros q [i Hq]. destruct (table_queues _ _ _ Hwf2 i) as (l & Hl & _).
    rewrite (queueAt_slotQueue _ _ _ _ Ht2 Hl) in Hq.
    destruct (slotQueue_dom _ _ _ _ _ _ Hl Hq) as [tdq Htdq].
    assert (q ≠ p) by (intros ->; congruence).
    unfold addressOf. simpl. by rewrite lookup_insert_ne. }
  exists p, st0, t2, td. split_and!.
  - done.
  - done.
  - done.
  - simpl. by rewrite lookup_insert_eq.
  - simpl. by rewrite lookup_insert_eq.
  - done.
  - rewrite Henq0. intros [i Hq]. destruct (table_queues _ _ _ Hwf2 i) as (l & Hl & _).
    rewrite (queueAt_slotQueue _ _ _ _ Ht2 Hl) in Hq.
    destruct (slotQueue_dom _ _ _ _ _ _ Hl Hq) as [tdq Htdq]. congruence.
  - done.
  - intros a. by rewrite Hparked0, Hparked2.
  - intros q. by rewrite Henq0, Henq2.
  - done.
  - simpl. rewrite delete_insert_eq. by rewrite delete_id.
Qed.
End Park.

Section Enqueue.
Context `{PtrHash} {U : Type} (validation : U → bool * U).

Lemma enqueue_declined a p st u t :
  hashtable st = Some t → TableInvariant (heap st) (buckets st) t →
  (validation u).1 = false →
  ∃ st', enqueue a (ParkingLot.parkFunctor validation p a) st u
         = Some (false, st', (validation u).2) ∧
    WellFormed st' ∧ heap st' = heap st ∧
    threadData st' = threadData st ∧ notified st' = notified st ∧
    (∀ a', parkedOn st' a' = parkedOn st a') ∧
    (∀ q, enqueued st' q ↔ enqueued st q).
Proof.
  intros Ht Hinv Hvalid. unfold enqueue. rewrite Ht. cbn [mbind option_bind].
  pose proof (table_size _ _ _ Hinv) as Hsize.
  rewrite (proj2 (Z.eqb_neq _ 0)) by lia.
  fold (slotOf (Hashtable.size t) a). set (i := slotOf (Hashtable.size t) a).
  assert (0 ≤ i < Hashtable.size t) as Hi by (apply Z.mod_pos_bound; lia).
  destruct (materializeBucket_spec (heap st) (buckets st) t i Hinv Hi)
    as (bucket & bs1 & t1 & -> & Hinv1 & Hsize1 & Hbucket & _ & Hslots1 & _).
  destruct (table_bucket_dom _ _ _ _ _ Hinv1 Hbucket) as [b ->]. cbn [mbind option_bind].
  unfold ParkingLot.parkFunctor. destruct (validation u) as [valid u']. simpl in Hvalid.
  subst valid. simpl.
  eexists. split; [done|].
  destruct (queues_unchanged st (withTable bs1 t1 (withHeap (heap st) st)) t t1)
    as (Hwf' & _ & Hparked & Henq); try done.
Qed.

Lemma enqueue_accepted a p td st u t :
  hashtable st = Some t → TableInvariant (heap st) (buckets st) t →
  heap st !! p = Some td → nextInQueue td = None → ¬ enqueued st p →
  (validation u).1 = true →
  ∃ st', enqueue a (ParkingLot.parkFunctor validation p a) st u
         = Some (true, st', (validation u).2) ∧
    WellFormed st' ∧
    heap st' !! p = Some (setShouldPark true (setAddress a td)) ∧
    threadData st' = threadData st ∧ notified st' = notified st ∧
    queueFor st' a = queueFor st a ++ [p] ∧
    parkedOn st' a = parkedOn st a ++ [p] ∧
    (∀ a', a' ≠ a → parkedOn st' a' = parkedOn st a').
Proof.
  intros Ht Hinv Htd Hnext Hnot Hvalid. unfold enqueue. rewrite Ht. cbn [mbind option_bind].
  pose proof (table_size _ _ _ Hinv) as Hsize.
  rewrite (proj2 (Z.eqb_neq _ 0)) by lia.
  fold (slotOf (Hashtable.size t) a). set (i := slotOf (Hashtable.size t) a).
  assert (0 ≤ i < Hashtable.size t) as Hi by (apply Z.mod_pos_bound; lia).
  destruct (materializeBucket_spec (heap st) (buckets st) t i Hinv Hi)
    as (bucket & bs1 & t1 & -> & Hinv1 & Hsize1 & Hbucket & _ & Hslots1 & _).
  (* the queues of the table with the materialized bucket are those of [st] *)
  assert (∀ j l, slotQueue (heap st) bs1 t1 j l → queueAt st j = l) as Hback.
  { intros j l Hl. destruct (table_queues _ _ _ Hinv j) as (l0 & Hl0 & _).
    rewrite (queueAt_slotQueue _ _ _ _ Ht Hl0).
    eapply slotQueue_functional; [|done]. by apply Hslots1. }
  destruct (table_queues _ _ _ Hinv1 i) as (l & Hl & Hall).
  pose proof Hl as Hl'. unfold slotQueue in Hl'. rewrite Hbucket in Hl'.
  destruct Hl' as (b & Hb & Hq). rewrite Hb. cbn [mbind option_bind].
  unfold ParkingLot.parkFunctor. destruct (validation u) as [valid u']. simpl in Hvalid.
  subst valid. cbn [negb snd].
  set (td1 := setShouldPark true (setAddress a td)).
  assert (alter (λ td, setShouldPark true (setAddress a td)) p (heap st)
          = <[p := td1]> (heap st)) as ->.
  { apply map_eq. intros q. destruct (decide (p = q)) as [<-|Hne].
    - by rewrite lookup_alter_eq, lookup_insert_eq, Htd.
    - by rewrite lookup_alter_ne, lookup_insert_ne. }
  set (h1 := <[p := td1]> (heap st)).
  assert (∀ j lj q, slotQueue (heap st) bs1 t1 j lj → q ∈ lj → q ≠ p) as Hqueued.
  { intros j lj q Hlj Hq' ->. apply Hnot. exists j. by rewrite (Hback j lj Hlj). }
  destruct (TableInvariant_agree (heap st) h1 bs1 t1 Hinv1) as [Hinv1' Hslots1'].
  { intros j lj q Hlj Hq'. unfold h1, addressOf.
    by rewrite lookup_insert_ne by (apply not_eq_sym; by eapply Hqueued). }
  assert (isQueue h1 b l) as Hq1.
  { pose proof (Hslots1' i l Hl) as Hl1. unfold slotQueue in Hl1. rewrite Hbucket in Hl1.
    destruct Hl1 as (b0 & Hb0 & ?). congruence. }
  destruct (Bucket_enqueue_spec h1 b l p td1 Hq1) as (h2 & b2 & -> & Hq2 & Hsame & Hout);
    [by unfold h1; rewrite lookup_insert_eq|done|by intros Hin; eapply Hqueued| ].
  cbn [mbind option_bind]. eexists. split; [done|].
  apply agreeOutside_last in Hout.
  assert (h2 !! p = Some td1) as Hp2.
  { rewrite Hout; [by unfold h1; rewrite lookup_insert_eq|]. intros Hin. by eapply Hqueued. }
  assert (∀ q, q ≠ p → addressOf h2 q = addressOf (heap st) q) as Haddr.
  { intros q Hne. rewrite (sameRecords_address _ _ q Hsame). unfold h1, addressOf.
    by rewrite lookup_insert_ne. }
  assert (addressOf h2 p = a) as Haddrp by (by rewrite (addressOf_lookup _ _ _ Hp2)).
  destruct (TableInvariant_update h1 bs1 t1 i bucket l h2 b2 (l ++ [p]))
    as (Hinv2 & Hnew & Hother); try done; [by apply Hslots1'| |].
  { apply Forall_app. split; [|apply Forall_singleton; by rewrite Haddrp, Hsize1].
    rewrite Forall_forall in Hall |- *. intros q Hq'.
    rewrite Haddr by (by eapply Hqueued). by apply Hall. }
  set (st' := withTable (<[bucket := b2]> bs1) t1 (withHeap h2 st)).
  assert (queueAt st' i = queueAt st i ++ [p]) as Hati.
  { rewrite (Hback i l Hl). by apply (queueAt_slotQueue _ t1). }
  assert (∀ j, j ≠ i → queueAt st' j = queueAt st j) as Hatj.
  { intros j Hne. destruct (table_queues _ _ _ Hinv1 j) as (lj & Hlj & _).
    rewrite (Hback j lj Hlj). apply (queueAt_slotQueue _ t1); [done|].
    by apply Hother, Hslots1'. }
  assert (∀ a', filter (λ q, addressOf (heap st') q = a') (queueAt st i)
                = filter (λ q, addressOf (heap st) q = a') (queueAt st i)) as Hfilter.
  { intros a'. apply filter_ext_in. intros q Hq'. simpl. rewrite Haddr; [done|].
    eapply Hqueued; [done|]. by rewrite (Hback i l Hl) in Hq'. }
  assert (tableSize st' = tableSize st) as Hts
    by (unfold tableSize; simpl; by rewrite Ht).
  assert (slotOf (tableSize st) a = i) as Hia by (unfold tableSize; by rewrite Ht).
  split_and!; try done.
  - unfold queueFor. by rewrite Hts, Hia.
  - unfold parkedOn, queueFor. rewrite Hts, Hia, Hati, filter_app, Hfilter.
    f_equal. rewrite filter_cons, filter_nil. simpl. by rewrite decide_True.
  - intros a' Hne. unfold parkedOn, queueFor. rewrite Hts.
    destruct (decide (slotOf (tableSize st) a' = i)) as [->|Hslot].
    + rewrite Hati, filter_app, Hfilter.
      rewrite filter_cons, filter_nil. simpl.
      rewrite decide_False by (by rewrite Haddrp). by rewrite app_nil_r.
    + rewrite Hatj by done. apply filter_ext_in. intros q Hq'. simpl. rewrite Haddr; [done|].
      intros ->. apply Hnot. by eexists.
Qed.
End Enqueue.

(** ** [parkConditionally] *)

Section ParkConditionally.
Context `{PtrHash} {U : Type} (validation : U → bool * U).

Lemma parkConditionally_declined me a st u :
  WellFormed st → notParked st me → (validation u).1 = false →
  ∃ p st',
    ParkingLot.parkConditionally me a validation st u
    = Some (ParkingLot.Returned false, st', (validation u).2) ∧
    WellFormed st' ∧
    threadData st' !! me = Some p ∧
    ¬ enqueued st' p ∧
    (∀ q, enqueued st' q ↔ enqueued st q) ∧
    (∀ a', parkedOn st' a' = parkedOn st a') ∧
    notified st' = notified st ∧
    match threadData st !! me with
    | Some p0 => p = p0 ∧ heap st' = heap st
    | None => heap st' !! p = Some (mkThreadData me false 0 None)
    end.
Proof.
  intros Hwf Hme Hvalid. unfold ParkingLot.parkConditionally.
  destruct (myThreadData_spec me st Hwf Hme)
    as (p & st0 & t0 & td & -> & Hwf0 & Ht0 & Hp0 & Htd0 & Hnext0 & Hnot0 & Hlog0
        & Hparked0 & Henq0 & Hcase).
  cbn [mbind option_bind]. unfold WellFormed in Hwf0. rewrite Ht0 in Hwf0.
  destruct (enqueue_declined validation a p st0 u t0 Ht0 Hwf0 Hvalid)
    as (st' & -> & Hwf' & Hheap' & Htd' & Hlog' & Hparked' & Henq').
  cbn [mbind option_bind negb]. exists p, st'. split_and!; try done.
  - congruence.
  - by rewrite Henq'.
  - intros q. by rewrite Henq', Henq0.
  - intros a'. by rewrite Hparked', Hparked0.
  - congruence.
  - destruct (threadData st !! me) as [p0|].
    + destruct Hcase as [-> ->]. done.
    + destruct Hcase as [-> _]. congruence.
Qed.

Lemma parkConditionally_accepted me a st u :
  WellFormed st → notParked st me → (validation u).1 = true →
  ∃ p st',
    ParkingLot.parkConditionally me a validation st u
    = Some (ParkingLot.Waiting, st', (validation u).2) ∧
    WellFormed st' ∧
    threadData st' !! me = Some p ∧
    parkedOn st' a = parkedOn st a ++ [p] ∧
    (∀ a', a' ≠ a → parkedOn st' a' = parkedOn st a') ∧
    (∃ td, heap st' !! p = Some td ∧ shouldPark td = true ∧ address td = a) ∧
    notified st' = notified st.
Proof.
  intros Hwf Hme Hvalid. unfold ParkingLot.parkConditionally.
  destruct (myThreadData_spec me st Hwf Hme)
    as (p & st0 & t0 & td & -> & Hwf0 & Ht0 & Hp0 & Htd0 & Hnext0 & Hnot0 & Hlog0
        & Hparked0 & Henq0 & Hcase).
  cbn [mbind option_bind]. unfold WellFormed in Hwf0. rewrite Ht0 in Hwf0.
  destruct (enqueue_accepted validation a p td st0 u t0 Ht0 Hwf0 Htd0 Hnext0 Hnot0 Hvalid)
    as (st' & -> & Hwf' & Hheap' & Htd' & Hlog' & _ & Hparked' & Hothers').
  cbn [mbind option_bind negb]. rewrite Hheap'. cbn [mbind option_bind]. simpl.
  exists p, st'. split_and!; try done.
  - congruence.
  - by rewrite Hparked', Hparked0.
  - intros a' Hne. by rewrite Hothers', Hparked0.
  - by eexists.
  - congruence.
Qed.
End ParkConditionally.

(** ** The example states are well formed *)

Section ExampleStates.
#[local] Existing Instance identityHash.

Lemma park_wf st who :
  WellFormed st → notParked st who.1 → WellFormed (park st who).
Proof.
  intros Hwf Hme. unfold park.
  destruct (parkConditionally_accepted alwaysValid who.1 who.2 st tt Hwf Hme eq_refl)
    as (p & st' & -> & Hwf' & _). done.
Qed.

Lemma newThread_notParked st me :
  threadData st !! me = None → (0 <=? numThreads st) = true →
  (6 * (numThreads st + 1) <? 2 ^ 32) = true → notParked st me.
Proof.
  intros Hme H0 H1. unfold notParked. rewrite Hme.
  apply Z.leb_le in H0. apply Z.ltb_lt in H1. done.
Qed.

Lemma initialState_wf : WellFormed initialState.
Proof. done. Qed.

Lemma oneWaiter_wf : WellFormed oneWaiter.
Proof.
  apply (park_wf initialState (1%positive, 100) initialState_wf).
  by apply newThread_notParked.
Qed.

Lemma sharedBucket_wf : WellFormed sharedBucket.
Proof.
  apply (park_wf oneWaiter (2%positive, 112) oneWaiter_wf).
  by apply newThread_notParked; vm_compute.
Qed.

Lemma fourWaiters_wf : WellFormed fourWaiters.
Proof.
  apply (park_wf _ (4%positive, 100)); [|by apply newThread_notParked; vm_compute].
  apply (park_wf _ (3%positive, 112)); [|by apply newThread_notParked; vm_compute].
  apply (park_wf _ (2%positive, 100)); [|by apply newThread_notParked; vm_compute].
  apply oneWaiter_wf.
Qed.
End ExampleStates.

(** * The claims *)

(** ** [ParkingLot::unparkOne]: the returned boolean *)

Section UnparkOneResult.
Context `{PtrHash}.

Lemma parkedOn_no_bucket st t a :
  hashtable st = Some t →
  Hashtable.data t !! slotOf (Hashtable.size t) a = None → parkedOn st a = [].
Proof.
  intros Ht Hslot. unfold parkedOn, queueFor, queueAt, tableSize. rewrite Ht. simpl.
  by rewrite Hslot.
Qed.

(** Claim C1, as the code has it: [unparkOne(address)] returns false when
    there is no hashtable, when the slot of [address] holds no bucket, and
    when no queued record has that address, and then changes nothing.
    When a record parked on [address] is queued, the first one is removed
    and signalled, and the result is true exactly when the bucket's queue
    is not empty after the removal.  So a true result implies that a thread
    was unparked, but a thread may be unparked with a false result. *)
Theorem unparkOne_result a st :
  WellFormed st →
  ∃ result st', ParkingLot.unparkOne a st = Some (result, st') ∧
    (hashtable st = None → result = false) ∧
    (∀ t, hashtable st = Some t →
          Hashtable.data t !! slotOf (Hashtable.size t) a = None → result = false) ∧
    match parkedOn st a with
    | [] => result = false ∧ st' = st
    | p :: rest =>
        notified st' = notified st ++ [p] ∧
        shouldPark <$> heap st' !! p = Some false ∧
        parkedOn st' a = rest ∧
        (result = true ↔ queueFor st' a ≠ [])
    end ∧
    (result = true → parkedOn st a ≠ []).
Proof.
  intros Hwf. destruct (parkedOn st a) as [|p rest] eqn:Hparked.
  - exists false, st. rewrite (unparkOne_none a st Hwf Hparked). by split_and!.
  - destruct (unparkOne_some a st p rest Hwf Hparked)
      as (st' & l1 & l2 & Hrun & _ & _ & _ & Hrest & Hlog & Hwoken & _).
    eexists _, st'. split; [done|]. split_and!; try done.
    + intros Ht. by rewrite parkedOn_no_table in Hparked.
    + intros t Ht Hslot. by rewrite (parkedOn_no_bucket st t a) in Hparked.
    + by rewrite bool_decide_eq_true.
Qed.
End UnparkOneResult.

Section UnparkOneExamples.
#[local] Existing Instance identityHash.

Lemma unparkOne_result_witness :
  WellFormed oneWaiter ∧
  ∃ result st', ParkingLot.unparkOne 100 oneWaiter = Some (result, st') ∧
    (hashtable oneWaiter = None → result = false) ∧
    (∀ t, hashtable oneWaiter = Some t →
          Hashtable.data t !! slotOf (Hashtable.size t) 100 = None → result = false) ∧
    match parkedOn oneWaiter 100 with
    | [] => result = false ∧ st' = oneWaiter
    | p :: rest =>
        notified st' = notified oneWaiter ++ [p] ∧
        shouldPark <$> heap st' !! p = Some false ∧
        parkedOn st' 100 = rest ∧
        (result = true ↔ queueFor st' 100 ≠ [])
    end ∧
    (result = true → parkedOn oneWaiter 100 ≠ []).
Proof. split; [apply oneWaiter_wf|]. apply (unparkOne_result 100 oneWaiter oneWaiter_wf). Defined.

(** Claim C1 as stated fails: with one thread parked on address 100,
    [unparkOne(100)] removes and signals that thread and returns false. *)
Lemma unparkOne_true_iff_unparked_fails :
  WellFormed oneWaiter ∧
  parkedOn oneWaiter 100 = [1%positive] ∧
  ∃ st', ParkingLot.unparkOne 100 oneWaiter = Some (false, st') ∧
    notified st' = [1%positive] ∧
    shouldPark <$> heap st' !! 1%positive = Some false ∧
    parkedOn st' 100 = [].
Proof.
  split; [apply oneWaiter_wf|]. split; [vm_compute; reflexivity|].
  assert (ParkingLot.unparkOne 100 oneWaiter
            ≫= (λ '(result, st'),
                  Some (result, notified st', shouldPark <$> heap st' !! 1%positive,
                        parkedOn st' 100))
          = Some (false, [1%positive], Some false, [])) as Hobserved
    by (vm_compute; reflexivity).
  destruct (ParkingLot.unparkOne 100 oneWaiter) as [[result st']|]; [|done].
  injection Hobserved as -> Hlog Hwoken Hparked. by exists st'.
Qed.
End UnparkOneExamples.

Section UnparkOneRemaining.
Context `{PtrHash}.

(** Claim C2: when [unparkOne(address)] finds and removes a record parked
    on [address], the boolean it returns says whether the bucket's queue is
    non-empty after the removal; the queue is that of the whole bucket, so
    it counts the records parked on other addresses of the same bucket. *)
Theorem unparkOne_reports_remaining a st p rest :
  WellFormed st → parkedOn st a = p :: rest →
  ∃ result st' before after,
    ParkingLot.unparkOne a st = Some (result, st') ∧
    queueFor st a = before ++ p :: after ∧
    queueFor st' a = before ++ after ∧
    notified st' = notified st ++ [p] ∧
    result = bool_decide (queueFor st' a ≠ []).
Proof.
  intros Hwf Hparked.
  destruct (unparkOne_some a st p rest Hwf Hparked)
    as (st' & l1 & l2 & Hrun & _ & Hbefore & Hafter & _ & Hlog & _).
  by exists (bool_decide (queueFor st' a ≠ [])), st', l1, l2.
Qed.
End UnparkOneRemaining.

Section UnparkOneRemainingExample.
#[local] Existing Instance identityHash.

(** In [sharedBucket] the only thread parked on 100 is removed and the
    result is true, because the thread parked on 112 stays in the bucket. *)
Lemma unparkOne_reports_remaining_witness :
  (WellFormed sharedBucket ∧ parkedOn sharedBucket 100 = [1%positive]) ∧
  (∃ result st' before after,
    ParkingLot.unparkOne 100 sharedBucket = Some (result, st') ∧
    queueFor sharedBucket 100 = before ++ 1%positive :: after ∧
    queueFor st' 100 = before ++ after ∧
    notified st' = notified sharedBucket ++ [1%positive] ∧
    result = bool_decide (queueFor st' 100 ≠ [])) ∧
  ∃ st', ParkingLot.unparkOne 100 sharedBucket = Some (true, st') ∧
         parkedOn st' 100 = [] ∧ queueFor st' 100 = [2%positive].
Proof.
  split; [split; [apply sharedBucket_wf|vm_compute; reflexivity]|]. split.
  - apply (unparkOne_reports_remaining 100 sharedBucket 1%positive [] sharedBucket_wf).
    vm_compute; reflexivity.
  - assert (ParkingLot.unparkOne 100 sharedBucket
              ≫= (λ '(result, st'), Some (result, parkedOn st' 100, queueFor st' 100))
            = Some (true, [], [2%positive])) as Hobserved
      by (vm_compute; reflexivity).
    destruct (ParkingLot.unparkOne 100 sharedBucket) as [[result st']|]; [|done].
    injection Hobserved as -> Hparked Hqueue. by exists st'.
Defined.
End UnparkOneRemainingExample.

(** ** [ParkingLot::parkConditionally] when the validation declines *)

Section ValidationDeclines.
Context `{PtrHash} {U : Type}.

(** Claim C5: when [validation] returns false, [parkConditionally] returns
    false and does not wait; the caller's record is in no queue afterwards
    (no queue gained or lost a record), and its fields are what they were:
    a record that existed is unchanged, and a record made by this call has
    [shouldPark == false] and a null [address]. *)
Theorem parkConditionally_validation_declines me a (validation : U → bool * U) st u :
  WellFormed st → notParked st me → (validation u).1 = false →
  ∃ p st',
    ParkingLot.parkConditionally me a validation st u
    = Some (ParkingLot.Returned false, st', (validation u).2) ∧
    threadData st' !! me = Some p ∧
    ¬ enqueued st' p ∧
    (∀ q, enqueued st' q ↔ enqueued st q) ∧
    (∀ a', parkedOn st' a' = parkedOn st a') ∧
    match threadData st !! me with
    | Some p0 => p = p0 ∧ heap st' !! p = heap st !! p
    | None => heap st' !! p = Some (mkThreadData me false 0 None)
    end ∧
    (∃ td, heap st' !! p = Some td ∧
       ((∀ p0 td0, threadData st !! me = Some p0 → heap st !! p0 = Some td0 →
                   shouldPark td0 = false ∧ address td0 = 0) →
        shouldPark td = false ∧ address td = 0)).
Proof.
  intros Hwf Hme Hvalid.
  destruct (parkConditionally_declined validation me a st u Hwf Hme Hvalid)
    as (p & st' & Hrun & Hwf' & Hp & Hnot & Henq & Hparked & Hlog & Hcase).
  exists p, st'. split_and!; try done.
  - destruct (threadData st !! me) as [p0|]; [|done]. destruct Hcase as [-> ->]. done.
  - unfold notParked in Hme. destruct (threadData st !! me) as [p0|] eqn:Hp0.
    + destruct Hcase as [-> Hheap]. destruct Hme as (_ & _ & td & Htd & _).
      exists td. rewrite Hheap. split; [done|]. intros Hpre. by apply (Hpre p0 td).
    + eexists. split; [done|]. done.
Qed.
End ValidationDeclines.

Section ValidationDeclinesExample.
#[local] Existing Instance identityHash.

(** A fifth thread calls [parkConditionally] on [fourWaiters] and its
    validation declines: this call makes the thread's record and rehashes. *)
Lemma parkConditionally_validation_declines_witness :
  (WellFormed fourWaiters ∧ notParked fourWaiters 5%positive) ∧
  ∃ p st',
    ParkingLot.parkConditionally 5%positive 100 (λ u : unit, (false, u)) fourWaiters tt
    = Some (ParkingLot.Returned false, st', tt) ∧
    threadData st' !! 5%positive = Some p ∧
    ¬ enqueued st' p ∧
    (∀ q, enqueued st' q ↔ enqueued fourWaiters q) ∧
    (∀ a', parkedOn st' a' = parkedOn fourWaiters a') ∧
    match threadData fourWaiters !! 5%positive with
    | Some p0 => p = p0 ∧ heap st' !! p = heap fourWaiters !! p
    | None => heap st' !! p = Some (mkThreadData 5%positive false 0 None)
    end ∧
    (∃ td, heap st' !! p = Some td ∧
       ((∀ p0 td0, threadData fourWaiters !! 5%positive = Some p0 →
                   heap fourWaiters !! p0 = Some td0 →
                   shouldPark td0 = false ∧ address td0 = 0) →
        shouldPark td = false ∧ address td = 0)).
Proof.
  assert (notParked fourWaiters 5%positive) as Hme
    by (by apply newThread_notParked; vm_compute).
  split; [split; [apply fourWaiters_wf|done]|].
  apply (parkConditionally_validation_declines 5%positive 100 (λ u : unit, (false, u))
           fourWaiters tt fourWaiters_wf Hme eq_refl).
Defined.
End ValidationDeclinesExample.

(** ** [ParkingLot::unparkAll] *)

Section UnparkAllClaim.
Context `{PtrHash}.

(** Claim C6: [unparkAll(address)] removes from the bucket's queue exactly
    the records whose address is [address] and signals each of them, in
    queue order; the records with another address stay, in their order;
    the other buckets are not touched; and when no record is parked on
    [address] the call changes nothing. *)
Theorem unparkAll_removes_exactly a st :
  WellFormed st →
  ∃ st', ParkingLot.unparkAll a st = Some st' ∧
    WellFormed st' ∧
    notified st' = notified st ++ parkedOn st a ∧
    (∀ p, p ∈ parkedOn st a →
       shouldPark <$> heap st' !! p = Some false ∧
       nextInQueue <$> heap st' !! p = Some None) ∧
    queueFor st' a = filter (λ p, addressOf (heap st) p ≠ a) (queueFor st a) ∧
    parkedOn st' a = [] ∧
    (∀ i, i ≠ slotOf (tableSize st) a → queueAt st' i = queueAt st i) ∧
    (parkedOn st a = [] → st' = st).
Proof.
  intros Hwf.
  destruct (unparkAll_spec a st Hwf)
    as (st' & Hrun & Hwf' & Ht & Hlog & Hkept & Hwoken & Hothers & Haddr & Hnone).
  exists st'. split_and!; try done.
  unfold parkedOn. rewrite Hkept, list_filter_filter. apply filter_none.
  apply Forall_forall. intros p _ [Hp Hne]. apply Hne. by rewrite <- Haddr.
Qed.
End UnparkAllClaim.

Section UnparkAllExample.
#[local] Existing Instance identityHash.

Lemma unparkAll_removes_exactly_witness :
  WellFormed fourWaiters ∧
  ∃ st', ParkingLot.unparkAll 100 fourWaiters = Some st' ∧
    WellFormed st' ∧
    notified st' = notified fourWaiters ++ parkedOn fourWaiters 100 ∧
    (∀ p, p ∈ parkedOn fourWaiters 100 →
       shouldPark <$> heap st' !! p = Some false ∧
       nextInQueue <$> heap st' !! p = Some None) ∧
    queueFor st' 100
    = filter (λ p, addressOf (heap fourWaiters) p ≠ 100) (queueFor fourWaiters 100) ∧
    parkedOn st' 100 = [] ∧
    (∀ i, i ≠ slotOf (tableSize fourWaiters) 100 → queueAt st' i = queueAt fourWaiters i) ∧
    (parkedOn fourWaiters 100 = [] → st' = fourWaiters).
Proof.
  split; [apply fourWaiters_wf|].
  apply (unparkAll_removes_exactly 100 fourWaiters fourWaiters_wf).
Defined.
End UnparkAllExample.

(** ** The bucket invariant *)

Section BucketInvariantClaim.
Context `{PtrHash}.

Lemma BucketInvariant_heap h h' b b' n i l l' :
  BucketInvariant h b n i l → sameRecords h h' → isQueue h' b' l' → l' ⊆ l →
  BucketInvariant h' b' n i l'.
Proof.
  intros [_ Hall] Hsame Hq' Hsub. split; [done|].
  rewrite Forall_forall in Hall |- *. intros p Hp.
  rewrite (sameRecords_address _ _ p Hsame). by apply Hall, Hsub.
Qed.

(** Claim C7: a bucket whose queue is well formed -- [queueHead] leads
    through the records [l] to null, [queueTail] is the last of them, and
    each of them hashes to the bucket's slot [i] of the [n]-slot table --
    has [queueHead == null] iff [queueTail == null], and stays well formed
    under [Bucket::enqueue] of a record that hashes to the slot, has a null
    [nextInQueue] and is not in the queue, under [Bucket::genericDequeue]
    with any functor, and under [Bucket::dequeue]; every record that a
    dequeue removes has its [nextInQueue] reset to null. *)
Theorem bucket_invariant_preserved h b n i l :
  BucketInvariant h b n i l →
  ((queueHead b = None ↔ queueTail b = None) ∧
   queueTail b = last l ∧ queueOrder h b = l) ∧
  (∀ data td,
     h !! data = Some td → nextInQueue td = None → data ∉ l →
     slotOf n (address td) = i →
     ∃ h' b', Bucket.enqueue h b data = Some (h', b') ∧
       BucketInvariant h' b' n i (l ++ [data]) ∧
       (queueHead b' = None ↔ queueTail b' = None) ∧
       queueTail b' = Some data) ∧
  (∀ (A : Type) (functor : ThreadDataPtr → ThreadData → A → DequeueResult * A) acc,
     ∃ h' b' acc' l',
       Bucket.genericDequeue functor h b acc = Some (h', b', acc') ∧
       BucketInvariant h' b' n i l' ∧
       (queueHead b' = None ↔ queueTail b' = None) ∧
       queueTail b' = last l' ∧
       sublist l' l ∧
       ∀ p, p ∈ l → p ∉ l' → nextInQueue <$> h' !! p = Some None) ∧
  (∃ h' b',
     Bucket.dequeue h b = Some (h', b', head l) ∧
     BucketInvariant h' b' n i (tail l) ∧
     (queueHead b' = None ↔ queueTail b' = None) ∧
     queueTail b' = last (tail l) ∧
     ∀ p, head l = Some p → nextInQueue <$> h' !! p = Some None).
Proof.
  intros Hinv. pose proof Hinv as [Hq Hall]. split_and!.
  - by eapply isQueue_null_iff.
  - by destruct Hq as (_ & _ & ?).
  - by apply isQueue_order.
  - intros data td Htd Hnext Hfresh Hslot.
    destruct (Bucket_enqueue_spec h b l data td Hq Htd Hnext Hfresh)
      as (h' & b' & Hrun & Hq' & Hsame & _).
    exists h', b'. split_and!; [done| |by eapply isQueue_null_iff|].
    + split; [done|]. apply Forall_app. split.
      * eapply Forall_impl; [done|]. intros p Hp. simpl in *.
        by rewrite (sameRecords_address _ _ p Hsame).
      * apply Forall_singleton. rewrite (sameRecords_address _ _ _ Hsame).
        by rewrite (addressOf_lookup _ _ _ Htd).
    + destruct Hq' as (_ & _ & ->). by rewrite last_snoc.
  - intros A functor acc.
    destruct (genericDequeue_spec functor h b l acc Hq)
      as (h' & b' & Hrun & Hq' & Hrem & Hsame & _).
    exists h', b', (select functor h l acc).2, (select functor h l acc).1.1.
    split_and!; [done| |by eapply isQueue_null_iff|by destruct Hq' as (_ & _ & ?)
                 |apply select_kept_sublist|].
    + eapply BucketInvariant_heap; [done..|]. intros p. apply select_kept_subset.
    + intros p Hp Hgone. apply Hrem.
      destruct (select_partition functor h l acc p); [|done|done|done].
      intros q Hq0. destruct Hq as (_ & Hl & _). by eapply lseg_dom.
  - destruct l as [|p l].
    + exists h, b. rewrite (Bucket_dequeue_nil _ _ Hq). simpl.
      split_and!; [done|done|by eapply isQueue_null_iff|by destruct Hq as (_ & _ & ?)|done].
    + destruct (Bucket_dequeue_cons _ _ _ _ Hq) as (h' & b' & Hrun & Hq' & Hnext & Hsame & _).
      exists h', b'. simpl.
      split_and!; [done| |by eapply isQueue_null_iff|by destruct Hq' as (_ & _ & ?)|].
      * eapply BucketInvariant_heap; [done..|]. intros q Hq0. by apply list_elem_of_further.
      * by intros q [= <-].
Qed.
End BucketInvariantClaim.

Section BucketInvariantExample.
#[local] Existing Instance identityHash.

(** A bucket at slot 1 of a 3-slot table holding the records 1 and 2,
    parked on the addresses 100 and 103, and a free record 3 for the
    address 106. *)
Lemma bucket_invariant_preserved_witness :
  let h : Heap :=
    {[ 1%positive := mkThreadData 1 true 100 (Some 2%positive);
       2%positive := mkThreadData 2 true 103 None;
       3%positive := mkThreadData 3 true 106 None ]} in
  let b := mkBucket (Some 1%positive) (Some 2%positive) in
  BucketInvariant h b 3 1 [1; 2]%positive ∧
  (∃ h' b', Bucket.enqueue h b 3%positive = Some (h', b') ∧
     BucketInvariant h' b' 3 1 [1; 2; 3]%positive ∧
     (queueHead b' = None ↔ queueTail b' = None) ∧
     queueTail b' = Some 3%positive) ∧
  (∃ h' b',
     Bucket.dequeue h b = Some (h', b', Some 1%positive) ∧
     BucketInvariant h' b' 3 1 [2%positive] ∧
     (queueHead b' = None ↔ queueTail b' = None) ∧
     queueTail b' = Some 2%positive ∧
     ∀ p, Some 1%positive = Some p → nextInQueue <$> h' !! p = Some None).
Proof.
  intros h b.
  assert (BucketInvariant h b 3 1 [1; 2]%positive) as Hinv.
  { split.
    - split_and!; [by apply NoDup_ListNoDup; repeat constructor; simpl; intuition lia|
                   |done].
      simpl. split; [done|]. eexists. split; [vm_compute; reflexivity|]. simpl.
      split; [done|]. eexists. split; [vm_compute; reflexivity|]. done.
    - repeat constructor. }
  split; [done|].
  destruct (bucket_invariant_preserved h b 3 1 [1; 2]%positive Hinv)
    as (_ & Henqueue & _ & Hdequeue).
  split; [|exact Hdequeue].
  apply (Henqueue 3%positive (mkThreadData 3 true 106 None)); try done.
  by intros [[=]|[[=]|?%elem_of_nil]%elem_of_cons]%elem_of_cons.
Defined.
End BucketInvariantExample.

(** ** Hashtable growth *)

Section Growth.
Context `{PtrHash}.

(** Claim C8: when the load factor holds, [ensureHashtableSize(numThreads)]
    leaves the spine as it is.  When it does not hold and
    [6 * numThreads] fits in an [unsigned], the call rehashes: the new
    size is [numThreads * growthFactor * maxLoadFactor = 6 * numThreads],
    it is greater than the old size, and the load factor holds for the
    new table.  Without the bound the product is an [unsigned] one, and the
    call returns only past [RELEASE_ASSERT(newSize > oldHashtable->size)],
    with a table greater than the old one. *)
Theorem ensureHashtableSize_growth n st t :
  WellFormed st → hashtable st = Some t → 0 ≤ n →
  (loadFactorReached (Hashtable.size t) n = true → ensureHashtableSize n st = Some st) ∧
  (loadFactorReached (Hashtable.size t) n = false → 6 * n < 2 ^ 32 →
     ∃ st', ensureHashtableSize n st = Some st' ∧
       tableSize st' = n * growthFactor * maxLoadFactor ∧
       tableSize st' = 6 * n ∧
       Hashtable.size t < tableSize st' ∧
       loadFactorReached (tableSize st') n = true) ∧
  (loadFactorReached (Hashtable.size t) n = false →
     match ensureHashtableSize n st with
     | Some st' =>
         tableSize st' = wrapUnsigned (wrapUnsigned (n * growthFactor) * maxLoadFactor) ∧
         Hashtable.size t < tableSize st'
     | None =>
         wrapUnsigned (wrapUnsigned (n * growthFactor) * maxLoadFactor) ≤ Hashtable.size t
     end).
Proof.
  intros Hwf Ht Hn. pose proof (ensureHashtableSize_spec n st Hwf) as Hspec.
  unfold noNeedToRehash in Hspec. rewrite Ht in Hspec. simpl in Hspec.
  split_and!.
  - intros Hload. by rewrite Hload in Hspec.
  - intros Hload Hfit. rewrite Hload in Hspec.
    unfold growthFactor, maxLoadFactor in *.
    rewrite !wrapUnsigned_small in Hspec by (rewrite ?wrapUnsigned_small; lia).
    unfold loadFactorReached, maxLoadFactor in Hload.
    destruct (n =? 0) eqn:Hzero.
    { pose proof Hwf as Hwf'. unfold WellFormed in Hwf'. rewrite Ht in Hwf'.
      pose proof (table_size _ _ _ Hwf'). lia. }
    assert (Hashtable.size t < n * 2 * 3) as Hgrow by lia.
    rewrite (proj2 (Z.ltb_lt _ _) Hgrow) in Hspec.
    destruct Hspec as (st' & Hrun & _ & Hsize). exists st'. rewrite Hsize.
    split_and!; [done|done|lia|done|].
    unfold loadFactorReached, maxLoadFactor. rewrite Hzero. lia.
  - intros Hload. rewrite Hload in Hspec.
    destruct (Hashtable.size t <? _) eqn:Hgrow.
    + destruct Hspec as (st' & -> & _ & ->). apply Z.ltb_lt in Hgrow. done.
    + rewrite Hspec. by apply Z.ltb_ge in Hgrow.
Qed.
End Growth.

Section GrowthExample.
#[local] Existing Instance identityHash.

(** A fifth thread makes the 12-slot table of [fourWaiters] grow to 30
    slots. *)
Lemma ensureHashtableSize_growth_witness :
  (WellFormed fourWaiters ∧ tableSize fourWaiters = 12) ∧
  ∃ st', ensureHashtableSize 5 fourWaiters = Some st' ∧
    tableSize st' = 5 * growthFactor * maxLoadFactor ∧
    tableSize st' = 6 * 5 ∧
    12 < tableSize st' ∧
    loadFactorReached (tableSize st') 5 = true.
Proof.
  split; [split; [apply fourWaiters_wf|vm_compute; reflexivity]|].
  assert (Hashtable.size <$> hashtable fourWaiters = Some 12) as Hsize
    by (vm_compute; reflexivity).
  destruct (hashtable fourWaiters) as [t|] eqn:Ht; [|done]. injection Hsize as Hsize.
  destruct (ensureHashtableSize_growth 5 fourWaiters t fourWaiters_wf Ht ltac:(lia))
    as (_ & Hgrow & _).
  rewrite Hsize in Hgrow. apply Hgrow; [done|lia].
Defined.
End GrowthExample.

(** ** [LockBase::unlock] *)

(** Claim C9: the fast path of [unlock()] releases the lock only when the
    byte is exactly [isHeldBit], that is, the lock is held and
    [hasParkedBit] is clear, and it then stores 0; whenever [hasParkedBit]
    is set the compare-and-swap fails, the byte stays, and [unlockSlow()] is
    called. *)
Theorem unlock_fast_path spurious m_byte :
  (∀ m_byte', LockBase.unlock spurious m_byte = LockBase.Released m_byte' →
     m_byte = LockBase.isHeldBit ∧
     Z.land m_byte LockBase.isHeldBit ≠ 0 ∧
     Z.land m_byte LockBase.hasParkedBit = 0 ∧
     m_byte' = 0) ∧
  (Z.land m_byte LockBase.hasParkedBit ≠ 0 →
     LockBase.unlock spurious m_byte = LockBase.UnlockSlow m_byte) ∧
  LockBase.unlock false LockBase.isHeldBit = LockBase.Released 0.
Proof.
  unfold LockBase.unlock, LockBase.compareExchangeWeak. split_and!; [| |done].
  - intros m_byte'. destruct (m_byte =? LockBase.isHeldBit) eqn:Heq; [|done].
    apply Z.eqb_eq in Heq as ->. by destruct spurious; [|intros [= <-]].
  - intros Hparked. destruct (m_byte =? LockBase.isHeldBit) eqn:Heq; [|done].
    apply Z.eqb_eq in Heq as ->. done.
Qed.

Lemma unlock_fast_path_witness :
  Z.land 3 LockBase.hasParkedBit ≠ 0 ∧
  LockBase.unlock false 3 = LockBase.UnlockSlow 3 ∧
  LockBase.unlock false 1 = LockBase.Released 0.
Proof.
  destruct (unlock_fast_path false 3) as (_ & Hslow & Hfast).
  split; [done|]. split; [by apply Hslow|exact Hfast].
Defined.

(** ** A rehash keeps the order of the waiters *)

Section RehashOrder.
Context `{PtrHash}.

(** Claim C10: when [ensureHashtableSize] rehashes, the records parked on
    any one address are, in the new hashtable, the same records in the
    same queue order as before the rehash. *)
Theorem rehash_preserves_order n st :
  WellFormed st →
  noNeedToRehash st n = false →
  loadFactorReached
    (Hashtable.size (default (Hashtable.create maxLoadFactor) (hashtable st))) n = false →
  Hashtable.size (default (Hashtable.create maxLoadFactor) (hashtable st))
    < wrapUnsigned (wrapUnsigned (n * growthFactor) * maxLoadFactor) →
  ∃ st', ensureHashtableSize n st = Some st' ∧
    tableSize st' = wrapUnsigned (wrapUnsigned (n * growthFactor) * maxLoadFactor) ∧
    WellFormed st' ∧
    sameRecords (heap st) (heap st') ∧
    (∀ p, enqueued st' p ↔ enqueued st p) ∧
    (∀ a, parkedOn st' a = parkedOn st a).
Proof.
  intros Hwf Hfast Hload Hgrow.
  pose proof (ensureHashtableSize_spec n st Hwf) as Hspec. simpl in Hspec.
  rewrite Hfast, Hload in Hspec. rewrite (proj2 (Z.ltb_lt _ _) Hgrow) in Hspec.
  destruct Hspec as (st' & Hrun & Hsame & Hsize). exists st'.
  destruct Hsame. by split_and!.
Qed.
End RehashOrder.

Section RehashOrderExample.
#[local] Existing Instance identityHash.

(** The rehash of [fourWaiters] for a fifth thread: the addresses 100 and
    112 shared a bucket of the 12-slot table and get buckets of their own
    in the 30-slot table. *)
Lemma rehash_preserves_order_witness :
  (WellFormed fourWaiters ∧ queueFor fourWaiters 100 = [1; 2; 3; 4]%positive) ∧
  ∃ st', ensureHashtableSize 5 fourWaiters = Some st' ∧
    tableSize st' = 30 ∧
    queueFor st' 100 = [1; 2; 4]%positive ∧
    queueFor st' 112 = [3%positive] ∧
    (∀ a, parkedOn st' a = parkedOn fourWaiters a).
Proof.
  split; [split; [apply fourWaiters_wf|vm_compute; reflexivity]|].
  destruct (rehash_preserves_order 5 fourWaiters fourWaiters_wf)
    as (st' & Hrun & Hsize & _ & _ & _ & Hparked); [vm_compute; reflexivity..|].
  assert (ensureHashtableSize 5 fourWaiters ≫= (λ st, Some (queueFor st 100, queueFor st 112))
          = Some ([1; 2; 4]%positive, [3%positive])) as Hqueues by (vm_compute; reflexivity).
  rewrite Hrun in Hqueues. injection Hqueues as H100 H112.
  exists st'. split; [exact Hrun|]. split; [rewrite Hsize; vm_compute; reflexivity|].
  split; [exact H100|]. split; [exact H112|exact Hparked].
Defined.
End RehashOrderExample.

(** * Further properties of the code *)

(** ** The fast paths of [LockBase] and [WordLock] *)

Lemma land_bit0_lor_2 m : Z.land (Z.lor m 2) 1 = Z.land m 1.
Proof.
  apply Z.bits_inj'. intros n Hn. rewrite !Z.land_spec, Z.lor_spec.
  destruct (decide (n = 0)) as [->|Hne]; [by rewrite orb_false_r|].
  rewrite (Z.bits_above_log2 1 n) by (simpl; lia). by rewrite !andb_false_r.
Qed.

(** Property X1.  [lock()] takes the lock on its fast path only from the byte
    0, that is, never while the lock is held or a thread is parked, and then
    the byte is [isHeldBit] and [isHeld()] is true; on any other byte it
    leaves the byte as it is and calls [lockSlow()].  A lock made by [Lock()]
    is not held. *)
Theorem lock_fast_path spurious m_byte :
  (∀ m_byte', LockBase.lock spurious m_byte = LockBase.Acquired m_byte' →
     m_byte = 0 ∧ LockBase.isHeld m_byte = false ∧
     m_byte' = LockBase.isHeldBit ∧ LockBase.isHeld m_byte' = true) ∧
  (m_byte ≠ 0 → LockBase.lock spurious m_byte = LockBase.LockSlow m_byte) ∧
  (LockBase.isHeld m_byte = true →
     LockBase.lock spurious m_byte = LockBase.LockSlow m_byte) ∧
  LockBase.lock false LockBase.newLock = LockBase.Acquired LockBase.isHeldBit ∧
  LockBase.isHeld LockBase.newLock = false.
Proof.
  unfold LockBase.lock, LockBase.compareExchangeWeak. split_and!; [| | |done|done].
  - intros m_byte'. destruct (m_byte =? 0) eqn:Heq; [|done].
    apply Z.eqb_eq in Heq as ->. by destruct spurious; [|intros [= <-]].
  - intros Hne. by rewrite (proj2 (Z.eqb_neq _ _) Hne).
  - intros Hheld. destruct (m_byte =? 0) eqn:Heq; [|done].
    apply Z.eqb_eq in Heq as ->. done.
Qed.

Lemma lock_fast_path_witness :
  (3 ≠ 0 ∧ LockBase.isHeld 3 = true) ∧
  LockBase.lock false 3 = LockBase.LockSlow 3 ∧
  LockBase.lock false 0 = LockBase.Acquired 1.
Proof.
  destruct (lock_fast_path false 3) as (_ & Hslow & _ & _).
  destruct (lock_fast_path false 0) as (_ & _ & _ & Hfast & _).
  split; [done|]. split; [by apply Hslow|exact Hfast].
Defined.

(** Property X2.  An uncontended [lock()] and [unlock()] undo each other:
    after a fast [lock()] a fast [unlock()] gives back the byte from before,
    and after a fast [unlock()] a fast [lock()] does; [isHeld()] looks at
    [isHeldBit] only, so setting [hasParkedBit] does not change it. *)
Theorem lock_unlock_round_trip spurious m_byte m_byte' :
  (LockBase.lock spurious m_byte = LockBase.Acquired m_byte' →
     LockBase.unlock false m_byte' = LockBase.Released m_byte ∧
     LockBase.isHeld m_byte' = true ∧ LockBase.isHeld m_byte = false) ∧
  (LockBase.unlock spurious m_byte = LockBase.Released m_byte' →
     LockBase.lock false m_byte' = LockBase.Acquired m_byte ∧
     LockBase.isHeld m_byte = true ∧ LockBase.isHeld m_byte' = false) ∧
  LockBase.isHeld (Z.lor m_byte LockBase.hasParkedBit) = LockBase.isHeld m_byte.
Proof.
  split_and!.
  - unfold LockBase.lock, LockBase.compareExchangeWeak.
    destruct (m_byte =? 0) eqn:Heq; [|done].
    apply Z.eqb_eq in Heq as ->. by destruct spurious; [|intros [= <-]].
  - unfold LockBase.unlock, LockBase.compareExchangeWeak.
    destruct (m_byte =? LockBase.isHeldBit) eqn:Heq; [|done].
    apply Z.eqb_eq in Heq as ->. by destruct spurious; [|intros [= <-]].
  - unfold LockBase.isHeld, LockBase.hasParkedBit, LockBase.isHeldBit.
    by rewrite land_bit0_lor_2.
Qed.

Lemma lock_unlock_round_trip_witness :
  LockBase.lock false 0 = LockBase.Acquired 1 ∧
  LockBase.unlock false 1 = LockBase.Released 0 ∧
  LockBase.isHeld 1 = true ∧ LockBase.isHeld 0 = false.
Proof.
  destruct (lock_unlock_round_trip false 0 1) as (Hround & _ & _).
  split; [done|]. by apply Hround.
Defined.

(** Property X3.  The fast paths of [WordLock]: [lock()] succeeds only on the
    word 0 and [unlock()] only on the word [isLockedBit], that is, when
    [isQueueLockedBit] is clear and no bit outside [queueHeadMask] (the queue
    head) is set; every other word is left as it is for the slow path.  A fast
    [lock()] and a fast [unlock()] undo each other. *)
Theorem wordLock_fast_paths spurious m_word :
  (∀ m_word', WordLock.lock spurious m_word = WordLock.Acquired m_word' →
     m_word = 0 ∧ m_word' = WordLock.isLockedBit ∧
     WordLock.isHeld m_word' = true ∧
     WordLock.unlock false m_word' = WordLock.Released m_word) ∧
  (∀ m_word', WordLock.unlock spurious m_word = WordLock.Released m_word' →
     m_word = WordLock.isLockedBit ∧ m_word' = 0 ∧
     Z.land m_word WordLock.isQueueLockedBit = 0 ∧
     Z.land m_word (Z.lnot WordLock.queueHeadMask) = 0 ∧
     WordLock.isHeld m_word' = false ∧
     WordLock.lock false m_word' = WordLock.Acquired m_word) ∧
  (WordLock.isHeld m_word = true →
     WordLock.lock spurious m_word = WordLock.LockSlow m_word) ∧
  (Z.land m_word WordLock.isQueueLockedBit ≠ 0 ∨
   Z.land m_word (Z.lnot WordLock.queueHeadMask) ≠ 0 →
     WordLock.unlock spurious m_word = WordLock.UnlockSlow m_word) ∧
  WordLock.isHeld WordLock.newWordLock = false.
Proof.
  unfold WordLock.lock, WordLock.unlock, LockBase.compareExchangeWeak.
  split_and!; [| | | |done].
  - intros m_word'. destruct (m_word =? 0) eqn:Heq; [|done].
    apply Z.eqb_eq in Heq as ->. by destruct spurious; [|intros [= <-]].
  - intros m_word'. destruct (m_word =? WordLock.isLockedBit) eqn:Heq; [|done].
    apply Z.eqb_eq in Heq as ->. by destruct spurious; [|intros [= <-]].
  - intros Hheld. destruct (m_word =? 0) eqn:Heq; [|done].
    apply Z.eqb_eq in Heq as ->. done.
  - intros Hbits. destruct (m_word =? WordLock.isLockedBit) eqn:Heq; [|done].
    apply Z.eqb_eq in Heq as ->. by destruct Hbits.
Qed.

Lemma wordLock_fast_paths_witness :
  (WordLock.isHeld 1 = true ∧ Z.land 9 (Z.lnot WordLock.queueHeadMask) ≠ 0) ∧
  WordLock.lock false 1 = WordLock.LockSlow 1 ∧
  WordLock.unlock false 9 = WordLock.UnlockSlow 9.
Proof.
  destruct (wordLock_fast_paths false 1) as (_ & _ & Hlock & _).
  destruct (wordLock_fast_paths false 9) as (_ & _ & _ & Hunlock & _).
  split; [done|]. split; [by apply Hlock|]. apply Hunlock. by right.
Defined.

(** ** [lockHashtable] *)

Lemma materializeAll_filled n : ∀ bs t found,
  (∀ j, is_Some (Hashtable.data t !! j) →
        is_Some (Hashtable.data (materializeAll n bs t found).2 !! j)) ∧
  (∀ j, 0 ≤ j < Z.of_nat n →
        is_Some (Hashtable.data (materializeAll n bs t found).2 !! j)).
Proof.
  induction n as [|n IH]; intros bs t found; [split; [done|lia]|].
  cbn [materializeAll]. unfold materializeBucket, newBucket.
  destruct (Hashtable.data t !! Z.of_nat n) as [bucket|] eqn:Hslot.
  - destruct (IH bs t (found ++ [bucket])) as [Hkeep Hfill]. split; [done|].
    intros j Hj. destruct (decide (j = Z.of_nat n)) as [->|Hne].
    + apply Hkeep. by rewrite Hslot.
    + apply Hfill. lia.
  - set (bucket := fresh (dom bs)).
    destruct (IH (<[bucket := emptyBucket]> bs) (Hashtable.store (Z.of_nat n) bucket t)
                 (found ++ [bucket])) as [Hkeep Hfill].
    split.
    + intros j Hj. apply Hkeep. simpl. destruct (decide (Z.of_nat n = j)) as [<-|Hne].
      * by rewrite lookup_insert_eq.
      * by rewrite lookup_insert_ne.
    + intros j Hj. destruct (decide (j = Z.of_nat n)) as [->|Hne].
      * apply Hkeep. simpl. by rewrite lookup_insert_eq.
      * apply Hfill. lia.
Qed.

Lemma lockHashtable_unfold st :
  let t := default (Hashtable.create maxLoadFactor) (hashtable st) in
  let r := materializeAll (Z.to_nat (Hashtable.size t)) (buckets st) t [] in
  lockHashtable st = (merge_sort Pos.le r.1.1, withTable r.1.2 r.2 st).
Proof.
  unfold lockHashtable.
  assert (default (Hashtable.create maxLoadFactor) (hashtable st)
          = match hashtable st with
            | Some t => t
            | None => Hashtable.create maxLoadFactor
            end) as <- by (by destruct (hashtable st)).
  simpl.
  by destruct (materializeAll _ (buckets st) _ []) as [[found bs] t'].
Qed.

Section LockHashtable.
Context `{PtrHash}.

Lemma lockHashtable_full st :
  WellFormed st →
  ∃ bucketsToUnlock st' t',
    lockHashtable st = (bucketsToUnlock, st') ∧
    hashtable st' = Some t' ∧
    Hashtable.size t'
      = match hashtable st with Some t => Hashtable.size t | None => maxLoadFactor end ∧
    Sorted Pos.le bucketsToUnlock ∧ NoDup bucketsToUnlock ∧
    (∀ i, 0 ≤ i < Hashtable.size t' →
       ∃ bucket, Hashtable.data t' !! i = Some bucket ∧ bucket ∈ bucketsToUnlock ∧
                 is_Some (buckets st' !! bucket)) ∧
    (∀ bucket, bucket ∈ bucketsToUnlock → ∃ i, Hashtable.data t' !! i = Some bucket) ∧
    TableInvariant (heap st) (buckets st') t' ∧
    heap st' = heap st ∧ numThreads st' = numThreads st ∧
    threadData st' = threadData st ∧ notified st' = notified st ∧
    (∀ i, queueAt st' i = queueAt st i).
Proof.
  intros Hwf.
  destruct (lockHashtable_spec st Hwf)
    as (sorted & bs' & t' & Hrun & Hinv & Hsize & Hsorted & Hnd & Hqueues).
  pose proof (lockHashtable_unfold st) as Hunfold. simpl in Hunfold.
  set (t := default (Hashtable.create maxLoadFactor) (hashtable st)) in *.
  pose proof (materializeAll_filled (Z.to_nat (Hashtable.size t)) (buckets st) t [])
    as [_ Hfilled].
  rewrite Hrun in Hunfold. injection Hunfold as Hs Hbs Ht'.
  rewrite <- Ht' in Hfilled.
  exists sorted, (withTable bs' t' st), t'. split_and!; try done.
  - rewrite Hsize. unfold t. by destruct (hashtable st).
  - rewrite Hs. apply Sorted_merge_sort. apply _.
  - intros i Hi. destruct (Hfilled i) as [bucket Hbucket]; [rewrite Hsize in Hi; lia|].
    exists bucket. split_and!; [done|apply Hsorted; eauto|].
    by apply (table_bucket_dom _ _ _ _ _ Hinv Hbucket).
  - intros bucket. apply Hsorted.
  - intros i. destruct (table_queues _ _ _ Hinv i) as (l & Hl & _).
    rewrite (Hqueues i l Hl). by apply (queueAt_slotQueue _ t').
Qed.

(** Property X4.  [lockHashtable()] returns the buckets to lock in ascending
    order of their addresses and without repetition, which is the order in
    which it locks them; they are exactly the buckets of the hashtable, and
    every slot of the hashtable holds a bucket afterwards.  The hashtable is
    the one that was there, or a new one of [maxLoadFactor] slots when there
    was none.  No thread data and no queue changes. *)
Theorem lockHashtable_locks_every_bucket st :
  WellFormed st →
  ∃ bucketsToUnlock st' t',
    lockHashtable st = (bucketsToUnlock, st') ∧
    hashtable st' = Some t' ∧
    Hashtable.size t'
      = match hashtable st with Some t => Hashtable.size t | None => maxLoadFactor end ∧
    Sorted Pos.le bucketsToUnlock ∧ NoDup bucketsToUnlock ∧
    (∀ i, 0 ≤ i < Hashtable.size t' →
       ∃ bucket, Hashtable.data t' !! i = Some bucket ∧ bucket ∈ bucketsToUnlock ∧
                 is_Some (buckets st' !! bucket)) ∧
    (∀ bucket, bucket ∈ bucketsToUnlock → ∃ i, Hashtable.data t' !! i = Some bucket) ∧
    WellFormed st' ∧
    heap st' = heap st ∧ threadData st' = threadData st ∧ notified st' = notified st ∧
    (∀ i, queueAt st' i = queueAt st i).
Proof.
  intros Hwf.
  destruct (lockHashtable_full st Hwf)
    as (sorted & st' & t' & Hrun & Ht' & Hsize & Hsorted & Hnd & Hfilled & Hin & Hinv
        & Hheap & _ & Htd & Hlog & Hat).
  exists sorted, st', t'. split_and!; try done.
  unfold WellFormed. rewrite Ht', Hheap. done.
Qed.
End LockHashtable.

(** ** [ParkingLot::forEach] *)

Lemma elem_of_slotsDescending n i : i ∈ slotsDescending n ↔ 0 ≤ i < n.
Proof.
  unfold slotsDescending. rewrite list_elem_of_fmap. split.
  - intros (k & -> & Hk). rewrite elem_of_reverse, elem_of_seq in Hk. lia.
  - intros Hi. exists (Z.to_nat i). split; [lia|].
    rewrite elem_of_reverse, elem_of_seq. lia.
Qed.

Lemma NoDup_slotsDescending n : NoDup (slotsDescending n).
Proof.
  unfold slotsDescending. apply NoDup_fmap; [intros i j; lia|].
  rewrite reverse_Permutation. apply NoDup_seq.
Qed.

Section ForEach.
Context `{PtrHash} {A : Type} (callback : positive → Z → A → A).

Lemma forEachInQueue_spec h l : ∀ from acc fuel,
  lseg h from l None → (length l ≤ fuel)%nat →
  ParkingLot.forEachInQueue callback fuel h from acc
  = Some (foldl (callOn callback h) acc l).
Proof.
  induction l as [|p l IH]; intros from acc fuel Hl Hfuel.
  - simpl in Hl. subst from. by destruct fuel.
  - destruct Hl as (-> & td & Htd & Hrest). destruct fuel as [|fuel]; [simpl in Hfuel; lia|].
    cbn [ParkingLot.forEachInQueue]. rewrite Htd. cbn [mbind option_bind].
    rewrite (IH _ _ fuel Hrest) by (simpl in Hfuel; lia).
    assert (callOn callback h acc p
            = callback (threadIdentifier td) (ThreadData.address td) acc) as Hcall
      by (unfold callOn; by rewrite Htd).
    cbn [foldl]. by rewrite Hcall.
Qed.

Lemma forEachBucket_spec h bs t (queue : Z → list ThreadDataPtr) :
  TableInvariant h bs t →
  (∀ i l, slotQueue h bs t i l → queue i = l) →
  ∀ n acc,
    ParkingLot.forEachBucket callback n h bs t acc
    = Some (foldl (callOn callback h) acc
              (mjoin (queue <$> ((λ i : nat, Z.of_nat i) <$> reverse (seq 0 n))))).
Proof.
  intros Hinv Hqueue. induction n as [|n IH]; intros acc; [done|].
  rewrite seq_S, reverse_snoc. cbn [fmap list_fmap mjoin list_join plus].
  rewrite foldl_app. cbn [ParkingLot.forEachBucket].
  destruct (table_queues _ _ _ Hinv (Z.of_nat n)) as (l & Hl & _).
  rewrite (Hqueue _ l Hl). unfold slotQueue in Hl.
  destruct (Hashtable.data t !! Z.of_nat n) as [bucket|].
  - destruct Hl as (b & -> & Hq). cbn [mbind option_bind].
    rewrite (forEachInQueue_spec h l) by (apply Hq || by eapply isQueue_length).
    cbn [mbind option_bind]. apply IH.
  - subst l. apply IH.
Qed.

Lemma forEach_spec st acc :
  WellFormed st →
  ∃ st',
    ParkingLot.forEach callback st acc
    = Some (st', foldl (callOn callback (heap st)) acc (visited st')) ∧
    NoDup (visited st') ∧
    (∀ p, p ∈ visited st' ↔ enqueued st p) ∧
    WellFormed st' ∧ is_Some (hashtable st') ∧
    heap st' = heap st ∧ threadData st' = threadData st ∧ notified st' = notified st ∧
    numThreads st' = numThreads st ∧
    (∀ i, queueAt st' i = queueAt st i) ∧
    tableSize st'
    = match hashtable st with Some t => Hashtable.size t | None => maxLoadFactor end.
Proof.
  intros Hwf. unfold ParkingLot.forEach.
  destruct (lockHashtable_full st Hwf)
    as (sorted & st' & t' & -> & Ht' & Hsize & _ & _ & _ & _ & Hinv & Hheap & Hn & Htd
        & Hlog & Hat).
  rewrite Ht'. cbn [mbind option_bind]. rewrite Hheap.
  assert (∀ i l, slotQueue (heap st) (buckets st') t' i l → queueAt st' i = l) as Hqueue.
  { intros i l Hl. apply (queueAt_slotQueue _ t'); [done|]. by rewrite Hheap. }
  rewrite (forEachBucket_spec (heap st) (buckets st') t' (queueAt st') Hinv Hqueue).
  cbn [mbind option_bind].
  assert (visited st'
          = mjoin (queueAt st' <$> ((λ i : nat, Z.of_nat i)
                     <$> reverse (seq 0 (Z.to_nat (Hashtable.size t')))))) as Hvisited
    by (unfold visited, slotsDescending, tableSize; by rewrite Ht').
  rewrite <- Hvisited. exists st'. split_and!; try done.
  - unfold visited. apply NoDup_join; [apply NoDup_slotsDescending| |].
    + intros i _. destruct (table_queues _ _ _ Hinv i) as (l & Hl & _).
      rewrite (Hqueue i l Hl). unfold slotQueue in Hl.
      destruct (Hashtable.data t' !! i); [|subst l; constructor].
      by destruct Hl as (b & _ & Hnd & _).
    + intros i j p _ _ Hne. destruct (table_queues _ _ _ Hinv i) as (li & Hli & _).
      destruct (table_queues _ _ _ Hinv j) as (lj & Hlj & _).
      rewrite (Hqueue i li Hli), (Hqueue j lj Hlj). by eapply table_disjoint.
  - intros p. unfold visited, enqueued. rewrite list_elem_of_join. split.
    + intros (l & Hp & (i & -> & _)%list_elem_of_fmap). exists i. by rewrite <- Hat.
    + intros [i Hp]. rewrite <- Hat in Hp. exists (queueAt st' i). split; [done|].
      apply list_elem_of_fmap. exists i. split; [done|].
      apply elem_of_slotsDescending. unfold tableSize. rewrite Ht'. simpl.
      unfold queueAt in Hp. rewrite Ht' in Hp.
      destruct (Hashtable.data t' !! i) as [bucket|] eqn:Hbucket;
        [|by apply elem_of_nil in Hp].
      by apply (table_range _ _ _ Hinv i bucket).
  - unfold WellFormed. by rewrite Ht', Hheap.
  - unfold tableSize. by rewrite Ht'.
Qed.

(** Property X5.  [forEach(callback)] calls the callback exactly once for
    every thread data that is in a queue, with its [threadIdentifier] and
    [address], and for no other: bucket by bucket from the last slot of the
    hashtable to the first, and within a bucket from the head of the queue to
    its tail.  It makes the hashtable if there is none, and changes no thread
    data and no queue. *)
Theorem forEach_visits_each_once st acc :
  WellFormed st →
  ∃ st',
    ParkingLot.forEach callback st acc
    = Some (st', foldl (callOn callback (heap st)) acc (visited st')) ∧
    NoDup (visited st') ∧
    (∀ p, p ∈ visited st' ↔ enqueued st p) ∧
    WellFormed st' ∧ is_Some (hashtable st') ∧
    heap st' = heap st ∧ threadData st' = threadData st ∧ notified st' = notified st ∧
    (∀ i, queueAt st' i = queueAt st i).
Proof.
  intros Hwf.
  destruct (forEach_spec st acc Hwf)
    as (st' & Hrun & Hnd & Hin & Hwf' & Ht' & Hheap & Htd & Hlog & _ & Hat & _).
  exists st'. by split_and!.
Qed.
End ForEach.

(** ** What a rehash leaves alone *)

Lemma bucketAt_tails P i bs t reusable bucket bs1 t1 reusable1 :
  tailsIn P bs t reusable →
  bucketAt i bs t reusable = (bucket, bs1, t1, reusable1) →
  tailsIn P bs1 t1 reusable1 ∧ Hashtable.data t1 !! i = Some bucket.
Proof.
  intros Htails. unfold bucketAt.
  destruct (Hashtable.data t !! i) as [bucket0|] eqn:Hslot.
  { intros [= <- <- <- <-]. done. }
  destruct (takeLast reusable) as [[bucket0 reusable']|] eqn:Hlast.
  - apply takeLast_Some in Hlast as ->. intros [= <- <- <- <-]. split.
    + intros bucket' b q Hin Hb Hq. apply (Htails bucket' b q); [|done..].
      destruct Hin as [Hin|[j Hj]]; [left; apply elem_of_app; by left|].
      simpl in Hj. destruct (decide (i = j)) as [<-|Hne].
      * rewrite lookup_insert_eq in Hj. injection Hj as <-.
        left. apply elem_of_app. right. apply list_elem_of_here.
      * rewrite lookup_insert_ne in Hj by done. right. eauto.
    + simpl. by rewrite lookup_insert_eq.
  - unfold newBucket. intros [= <- <- <- <-]. split.
    + intros bucket' b q Hin Hb Hq.
      destruct (decide (bucket' = fresh (dom bs))) as [->|Hne].
      * rewrite lookup_insert_eq in Hb. by injection Hb as <-.
      * rewrite lookup_insert_ne in Hb by done. apply (Htails bucket' b q); [|done..].
        destruct Hin as [Hin|[j Hj]]; [by left|]. simpl in Hj.
        destruct (decide (i = j)) as [<-|Hij].
        -- rewrite lookup_insert_eq in Hj. by injection Hj as <-.
        -- rewrite lookup_insert_ne in Hj by done. right. eauto.
    + simpl. by rewrite lookup_insert_eq.
Qed.

Section RehashFrame.
Context `{PtrHash}.

(** The loop of [ensureHashtableSize] that fills the new table writes only
    to records that are queue tails on the way. *)
Lemma rehash_frame (P : ThreadDataPtr → Prop) threadDatas :
  ∀ h bs t reusable h' bs' t' reusable',
  tailsIn P bs t reusable →
  (∀ q, q ∈ threadDatas → P q) →
  rehash threadDatas h bs t reusable = Some (h', bs', t', reusable') →
  ∀ q, ¬ P q → h' !! q = h !! q.
Proof.
  induction threadDatas as [|threadData rest IH];
    intros h bs t reusable h' bs' t' reusable' Htails Hin Hrun q Hq.
  { simpl in Hrun. by injection Hrun as <- _ _ _. }
  cbn [rehash] in Hrun.
  destruct (h !! threadData) as [td|] eqn:Htd; [|done]. cbn [mbind option_bind] in Hrun.
  destruct (Hashtable.size t =? 0); [done|].
  destruct (bucketAt (hashAddress (address td) `mod` Hashtable.size t) bs t reusable)
    as [[[bucket bs1] t1] reusable1] eqn:Hat.
  destruct (bucketAt_tails P _ _ _ _ _ _ _ _ Htails Hat) as [Htails1 Hbucket].
  destruct (bs1 !! bucket) as [b|] eqn:Hb; [|done]. cbn [mbind option_bind] in Hrun.
  destruct (Bucket.enqueue h b threadData) as [[h1 b1]|] eqn:Henq; [|done].
  cbn [mbind option_bind] in Hrun.
  assert (h1 !! q = h !! q ∧ queueTail b1 = Some threadData) as [Hstep Htail1].
  { unfold Bucket.enqueue in Henq. destruct (queueTail b) as [tl|] eqn:Htl.
    - unfold storeNext in Henq. destruct (h !! tl) as [tdtl|]; [|done].
      injection Henq as <- <-. split; [|done]. rewrite lookup_insert_ne; [done|].
      intros <-. apply Hq. apply (Htails1 bucket b tl); [right; eauto|done|done].
    - by injection Henq as <- <-. }
  rewrite <- Hstep.
  apply (IH h1 (<[bucket := b1]> bs1) t1 reusable1 h' bs' t' reusable'); [| |done|done].
  - intros bucket' b' q' Hin' Hb' Hq'.
    destruct (decide (bucket' = bucket)) as [->|Hne].
    + rewrite lookup_insert_eq in Hb'. injection Hb' as <-.
      rewrite Htail1 in Hq'. injection Hq' as <-. apply Hin, list_elem_of_here.
    + rewrite lookup_insert_ne in Hb' by done. by apply (Htails1 bucket' b' q').
  - intros q' Hq'. by apply Hin, list_elem_of_further.
Qed.

Lemma ensureHashtableSize_cases n st st' :
  WellFormed st → ensureHashtableSize n st = Some st' →
  (st' = st ∨ sameWaiters st st') ∧ tableSize st ≤ tableSize st'.
Proof.
  intros Hwf Hrun. pose proof (ensureHashtableSize_spec n st Hwf) as Hspec.
  simpl in Hspec.
  set (old := default (Hashtable.create maxLoadFactor) (hashtable st)) in *.
  assert (tableSize st ≤ Hashtable.size old) as Hold.
  { unfold tableSize, old. destruct (hashtable st); simpl; [lia|].
    unfold maxLoadFactor. lia. }
  destruct (noNeedToRehash st n).
  { rewrite Hspec in Hrun. injection Hrun as <-. split; [by left|lia]. }
  destruct (loadFactorReached (Hashtable.size old) n).
  { destruct Hspec as (st'' & Hrun' & Hsame & Hsize). rewrite Hrun' in Hrun.
    injection Hrun as <-. split; [by right|lia]. }
  destruct (Hashtable.size old <? _) eqn:Hgrow.
  - destruct Hspec as (st'' & Hrun' & Hsame & Hsize). rewrite Hrun' in Hrun.
    injection Hrun as <-. apply Z.ltb_lt in Hgrow. split; [by right|lia].
  - congruence.
Qed.

Lemma ensureHashtableSize_frame n st st' :
  WellFormed st → ensureHashtableSize n st = Some st' →
  ∀ q, ¬ enqueued st q → heap st' !! q = heap st !! q.
Proof.
  intros Hwf Hrun q Hq. unfold ensureHashtableSize in Hrun.
  destruct (noNeedToRehash st n); [by injection Hrun as <-|].
  destruct (lockHashtable_full st Hwf)
    as (sorted & st1 & t1 & Hlock & Ht1 & _ & _ & Hnd & _ & Hsorted & Hinv & Hheap & _ & _
        & _ & Hat).
  rewrite Hlock in Hrun.
  destruct (noNeedToRehash st1 n); [injection Hrun as <-; by rewrite Hheap|].
  rewrite Ht1 in Hrun. cbn [mbind option_bind] in Hrun. rewrite Hheap in Hrun.
  set (queue := λ bucket : BucketPtr,
         match buckets st1 !! bucket with
         | Some b => queueOrder (heap st) b
         | None => []
         end).
  assert (∀ j bucket, Hashtable.data t1 !! j = Some bucket →
            ∃ b, buckets st1 !! bucket = Some b ∧ isQueue (heap st) b (queue bucket) ∧
                 slotQueue (heap st) (buckets st1) t1 j (queue bucket)) as Hqueue.
  { intros j bucket Hj. destruct (table_queues _ _ _ Hinv j) as (l & Hl & _).
    pose proof Hl as Hl'. unfold slotQueue in Hl'. rewrite Hj in Hl'.
    destruct Hl' as (b & Hb & Hb'). exists b. unfold queue. rewrite Hb.
    rewrite (isQueue_order _ _ _ Hb'). done. }
  assert (∀ p, p ∈ mjoin (queue <$> sorted) → enqueued st p) as Hmember.
  { intros p (l & Hp & (bucket & -> & [j Hj]%Hsorted)%list_elem_of_fmap)%list_elem_of_join.
    destruct (Hqueue j bucket Hj) as (_ & _ & _ & Hs). exists j. rewrite <- Hat.
    rewrite (queueAt_slotQueue st1 t1 j (queue bucket)); [done|done|]. by rewrite Hheap. }
  destruct (drainBuckets_spec queue sorted (heap st) (buckets st1) [] Hnd)
    as (h1 & bs1 & Hdrain & Hempty & _ & _ & _ & Hout1).
  { intros bucket [j Hj]%Hsorted. destruct (Hqueue j bucket Hj) as (b & ? & ? & _). eauto. }
  { intros b1 b2 p [j1 Hj1]%Hsorted [j2 Hj2]%Hsorted Hne.
    destruct (Hqueue j1 b1 Hj1) as (_ & _ & _ & Hs1).
    destruct (Hqueue j2 b2 Hj2) as (_ & _ & _ & Hs2).
    eapply table_disjoint; [done..|]. intros ->. congruence. }
  simpl in Hdrain. rewrite Hdrain in Hrun. cbn [mbind option_bind] in Hrun.
  destruct (negb _); [done|].
  destruct (rehash _ h1 bs1 _ sorted) as [[[[h2 bs2] filled] reusable2]|] eqn:Hrehash;
    [|done].
  cbn [mbind option_bind] in Hrun. destruct (placeLeftovers _ _ _ _) as [final leftover].
  injection Hrun as <-. simpl.
  assert (q ∉ mjoin (queue <$> sorted)) as Hnotin by (intros Hin; by apply Hq, Hmember).
  rewrite <- (Hout1 q Hnotin).
  eapply (rehash_frame (λ p, p ∈ mjoin (queue <$> sorted))); [|by intros p Hp|done|done].
  intros bucket b p [Hin|[j Hj]] Hb Hp; [|simpl in Hj; by rewrite lookup_empty in Hj].
  destruct (Hempty bucket Hin) as (b0 & Hb0 & _ & Htail). congruence.
Qed.

Lemma ensureHashtableSize_total n st :
  WellFormed st → 0 ≤ n → 6 * n < 2 ^ 32 → is_Some (ensureHashtableSize n st).
Proof.
  intros Hwf Hn0 Hn1. pose proof (ensureHashtableSize_spec n st Hwf) as Hspec.
  simpl in Hspec.
  set (old := default (Hashtable.create maxLoadFactor) (hashtable st)) in *.
  assert (0 < Hashtable.size old) as Hold.
  { unfold old. unfold WellFormed in Hwf. destruct (hashtable st) as [t|]; simpl.
    - by apply (table_size _ _ _ Hwf).
    - unfold maxLoadFactor. lia. }
  destruct (noNeedToRehash st n); [by eexists|].
  destruct (loadFactorReached (Hashtable.size old) n) eqn:Hok.
  { destruct Hspec as (st' & -> & _). by eexists. }
  assert (wrapUnsigned (wrapUnsigned (n * growthFactor) * maxLoadFactor) = 6 * n) as Hnew.
  { unfold growthFactor, maxLoadFactor.
    rewrite !wrapUnsigned_small by (rewrite ?wrapUnsigned_small; lia). lia. }
  rewrite Hnew in Hspec. unfold loadFactorReached, maxLoadFactor in Hok.
  destruct (n =? 0) eqn:Hz; [lia|].
  destruct (Hashtable.size old <? 6 * n) eqn:Hgrow; [|lia].
  destruct Hspec as (st' & -> & _). by eexists.
Qed.

(** Property X6.  [ensureHashtableSize] returns whenever [6 * numThreads] fits
    in an [unsigned], and whenever it returns it has moved thread datas
    between queues and nothing else: every thread data has the fields it had,
    but for the [nextInQueue] links of those that are in a queue; the same
    thread datas are in a queue; those parked on an address are the same, in
    the same order; and the hashtable is not smaller than before. *)
Theorem ensureHashtableSize_only_relinks n st :
  WellFormed st →
  (0 ≤ n → 6 * n < 2 ^ 32 → is_Some (ensureHashtableSize n st)) ∧
  ∀ st', ensureHashtableSize n st = Some st' →
    WellFormed st' ∧
    tableSize st ≤ tableSize st' ∧
    sameRecords (heap st) (heap st') ∧
    (∀ q, ¬ enqueued st q → heap st' !! q = heap st !! q) ∧
    (∀ q, enqueued st' q ↔ enqueued st q) ∧
    (∀ a, parkedOn st' a = parkedOn st a) ∧
    numThreads st' = numThreads st ∧ threadData st' = threadData st ∧
    notified st' = notified st.
Proof.
  intros Hwf. split.
  - intros Hn0 Hn1. by apply ensureHashtableSize_total.
  - intros st' Hrun.
    destruct (ensureHashtableSize_cases n st st' Hwf Hrun) as [Hcases Hsize].
    pose proof (ensureHashtableSize_frame n st st' Hwf Hrun) as Hframe.
    destruct Hcases as [->|[]]; [|done].
    by split_and!.
Qed.
End RehashFrame.

(** ** What an unpark changes *)

Lemma filter_all {T} (P : T → Prop) `{!∀ x, Decision (P x)} (l : list T) :
  (∀ x, x ∈ l → P x) → filter P l = l.
Proof.
  induction l as [|x l IH]; intros Hall; [done|]. rewrite filter_cons.
  rewrite decide_True by apply Hall, list_elem_of_here.
  f_equal. apply IH. intros y Hy. by apply Hall, list_elem_of_further.
Qed.

Lemma sameRecords_shouldPark h h' p :
  sameRecords h h' → shouldPark <$> h' !! p = shouldPark <$> h !! p.
Proof.
  intros Hs. specialize (Hs p).
  destruct (h' !! p) as [[]|], (h !! p) as [[]|]; simplify_eq/=; done.
Qed.

Section SelectRemoved.
Context {A : Type} (functor : ThreadDataPtr → ThreadData → A → DequeueResult * A).

Lemma select_removed_subset h l acc p : p ∈ (select functor h l acc).1.2 → p ∈ l.
Proof.
  revert acc. induction l as [|q l IH]; intros acc; simpl; [done|].
  destruct (h !! q) as [td|]; [|by intros ?%elem_of_nil].
  destruct (functor q td acc) as [[] acc']; simpl.
  - specialize (IH acc'). destruct (select functor h l acc') as [[kept removed] a].
    simpl in *. right; auto.
  - specialize (IH acc'). destruct (select functor h l acc') as [[kept removed] a].
    simpl in *. intros [->|Hp]%elem_of_cons; [left|right; auto].
  - intros ->%list_elem_of_singleton. left.
Qed.

Lemma select_kept_filter h l acc :
  NoDup l → (∀ p, p ∈ l → is_Some (h !! p)) →
  (select functor h l acc).1.1 = filter (λ q, q ∉ (select functor h l acc).1.2) l.
Proof.
  revert acc. induction l as [|q l IH]; intros acc Hnd Hdom; [done|].
  apply NoDup_cons in Hnd as [Hq Hnd].
  assert (∀ r, r ∈ l → is_Some (h !! r)) as Hdom'
    by (intros r Hr; by apply Hdom, list_elem_of_further).
  cbn [select]. destruct (Hdom q (list_elem_of_here _ _)) as [td ->].
  pose proof (select_removed_subset h l) as Hsub.
  destruct (functor q td acc) as [[] acc']; simpl.
  - specialize (IH acc' Hnd Hdom'). specialize (Hsub acc').
    destruct (select functor h l acc') as [[kept removed] a]. simpl in *.
    rewrite filter_cons, decide_True by (intros Hin; by apply Hq, Hsub).
    by f_equal.
  - specialize (IH acc' Hnd Hdom').
    destruct (select functor h l acc') as [[kept removed] a]. simpl in *.
    rewrite filter_cons, decide_False by (intros Hnot; apply Hnot; left).
    rewrite IH. apply filter_ext_in. intros x Hx. rewrite not_elem_of_cons.
    split; [|tauto]. intros Hnot. split; [|done]. by intros ->.
  - rewrite filter_cons, decide_False by (intros Hnot; apply Hnot; left).
    symmetry. apply filter_all. intros x Hx ->%list_elem_of_singleton. done.
Qed.
End SelectRemoved.

Lemma signalAll_globals ps : ∀ st st',
  signalAll ps st = Some st' →
  numThreads st' = numThreads st ∧ threadData st' = threadData st.
Proof.
  induction ps as [|p ps IH]; intros st st' Hrun; simpl in Hrun.
  { by injection Hrun as <-. }
  unfold signal in Hrun at 1. destruct (heap st !! p) as [td|]; [|done].
  cbn [mbind option_bind] in Hrun. by destruct (IH _ _ Hrun) as [-> ->].
Qed.

Lemma sameRecords_identifier h h' p :
  sameRecords h h' → threadIdentifier <$> h' !! p = threadIdentifier <$> h !! p.
Proof.
  intros Hs. specialize (Hs p).
  destruct (h' !! p) as [[]|], (h !! p) as [[]|]; simplify_eq/=; done.
Qed.

Lemma signalAll_identifier ps : ∀ st st' q,
  signalAll ps st = Some st' →
  threadIdentifier <$> heap st' !! q = threadIdentifier <$> heap st !! q.
Proof.
  induction ps as [|p ps IH]; intros st st' q Hrun; simpl in Hrun.
  { by injection Hrun as <-. }
  unfold signal in Hrun at 1. destruct (heap st !! p) as [td|] eqn:Htd; [|done].
  cbn [mbind option_bind] in Hrun. rewrite (IH _ _ q Hrun). simpl.
  destruct (decide (q = p)) as [->|Hne].
  - by rewrite lookup_insert_eq, Htd.
  - by rewrite lookup_insert_ne.
Qed.

Section Unparked.
Context `{PtrHash}.

Lemma enqueued_in_heap st p : WellFormed st → enqueued st p → is_Some (heap st !! p).
Proof.
  unfold WellFormed. intros Hwf [i Hp].
  destruct (hashtable st) as [t|] eqn:Ht; [|rewrite queueAt_no_table in Hp by done; by apply elem_of_nil in Hp].
  destruct (table_queues _ _ _ Hwf i) as (l & Hl & _).
  rewrite (queueAt_slotQueue _ _ _ _ Ht Hl) in Hp. by eapply slotQueue_dom.
Qed.

Lemma queueAt_NoDup st i : WellFormed st → NoDup (queueAt st i).
Proof.
  unfold WellFormed. intros Hwf.
  destruct (hashtable st) as [t|] eqn:Ht; [|rewrite queueAt_no_table by done; constructor].
  destruct (table_queues _ _ _ Hwf i) as (l & Hl & _).
  rewrite (queueAt_slotQueue _ _ _ _ Ht Hl). unfold slotQueue in Hl.
  destruct (Hashtable.data t !! i); [|subst l; constructor].
  by destruct Hl as (b & _ & Hnd & _).
Qed.

Lemma unparked_refl st : unparked [] st st.
Proof.
  split; try done.
  - by rewrite app_nil_r.
  - intros i. symmetry. apply filter_all. by intros q _ ?%elem_of_nil.
  - by intros q ?%elem_of_nil.
Qed.

Section DequeueEffect.
Context {A : Type} (functor : ThreadDataPtr → ThreadData → A → DequeueResult * A).

(** [dequeue(address, functor)] followed by the signals to the records it
    removed. *)
Lemma dequeue_then_signal a st acc :
  WellFormed st →
  let sel := select functor (heap st) (queueFor st a) acc in
  ∃ st1 st',
    dequeue a functor st acc = Some (bool_decide (sel.1.1 ≠ []), st1, sel.2) ∧
    signalAll sel.1.2 st1 = Some st' ∧
    WellFormed st' ∧
    queueFor st' a = sel.1.1 ∧
    unparked sel.1.2 st st'.
Proof.
  intros Hwf sel. pose proof Hwf as Hinv. unfold WellFormed in Hinv.
  destruct (hashtable st) as [t|] eqn:Ht.
  2:{ assert (queueFor st a = []) as Hq by (unfold queueFor; by rewrite queueAt_no_table).
      unfold sel. rewrite Hq. simpl. exists st, st.
      split_and!; [by apply dequeue_no_table|done|done|done|apply unparked_refl]. }
  destruct (table_queues _ _ _ Hinv (slotOf (Hashtable.size t) a)) as (l & Hl & _).
  assert (queueFor st a = l) as Hq by (by apply (queueFor_slotQueue _ t)).
  unfold sel. rewrite Hq. clear sel. set (sel := select functor (heap st) l acc).
  destruct (dequeue_spec functor a st acc t l Ht Hinv Hl)
    as (h1 & bs1 & Hrun & Hinv1 & Hnew & Hother & Hrem & Hsame & Hout & _).
  fold sel in Hrun, Hnew, Hrem.
  assert (∀ p, p ∈ l → is_Some (heap st !! p)) as Hdom
    by (intros p Hp; by eapply slotQueue_dom).
  assert (∀ p, p ∈ sel.1.2 → p ∈ l) as Hsub by apply select_removed_subset.
  destruct (signalAll_spec sel.1.2 (withQueues h1 bs1 st) t)
    as (st' & Hsig & Ht' & Hbs' & Hlog' & Hinv' & Hslots' & Haddr' & Hlinks' & Hframe'
        & Hwoken'); [done|done| |].
  { intros p Hp. simpl. rewrite <- (fmap_is_Some (setNextInQueue None)), Hsame.
    rewrite fmap_is_Some. by apply Hdom, Hsub. }
  destruct (signalAll_globals _ _ _ Hsig) as [Hn' Htd'].
  assert (NoDup l) as Hnd.
  { rewrite <- Hq. by apply queueAt_NoDup. }
  assert (∀ i, queueAt st' i = filter (λ q, q ∉ sel.1.2) (queueAt st i)) as Hqueues.
  { intros i. destruct (decide (i = slotOf (Hashtable.size t) a)) as [->|Hne].
    - rewrite (queueAt_slotQueue st t _ l Ht Hl).
      pose proof (select_kept_filter functor (heap st) l acc Hnd Hdom) as Hkept.
      fold sel in Hkept. rewrite <- Hkept.
      apply (queueAt_slotQueue _ t); [done|]. by apply Hslots'.
    - destruct (table_queues _ _ _ Hinv i) as (li & Hli & _).
      rewrite (queueAt_slotQueue st t i li Ht Hli).
      rewrite filter_all.
      + apply (queueAt_slotQueue _ t); [done|]. by apply Hslots', Hother.
      + intros p Hp Hin. apply Hsub in Hin.
        by destruct (table_disjoint _ _ _ _ _ _ _ _ Hinv Hli Hl Hne Hp). }
  exists (withQueues h1 bs1 st), st'. split_and!; try done.
  - unfold WellFormed. by rewrite Ht'.
  - apply (queueFor_slotQueue _ t); [done|]. by apply Hslots'.
  - split.
    + by rewrite Ht'.
    + done.
    + done.
    + done.
    + done.
    + intros q Hq'. split_and!.
      * exists (slotOf (Hashtable.size t) a). rewrite (queueAt_slotQueue st t _ l Ht Hl).
        by apply Hsub.
      * by apply Hwoken'.
      * rewrite Hlinks'. by apply Hrem.
    + intros q. rewrite Haddr'. simpl. by apply sameRecords_address.
    + intros q Hq'. rewrite Hframe' by done. simpl. by apply sameRecords_shouldPark.
    + intros q Hq'. rewrite Hframe'.
      * simpl. apply Hout. intros Hin. apply Hq'.
        exists (slotOf (Hashtable.size t) a). by rewrite (queueAt_slotQueue st t _ l Ht Hl).
      * intros Hin. apply Hq'. exists (slotOf (Hashtable.size t) a).
        rewrite (queueAt_slotQueue st t _ l Ht Hl). by apply Hsub.
    + intros q. rewrite (signalAll_identifier _ _ _ q Hsig). simpl.
      by apply sameRecords_identifier.
Qed.
End DequeueEffect.

Lemma parkedOn_in_heap st a p : WellFormed st → p ∈ queueFor st a → is_Some (heap st !! p).
Proof. intros Hwf Hp. apply enqueued_in_heap; [done|]. by eexists. Qed.

Lemma unparkOne_effect a st :
  WellFormed st →
  ∃ st',
    ParkingLot.unparkOne a st
    = Some (bool_decide (parkedOn st a ≠ []) && bool_decide (queueFor st' a ≠ []), st') ∧
    WellFormed st' ∧
    unparked (take 1 (parkedOn st a)) st st'.
Proof.
  intros Hwf. unfold ParkingLot.unparkOne.
  destruct (dequeue_then_signal (ParkingLot.unparkOneFunctor a) a st None Hwf)
    as (st1 & st' & Hrun & Hsig & Hwf' & Hq' & Heffect).
  rewrite Hrun. cbn [mbind option_bind].
  assert (∀ p, p ∈ queueFor st a → is_Some (heap st !! p)) as Hdom
    by (intros p; by apply parkedOn_in_heap).
  unfold parkedOn. destruct (filter _ (queueFor st a)) as [|p rest] eqn:Hparked.
  - apply filter_none in Hparked.
    rewrite (select_one_miss a (heap st) _ None Hdom Hparked) in *. simpl in *.
    injection Hsig as <-. exists st1. by split_and!.
  - apply filter_first in Hparked as (l1 & l2 & Hl & Hl1 & Hp & Hrest).
    rewrite Hl in *.
    rewrite (select_one_hit a (heap st) l1 p l2 None Hdom Hl1 Hp) in *. simpl in *.
    destruct (signal p st1) as [st2|]; [|done]. injection Hsig as ->.
    exists st'. rewrite Hq'. by split_and!.
Qed.

Lemma unparkAll_effect a st :
  WellFormed st →
  ∃ st', ParkingLot.unparkAll a st = Some st' ∧ WellFormed st' ∧
         unparked (parkedOn st a) st st'.
Proof.
  intros Hwf. unfold ParkingLot.unparkAll.
  destruct (dequeue_then_signal (ParkingLot.unparkAllFunctor a) a st [] Hwf)
    as (st1 & st' & Hrun & Hsig & Hwf' & Hq' & Heffect).
  rewrite Hrun. cbn [mbind option_bind].
  assert (∀ p, p ∈ queueFor st a → is_Some (heap st !! p)) as Hdom
    by (intros p; by apply parkedOn_in_heap).
  rewrite (select_all a (heap st) _ [] Hdom) in *. simpl in *.
  exists st'. by split_and!.
Qed.

Lemma unparked_enqueued ws st st' q :
  unparked ws st st' → enqueued st' q ↔ enqueued st q ∧ q ∉ ws.
Proof.
  intros Heffect. unfold enqueued. split.
  - intros [i Hq]. rewrite (unparked_queues _ _ _ Heffect) in Hq.
    apply list_elem_of_filter in Hq as [Hnot Hin]. split; [by exists i|done].
  - intros [[i Hq] Hnot]. exists i. rewrite (unparked_queues _ _ _ Heffect).
    by apply list_elem_of_filter.
Qed.

(** The records parked on an address after an unpark are those that were,
    without the woken ones, in the same order. *)
Lemma unparked_parkedOn ws st st' a :
  unparked ws st st' →
  parkedOn st' a = filter (λ q, q ∉ ws) (parkedOn st a).
Proof.
  intros Heffect. unfold parkedOn, queueFor, tableSize.
  rewrite (unparked_table _ _ _ Heffect), (unparked_queues _ _ _ Heffect).
  rewrite !list_filter_filter. apply list_filter_iff. intros q.
  rewrite (unparked_address _ _ _ Heffect). tauto.
Qed.

Lemma Consistent_unparked ws st st' :
  Consistent st → WellFormed st' → unparked ws st st' → Consistent st'.
Proof.
  intros [Hwf Hthreads Hrecords] Hwf' Heffect.
  assert (∀ q, is_Some (heap st' !! q) → is_Some (heap st !! q)) as Hback.
  { intros q Hq. destruct (decide (q ∈ ws)) as [Hin|Hout].
    - apply enqueued_in_heap; [done|]. by apply (unparked_woken _ _ _ Heffect).
    - rewrite <- (fmap_is_Some shouldPark), <- (unparked_others _ _ _ Heffect q Hout).
      by rewrite fmap_is_Some. }
  split; [done| |].
  - intros me p Hme. rewrite (unparked_threadData _ _ _ Heffect) in Hme.
    destruct (Hthreads me p Hme) as [[td Htd] Ht].
    rewrite (unparked_table _ _ _ Heffect). split; [|done].
    destruct (decide (p ∈ ws)) as [Hin|Hout].
    + destruct (unparked_woken _ _ _ Heffect p Hin) as (_ & Hsp & _).
      by rewrite <- (fmap_is_Some shouldPark), Hsp.
    + rewrite <- (fmap_is_Some shouldPark), (unparked_others _ _ _ Heffect p Hout), Htd.
      by eexists.
  - intros p td' Htd'. rewrite (unparked_enqueued ws st st' p Heffect).
    destruct (decide (p ∈ ws)) as [Hin|Hout].
    + destruct (unparked_woken _ _ _ Heffect p Hin) as (_ & Hsp & Hnext).
      rewrite Htd' in Hsp, Hnext. simpl in *. injection Hsp as Hsp.
      injection Hnext as Hnext. split; [|done]. rewrite Hsp. split; [done|tauto].
    + destruct (Hback p) as [td Htd]; [by eexists|].
      destruct (Hrecords p td Htd) as [Hsp Hnext].
      pose proof (unparked_others _ _ _ Heffect p Hout) as Hsame.
      rewrite Htd, Htd' in Hsame. simpl in Hsame. injection Hsame as Hsame.
      rewrite Hsame. split; [tauto|]. intros Hnot.
      assert (¬ enqueued st p) as Hnot' by tauto.
      pose proof (unparked_frame _ _ _ Heffect p Hnot') as Hp.
      rewrite Htd, Htd' in Hp. injection Hp as ->. by apply Hnext.
Qed.
End Unparked.

(** ** What a park changes *)

Section Parked.
Context `{PtrHash}.

Lemma myThreadData_new me st p st0 :
  threadData st !! me = None → myThreadData me st = Some (p, st0) →
  ∃ st2,
    ensureHashtableSize (wrapUnsigned (numThreads st + 1))
      (mkState (heap st) (buckets st) (hashtable st) (wrapUnsigned (numThreads st + 1))
               (threadData st) (notified st)) = Some st2 ∧
    p = fresh (dom (heap st2)) ∧
    st0 = mkState (<[p := mkThreadData me false 0 None]> (heap st2)) (buckets st2)
            (hashtable st2) (numThreads st2) (<[me := p]> (threadData st2)) (notified st2).
Proof.
  intros Hme. unfold myThreadData. rewrite Hme.
  destruct (ensureHashtableSize _ _) as [st2|]; [|done].
  cbn [mbind option_bind]. intros [= <- <-]. by exists st2.
Qed.

Lemma ensureHashtableSize_fits n st :
  WellFormed st → 0 < n → 6 * n < 2 ^ 32 →
  ∃ st', ensureHashtableSize n st = Some st' ∧
    maxLoadFactor * n ≤ tableSize st' ∧ is_Some (hashtable st').
Proof.
  intros Hwf Hn0 Hn1. pose proof (ensureHashtableSize_spec n st Hwf) as Hspec.
  simpl in Hspec.
  set (old := default (Hashtable.create maxLoadFactor) (hashtable st)) in *.
  assert (∀ size, loadFactorReached size n = (maxLoadFactor * n <=? size)) as Hload.
  { intros size. unfold loadFactorReached. destruct (n =? 0) eqn:Hz; [lia|done]. }
  destruct (noNeedToRehash st n) eqn:Hfast.
  { exists st. split; [done|]. unfold noNeedToRehash in Hfast. unfold tableSize.
    destruct (hashtable st) as [t|]; [|done]. rewrite Hload in Hfast. simpl.
    split; [lia|by eexists]. }
  destruct (loadFactorReached (Hashtable.size old) n) eqn:Hok.
  { destruct Hspec as (st' & Hrun & Hsame & Hsize). exists st'. split; [done|].
    rewrite Hload in Hok. split; [lia|]. by destruct Hsame. }
  rewrite Hload in Hok.
  assert (wrapUnsigned (wrapUnsigned (n * growthFactor) * maxLoadFactor) = 6 * n) as Hnew.
  { unfold growthFactor, maxLoadFactor.
    rewrite !wrapUnsigned_small by (rewrite ?wrapUnsigned_small; lia). lia. }
  rewrite Hnew in Hspec. unfold maxLoadFactor in *.
  destruct (Hashtable.size old <? 6 * n) eqn:Hgrow; [|lia].
  destruct Hspec as (st' & Hrun & Hsame & Hsize). exists st'. split; [done|].
  split; [lia|]. by destruct Hsame.
Qed.

Lemma myThreadData_created me st :
  WellFormed st → threadData st !! me = None →
  0 ≤ numThreads st → 6 * (numThreads st + 1) < 2 ^ 32 →
  ∃ p st', myThreadData me st = Some (p, st') ∧
    WellFormed st' ∧ is_Some (hashtable st') ∧
    numThreads st' = numThreads st + 1 ∧
    maxLoadFactor * numThreads st' ≤ tableSize st' ∧
    tableSize st ≤ tableSize st' ∧
    heap st !! p = None ∧
    heap st' !! p = Some (mkThreadData me false 0 None) ∧
    threadData st' = <[me := p]> (threadData st) ∧
    notified st' = notified st ∧
    ¬ enqueued st' p ∧
    (∀ q, enqueued st' q ↔ enqueued st q) ∧
    (∀ a, parkedOn st' a = parkedOn st a) ∧
    (∀ q, q ≠ p → shouldPark <$> heap st' !! q = shouldPark <$> heap st !! q) ∧
    (∀ q, q ≠ p → ¬ enqueued st q → heap st' !! q = heap st !! q).
Proof.
  intros Hwf Hme Hn0 Hn1.
  destruct (myThreadData_spec me st Hwf) as
    (p & st0 & t0 & td & Hrun & Hwf0 & Ht0 & Hp0 & Htd0 & Hnext0 & Hnot0 & Hlog0
     & Hparked0 & Henq0 & Hcase).
  { unfold notParked. by rewrite Hme. }
  rewrite Hme in Hcase. destruct Hcase as [-> Hsame].
  destruct (myThreadData_new me st p st0 Hme Hrun) as (st2 & Hens & Hp & Hst0).
  rewrite (wrapUnsigned_small (numThreads st + 1)) in Hens by lia.
  set (st1 := mkState (heap st) (buckets st) (hashtable st) (numThreads st + 1)
                (threadData st) (notified st)) in *.
  assert (WellFormed st1) as Hwf1 by done.
  destruct (ensureHashtableSize_fits (numThreads st + 1) st1 Hwf1) as (st2' & Hens' & Hload & _);
    [lia|lia|].
  rewrite Hens in Hens'. injection Hens' as <-.
  destruct (ensureHashtableSize_cases _ _ _ Hwf1 Hens) as [Hcases Hsize].
  pose proof (ensureHashtableSize_frame _ _ _ Hwf1 Hens) as Hframe.
  assert (numThreads st2 = numThreads st + 1 ∧ threadData st2 = threadData st) as [Hn2 Htd2].
  { destruct Hcases as [->|[]]; done. }
  assert (heap st2 !! p = None) as Hfresh by (subst p; apply not_elem_of_dom, is_fresh).
  assert (∀ q, q ≠ p → heap st0 !! q = heap st2 !! q) as Hother.
  { intros q Hne. rewrite Hst0. simpl. by rewrite lookup_insert_ne. }
  assert (sameRecords (heap st) (heap st2)) as Hsame2.
  { intros q. destruct (decide (q = p)) as [->|Hne].
    - specialize (Hsame p). rewrite lookup_delete_eq in Hsame. rewrite Hfresh. done.
    - specialize (Hsame q). rewrite lookup_delete_ne in Hsame by done.
      by rewrite <- Hother. }
  exists p, st0. split_and!.
  - done.
  - done.
  - by eexists.
  - rewrite Hst0. simpl. done.
  - rewrite Hst0. unfold tableSize in *. simpl. rewrite Hn2. done.
  - rewrite Hst0. unfold tableSize in *. simpl. done.
  - specialize (Hsame2 p). rewrite Hfresh in Hsame2. by destruct (heap st !! p).
  - done.
  - rewrite Hst0. simpl. by rewrite Htd2.
  - done.
  - done.
  - done.
  - done.
  - intros q Hne. rewrite Hother by done. by apply sameRecords_shouldPark.
  - intros q Hne Hq. rewrite Hother by done. by apply Hframe.
Qed.

Section EnqueueParked.
Context {U : Type} (validation : U → bool * U).

Lemma enqueue_globals {E : Type} a (functor : Heap → E → option ThreadDataPtr * Heap * E)
    st env r st' env' :
  enqueue a functor st env = Some (r, st', env') →
  is_Some (hashtable st') ∧ numThreads st' = numThreads st ∧
  threadData st' = threadData st ∧ notified st' = notified st ∧
  tableSize st' = tableSize st.
Proof.
  unfold enqueue, tableSize. destruct (hashtable st) as [t|]; [|done].
  cbn [mbind option_bind]. destruct (Hashtable.size t =? 0); [done|].
  unfold materializeBucket, newBucket.
  destruct (Hashtable.data t !! _) as [bucket|].
  - destruct (buckets st !! bucket) as [b|]; [|done]. cbn [mbind option_bind].
    destruct (functor (heap st) env) as [[[td|] h] env1].
    + destruct (Bucket.enqueue h b td) as [[h' b']|]; [|done].
      cbn [mbind option_bind]. intros [= <- <- <-]. simpl. split_and!; by eauto.
    + intros [= <- <- <-]. simpl. split_and!; by eauto.
  - rewrite lookup_insert_eq. cbn [mbind option_bind].
    destruct (functor (heap st) env) as [[[td|] h] env1].
    + destruct (Bucket.enqueue h emptyBucket td) as [[h' b']|]; [|done].
      cbn [mbind option_bind]. intros [= <- <- <-]. simpl. split_and!; by eauto.
    + intros [= <- <- <-]. simpl. split_and!; by eauto.
Qed.

Lemma enqueue_parked a p td st u t :
  hashtable st = Some t → TableInvariant (heap st) (buckets st) t →
  heap st !! p = Some td → nextInQueue td = None → ¬ enqueued st p →
  (validation u).1 = true →
  ∃ st', enqueue a (ParkingLot.parkFunctor validation p a) st u
         = Some (true, st', (validation u).2) ∧
    WellFormed st' ∧
    heap st' !! p = Some (setShouldPark true (setAddress a td)) ∧
    (∀ i, queueAt st' i
          = queueAt st i ++ (if decide (i = slotOf (tableSize st) a) then [p] else [])) ∧
    (∀ q, q ≠ p → shouldPark <$> heap st' !! q = shouldPark <$> heap st !! q) ∧
    (∀ q, q ≠ p → addressOf (heap st') q = addressOf (heap st) q) ∧
    (∀ q, q ≠ p → ¬ enqueued st q → heap st' !! q = heap st !! q).
Proof.
  intros Ht Hinv Htd Hnext Hnot Hvalid. unfold enqueue. rewrite Ht. cbn [mbind option_bind].
  pose proof (table_size _ _ _ Hinv) as Hsize.
  rewrite (proj2 (Z.eqb_neq _ 0)) by lia.
  fold (slotOf (Hashtable.size t) a). set (i := slotOf (Hashtable.size t) a).
  assert (0 ≤ i < Hashtable.size t) as Hi by (apply Z.mod_pos_bound; lia).
  destruct (materializeBucket_spec (heap st) (buckets st) t i Hinv Hi)
    as (bucket & bs1 & t1 & -> & Hinv1 & Hsize1 & Hbucket & _ & Hslots1 & _).
  assert (∀ j l, slotQueue (heap st) bs1 t1 j l → queueAt st j = l) as Hback.
  { intros j l Hl. destruct (table_queues _ _ _ Hinv j) as (l0 & Hl0 & _).
    rewrite (queueAt_slotQueue _ _ _ _ Ht Hl0).
    eapply slotQueue_functional; [|done]. by apply Hslots1. }
  destruct (table_queues _ _ _ Hinv1 i) as (l & Hl & Hall).
  pose proof Hl as Hl'. unfold slotQueue in Hl'. rewrite Hbucket in Hl'.
  destruct Hl' as (b & Hb & Hq). rewrite Hb. cbn [mbind option_bind].
  unfold ParkingLot.parkFunctor. destruct (validation u) as [valid u']. simpl in Hvalid.
  subst valid. cbn [negb snd].
  set (td1 := setShouldPark true (setAddress a td)).
  assert (alter (λ td, setShouldPark true (setAddress a td)) p (heap st)
          = <[p := td1]> (heap st)) as ->.
  { apply map_eq. intros q. destruct (decide (p = q)) as [<-|Hne].
    - by rewrite lookup_alter_eq, lookup_insert_eq, Htd.
    - by rewrite lookup_alter_ne, lookup_insert_ne. }
  set (h1 := <[p := td1]> (heap st)).
  assert (∀ j lj q, slotQueue (heap st) bs1 t1 j lj → q ∈ lj → q ≠ p) as Hqueued.
  { intros j lj q Hlj Hq' ->. apply Hnot. exists j. by rewrite (Hback j lj Hlj). }
  destruct (TableInvariant_agree (heap st) h1 bs1 t1 Hinv1) as [Hinv1' Hslots1'].
  { intros j lj q Hlj Hq'. unfold h1, addressOf.
    by rewrite lookup_insert_ne by (apply not_eq_sym; by eapply Hqueued). }
  assert (isQueue h1 b l) as Hq1.
  { pose proof (Hslots1' i l Hl) as Hl1. unfold slotQueue in Hl1. rewrite Hbucket in Hl1.
    destruct Hl1 as (b0 & Hb0 & ?). congruence. }
  destruct (Bucket_enqueue_spec h1 b l p td1 Hq1) as (h2 & b2 & -> & Hq2 & Hsame & Hout);
    [by unfold h1; rewrite lookup_insert_eq|done|by intros Hin; eapply Hqueued| ].
  cbn [mbind option_bind]. eexists. split; [done|].
  apply agreeOutside_last in Hout.
  assert (h2 !! p = Some td1) as Hp2.
  { rewrite Hout; [by unfold h1; rewrite lookup_insert_eq|]. intros Hin. by eapply Hqueued. }
  assert (∀ q, q ≠ p → addressOf h2 q = addressOf (heap st) q) as Haddr.
  { intros q Hne. rewrite (sameRecords_address _ _ q Hsame). unfold h1, addressOf.
    by rewrite lookup_insert_ne. }
  assert (addressOf h2 p = a) as Haddrp by (by rewrite (addressOf_lookup _ _ _ Hp2)).
  destruct (TableInvariant_update h1 bs1 t1 i bucket l h2 b2 (l ++ [p]))
    as (Hinv2 & Hnew & Hother); try done; [by apply Hslots1'| |].
  { apply Forall_app. split; [|apply Forall_singleton; by rewrite Haddrp, Hsize1].
    rewrite Forall_forall in Hall |- *. intros q Hq'.
    rewrite Haddr by (by eapply Hqueued). by apply Hall. }
  set (st' := withTable (<[bucket := b2]> bs1) t1 (withHeap h2 st)).
  assert (queueAt st' i = queueAt st i ++ [p]) as Hati.
  { rewrite (Hback i l Hl). by apply (queueAt_slotQueue _ t1). }
  assert (∀ j, j ≠ i → queueAt st' j = queueAt st j) as Hatj.
  { intros j Hne. destruct (table_queues _ _ _ Hinv1 j) as (lj & Hlj & _).
    rewrite (Hback j lj Hlj). apply (queueAt_slotQueue _ t1); [done|].
    by apply Hother, Hslots1'. }
  assert (slotOf (tableSize st) a = i) as Hia by (unfold tableSize; by rewrite Ht).
  split_and!; try done.
  - intros j. rewrite Hia. destruct (decide (j = i)) as [->|Hne]; [done|].
    rewrite app_nil_r. by apply Hatj.
  - intros q Hne. simpl. rewrite (sameRecords_shouldPark _ _ q Hsame). unfold h1.
    by rewrite lookup_insert_ne.
  - intros q Hne Hq'. simpl. rewrite Hout.
    + unfold h1. by rewrite lookup_insert_ne.
    + intros Hin. apply Hq'. exists i. by rewrite (Hback i l Hl).
Qed.
End EnqueueParked.

(** Clearing the address of a record that is in no queue. *)
Lemma resumeParked_spec p td st :
  WellFormed st → is_Some (hashtable st) →
  heap st !! p = Some td → ¬ enqueued st p →
  let st' := withHeap (<[p := setAddress 0 td]> (heap st)) st in
  WellFormed st' ∧
  (∀ i, queueAt st' i = queueAt st i) ∧
  (∀ a, parkedOn st' a = parkedOn st a) ∧
  (∀ q, enqueued st' q ↔ enqueued st q).
Proof.
  intros Hwf [t Ht] Htd Hnot st'. pose proof Hwf as Hinv. unfold WellFormed in Hinv.
  rewrite Ht in Hinv.
  apply (queues_unchanged st st' t t); try done.
  intros q Hq. assert (q ≠ p) as Hne by (by intros ->).
  unfold addressOf. simpl. by rewrite lookup_insert_ne.
Qed.
End Parked.

(** ** The consistency of the state *)

Section ConsistentState.
Context `{PtrHash}.

Lemma Consistent_not_enqueued st p :
  Consistent st → shouldPark <$> heap st !! p = Some false → ¬ enqueued st p.
Proof.
  intros [_ _ Hrecords] Hp Henq. destruct (heap st !! p) as [td|] eqn:Htd; [|done].
  injection Hp as Hp. destruct (Hrecords p td Htd) as [Hsp _].
  apply Hsp in Henq. congruence.
Qed.

Lemma canPark_notParked st me : Consistent st → canPark st me → notParked st me.
Proof.
  intros Hc Hme. unfold canPark, notParked in *.
  destruct (threadData st !! me) as [p|] eqn:Hp; [|done].
  pose proof (Consistent_not_enqueued st p Hc Hme) as Hnot.
  destruct Hc as [_ Hthreads Hrecords]. destruct (Hthreads me p Hp) as [[td Htd] Ht].
  split_and!; [done..|]. exists td. split; [done|]. by apply (Hrecords p td Htd).
Qed.

Lemma myThreadData_consistent me st :
  Consistent st → canPark st me →
  ∃ p st0 td, myThreadData me st = Some (p, st0) ∧
    Consistent st0 ∧ threadData st0 !! me = Some p ∧
    heap st0 !! p = Some td ∧ shouldPark td = false ∧ nextInQueue td = None ∧
    ¬ enqueued st0 p.
Proof.
  intros Hc Hme. pose proof (canPark_notParked st me Hc Hme) as Hnp.
  unfold canPark, notParked in *.
  destruct (threadData st !! me) as [p|] eqn:Hp.
  { destruct Hnp as (_ & Hnot & td & Htd & Hnext). exists p, st, td.
    rewrite Htd in Hme. injection Hme as Hme.
    split_and!; try done. unfold myThreadData. by rewrite Hp. }
  destruct Hme as [Hn0 Hn1]. destruct Hc as [Hwf Hthreads Hrecords].
  destruct (myThreadData_created me st Hwf Hp Hn0 Hn1)
    as (p & st0 & Hrun & Hwf0 & Ht0 & _ & _ & _ & Hfresh & Hp0 & Htd0 & _ & Hnot0 & Henq0
        & _ & Hsp0 & Hframe0).
  exists p, st0, (mkThreadData me false 0 None). split_and!; try done.
  2:{ rewrite Htd0. by rewrite lookup_insert_eq. }
  split; [done| |].
  - intros me' p'. rewrite Htd0. destruct (decide (me = me')) as [<-|Hne].
    + rewrite lookup_insert_eq. intros [= <-]. split; [by eexists|done].
    + rewrite lookup_insert_ne by done. intros Hme'.
      destruct (Hthreads me' p' Hme') as [[td' Htd'] _]. split; [|done].
      assert (p' ≠ p) as Hpp by (intros ->; congruence).
      rewrite <- (fmap_is_Some shouldPark), (Hsp0 p' Hpp), Htd'. by eexists.
  - intros q tdq Hq. rewrite Henq0. destruct (decide (q = p)) as [->|Hne].
    + rewrite Hp0 in Hq. injection Hq as <-. simpl.
      rewrite <- Henq0. split; [split; [done|tauto]|done].
    + pose proof (Hsp0 q Hne) as Hsp. rewrite Hq in Hsp. simpl in Hsp.
      destruct (heap st !! q) as [td|] eqn:Htd; [|done]. injection Hsp as Hsp.
      destruct (Hrecords q td Htd) as [Hpark Hnext]. rewrite Hsp.
      split; [done|]. intros Hnot. specialize (Hframe0 q Hne Hnot).
      rewrite Hq, Htd in Hframe0. injection Hframe0 as ->. by apply Hnext.
Qed.

Section ParkConsistent.
Context {U : Type} (validation : U → bool * U).

Lemma parkConditionally_consistent me a st u :
  Consistent st → canPark st me →
  ∃ p st',
    ParkingLot.parkConditionally me a validation st u
    = Some (if (validation u).1 then ParkingLot.Waiting else ParkingLot.Returned false,
            st', (validation u).2) ∧
    Consistent st' ∧ threadData st' !! me = Some p ∧
    (shouldPark <$> heap st' !! p = Some (validation u).1) ∧
    ((validation u).1 = true → addressOf (heap st') p = a).
Proof.
  intros Hc Hme. unfold ParkingLot.parkConditionally.
  destruct (myThreadData_consistent me st Hc Hme)
    as (p & st0 & td & -> & Hc0 & Hp0 & Htd0 & Hsp0 & Hnext0 & Hnot0).
  cbn [mbind option_bind]. pose proof Hc0 as [Hwf0 Hthreads0 Hrecords0].
  destruct (Hthreads0 me p Hp0) as [_ [t0 Ht0]].
  pose proof Hwf0 as Hinv0. unfold WellFormed in Hinv0. rewrite Ht0 in Hinv0.
  destruct ((validation u).1) eqn:Hvalid.
  - destruct (enqueue_parked validation a p td st0 u t0 Ht0 Hinv0 Htd0 Hnext0 Hnot0 Hvalid)
      as (st' & Hrun & Hwf' & Hp' & Hqueues & Hsp & Haddr & Hframe).
    destruct (enqueue_globals _ _ _ _ _ _ _ Hrun) as (Ht' & _ & Htd' & _ & _).
    rewrite Hrun. cbn [mbind option_bind negb]. rewrite Hp'. cbn [mbind option_bind].
    simpl. exists p, st'. split_and!; try done; [|congruence|by rewrite Hp'
                                                 |by rewrite (addressOf_lookup _ _ _ Hp')].
    assert (∀ q, q ≠ p → enqueued st' q ↔ enqueued st0 q) as Henq.
    { intros q Hne. unfold enqueued. split; intros [i Hq]; exists i.
      - rewrite Hqueues in Hq. apply elem_of_app in Hq as [Hq|Hq]; [done|].
        destruct (decide _); [|by apply elem_of_nil in Hq].
        by apply list_elem_of_singleton in Hq.
      - rewrite Hqueues. apply elem_of_app. by left. }
    assert (enqueued st' p) as Henqp.
    { exists (slotOf (tableSize st0) a). rewrite Hqueues, decide_True by done.
      apply elem_of_app. right. apply list_elem_of_here. }
    split; [done| |].
    + intros me' p'. rewrite Htd'. intros Hme'.
      destruct (Hthreads0 me' p' Hme') as [[td' Htd''] _]. split; [|done].
      destruct (decide (p' = p)) as [->|Hne]; [by eexists|].
      rewrite <- (fmap_is_Some shouldPark), (Hsp p' Hne), Htd''. by eexists.
    + intros q tdq Hq. destruct (decide (q = p)) as [->|Hne].
      * rewrite Hp' in Hq. injection Hq as <-. simpl. split; [done|]. by intros [].
      * rewrite (Henq q Hne). pose proof (Hsp q Hne) as Hspq. rewrite Hq in Hspq.
        simpl in Hspq. destruct (heap st0 !! q) as [td0|] eqn:Htdq; [|done].
        injection Hspq as Hspq. destruct (Hrecords0 q td0 Htdq) as [Hpark Hnext].
        rewrite Hspq. split; [done|]. intros Hnot. specialize (Hframe q Hne Hnot).
        rewrite Hq, Htdq in Hframe. injection Hframe as ->. by apply Hnext.
  - destruct (enqueue_declined validation a p st0 u t0 Ht0 Hinv0 Hvalid)
      as (st' & Hrun & Hwf' & Hheap' & Htd' & _ & _ & Henq').
    destruct (enqueue_globals _ _ _ _ _ _ _ Hrun) as (Ht' & _ & _ & _ & _).
    rewrite Hrun. cbn [mbind option_bind negb]. exists p, st'.
    split_and!; try done; [|congruence|by rewrite Hheap', Htd0; simpl; rewrite Hsp0].
    split; [done| |].
    + intros me' p'. rewrite Htd', Hheap'. intros Hme'.
      by destruct (Hthreads0 me' p' Hme') as [? _].
    + intros q tdq. rewrite Hheap', Henq'. apply Hrecords0.
Qed.
End ParkConsistent.

Lemma resumeParked_consistent me p st :
  Consistent st → threadData st !! me = Some p →
  ∃ td, heap st !! p = Some td ∧
    ParkingLot.resumeParked p st
    = Some (if shouldPark td then (ParkingLot.Waiting, st)
            else (ParkingLot.Returned true,
                  withHeap (<[p := setAddress 0 td]> (heap st)) st)) ∧
    (shouldPark td = true ↔ enqueued st p) ∧
    ∀ st', st' = withHeap (<[p := setAddress 0 td]> (heap st)) st →
      shouldPark td = false →
      Consistent st' ∧ canPark st' me ∧
      (∀ i, queueAt st' i = queueAt st i) ∧
      (∀ a, parkedOn st' a = parkedOn st a).
Proof.
  intros Hc Hme. pose proof Hc as [Hwf Hthreads Hrecords].
  destruct (Hthreads me p Hme) as [[td Htd] Ht]. exists td.
  destruct (Hrecords p td Htd) as [Hsp Hnext]. split_and!; [done| |done|].
  { unfold ParkingLot.resumeParked. rewrite Htd. cbn [mbind option_bind].
    by destruct (shouldPark td). }
  intros st' -> Hfalse.
  assert (¬ enqueued st p) as Hnot by (rewrite <- Hsp; congruence).
  destruct (resumeParked_spec p td st Hwf Ht Htd Hnot) as (Hwf' & Hat & Hparked & Henq).
  split_and!; [|unfold canPark; simpl; rewrite Hme, lookup_insert_eq; simpl; by f_equal
               |done|done].
  split; [done| |].
  - intros me' p' Hme'. simpl in *. destruct (Hthreads me' p' Hme') as [Hin ?].
    split; [|done]. destruct (decide (p' = p)) as [->|Hne].
    + rewrite lookup_insert_eq. by eexists.
    + by rewrite lookup_insert_ne.
  - intros q tdq Hq. rewrite Henq. simpl in Hq. destruct (decide (q = p)) as [->|Hne].
    + rewrite lookup_insert_eq in Hq. injection Hq as <-. simpl. done.
    + rewrite lookup_insert_ne in Hq by done. by apply Hrecords.
Qed.

Lemma Consistent_initialState : Consistent initialState.
Proof.
  split; [done| |].
  - intros me p Hme. simpl in Hme. by rewrite lookup_empty in Hme.
  - intros p td Hp. simpl in Hp. by rewrite lookup_empty in Hp.
Qed.
End ConsistentState.

(** ** The example states are consistent *)

Section ConsistentExamples.
#[local] Existing Instance identityHash.

Lemma park_consistent st who :
  Consistent st → canPark st who.1 → Consistent (park st who).
Proof.
  intros Hc Hme. unfold park.
  destruct (parkConditionally_consistent alwaysValid who.1 who.2 st tt Hc Hme)
    as (p & st' & -> & Hc' & _). done.
Qed.

Lemma newThread_canPark st me :
  threadData st !! me = None → (0 <=? numThreads st) = true →
  (6 * (numThreads st + 1) <? 2 ^ 32) = true → canPark st me.
Proof.
  intros Hme H0 H1. unfold canPark. rewrite Hme.
  apply Z.leb_le in H0. apply Z.ltb_lt in H1. done.
Qed.

Lemma Consistent_oneWaiter : Consistent oneWaiter.
Proof.
  apply (park_consistent initialState (1%positive, 100) Consistent_initialState).
  by apply newThread_canPark.
Qed.

Lemma Consistent_fourWaiters : Consistent fourWaiters.
Proof.
  apply (park_consistent _ (4%positive, 100)); [|by apply newThread_canPark; vm_compute].
  apply (park_consistent _ (3%positive, 112)); [|by apply newThread_canPark; vm_compute].
  apply (park_consistent _ (2%positive, 100)); [|by apply newThread_canPark; vm_compute].
  apply Consistent_oneWaiter.
Qed.
End ConsistentExamples.

(** ** Properties of [lockHashtable], [forEach] and the rehash: examples *)

Section TableExamples.
#[local] Existing Instance identityHash.

(** On the initial state [lockHashtable()] makes the hashtable of three
    slots and returns its three buckets. *)
Lemma lockHashtable_locks_every_bucket_witness :
  WellFormed initialState ∧
  ∃ bucketsToUnlock st' t',
    lockHashtable initialState = (bucketsToUnlock, st') ∧
    hashtable st' = Some t' ∧ Hashtable.size t' = 3 ∧
    Sorted Pos.le bucketsToUnlock ∧ NoDup bucketsToUnlock ∧
    (∀ i, 0 ≤ i < 3 → ∃ bucket, Hashtable.data t' !! i = Some bucket ∧
                                 bucket ∈ bucketsToUnlock).
Proof.
  split; [exact initialState_wf|].
  destruct (lockHashtable_locks_every_bucket initialState initialState_wf)
    as (sorted & st' & t' & Hrun & Ht' & Hsize & Hsorted & Hnd & Hfilled & _).
  assert (Hashtable.size t' = 3) as Hthree by exact Hsize.
  exists sorted, st', t'.
  split; [exact Hrun|]. split; [exact Ht'|]. split; [exact Hthree|].
  split; [exact Hsorted|]. split; [exact Hnd|].
  intros i Hi. rewrite <- Hthree in Hi. destruct (Hfilled i Hi) as (bucket & Hb & Hin & _).
  exists bucket. split; [exact Hb|exact Hin].
Defined.

(** The callback of [forEach] that appends what it is called with to a
    list: on [fourWaiters] it is called for the four threads, in the order
    of their queue. *)
Lemma forEach_visits_each_once_witness :
  WellFormed fourWaiters ∧
  ∃ st',
    ParkingLot.forEach (λ threadIdentifier address acc, acc ++ [(threadIdentifier, address)])
      fourWaiters []
    = Some (st', [(1%positive, 100); (2%positive, 100); (3%positive, 112); (4%positive, 100)]) ∧
    NoDup (visited st') ∧
    (∀ p, p ∈ visited st' ↔ enqueued fourWaiters p) ∧
    heap st' = heap fourWaiters.
Proof.
  split; [exact fourWaiters_wf|].
  destruct (forEach_visits_each_once
              (λ threadIdentifier address acc, acc ++ [(threadIdentifier, address)])
              fourWaiters [] fourWaiters_wf)
    as (st' & Hrun & Hnd & Hin & _ & _ & Hheap & _).
  assert (ParkingLot.forEach
            (λ threadIdentifier address acc, acc ++ [(threadIdentifier, address)])
            fourWaiters [] ≫= (λ r, Some r.2)
          = Some [(1%positive, 100); (2%positive, 100); (3%positive, 112); (4%positive, 100)])
    as Hcalls by (vm_compute; reflexivity).
  rewrite Hrun in Hcalls. injection Hcalls as Hcalls.
  exists st'. split; [rewrite Hrun; f_equal; f_equal; exact Hcalls|].
  split; [exact Hnd|]. split; [exact Hin|exact Hheap].
Defined.

(** The rehash of [fourWaiters] for a fifth thread. *)
Lemma ensureHashtableSize_only_relinks_witness :
  WellFormed fourWaiters ∧
  ∃ st', ensureHashtableSize 5 fourWaiters = Some st' ∧
    WellFormed st' ∧
    tableSize fourWaiters ≤ tableSize st' ∧
    sameRecords (heap fourWaiters) (heap st') ∧
    (∀ q, ¬ enqueued fourWaiters q → heap st' !! q = heap fourWaiters !! q) ∧
    (∀ q, enqueued st' q ↔ enqueued fourWaiters q) ∧
    (∀ a, parkedOn st' a = parkedOn fourWaiters a).
Proof.
  split; [exact fourWaiters_wf|].
  destruct (ensureHashtableSize_only_relinks 5 fourWaiters fourWaiters_wf)
    as [Htotal Heffect].
  destruct Htotal as [st' Hrun]; [lia|vm_compute; reflexivity|].
  exists st'. split; [exact Hrun|].
  destruct (Heffect st' Hrun) as (Hwf' & Hsize & Hsame & Hframe & Henq & Hparked & _).
  split; [exact Hwf'|]. split; [exact Hsize|]. split; [exact Hsame|].
  split; [exact Hframe|]. split; [exact Henq|exact Hparked].
Defined.
End TableExamples.

(** ** [ThreadData::ThreadData()] and [ThreadData::~ThreadData()] *)

Section ThreadDataLifetime.
Context `{PtrHash}.

(** Property X8.  The first [myThreadData()] of a thread makes its record with
    [shouldPark == false], a null [address] and a null [nextInQueue] at an
    address that was free, and counts it in [numThreads]; afterwards the
    hashtable has at least [maxLoadFactor] slots per thread and is not smaller
    than before; a second [myThreadData()] returns the same record and changes
    nothing; and [~ThreadData()] takes the count back to what it was, with the
    load factor still met.  This holds while [6 * (numThreads + 1)] fits in an
    [unsigned]. *)
Theorem threadData_constructor_keeps_load_factor me st :
  WellFormed st → threadData st !! me = None →
  0 ≤ numThreads st → 6 * (numThreads st + 1) < 2 ^ 32 →
  ∃ p st', myThreadData me st = Some (p, st') ∧
    numThreads st' = numThreads st + 1 ∧
    loadFactorReached (tableSize st') (numThreads st') = true ∧
    tableSize st ≤ tableSize st' ∧
    heap st !! p = None ∧
    heap st' !! p = Some (mkThreadData me false 0 None) ∧
    threadData st' = <[me := p]> (threadData st) ∧
    myThreadData me st' = Some (p, st') ∧
    numThreads (destroyThreadData st') = numThreads st ∧
    loadFactorReached (tableSize (destroyThreadData st'))
                      (numThreads (destroyThreadData st')) = true.
Proof.
  intros Hwf Hme Hn0 Hn1.
  destruct (myThreadData_created me st Hwf Hme Hn0 Hn1)
    as (p & st' & Hrun & Hwf' & Ht' & Hn' & Hload & Hsize & Hfresh & Hp' & Htd' & _).
  assert (numThreads (destroyThreadData st') = numThreads st) as Hback.
  { simpl. rewrite Hn'. rewrite wrapUnsigned_small by lia. lia. }
  exists p, st'. split_and!; try done.
  - unfold loadFactorReached. rewrite Hn'. rewrite Hn' in Hload.
    destruct (_ =? 0) eqn:Hz; [lia|]. apply Z.leb_le. done.
  - unfold myThreadData. rewrite Htd'. by rewrite lookup_insert_eq.
  - rewrite Hback. unfold loadFactorReached, tableSize. simpl. fold (tableSize st').
    rewrite Hn' in Hload. unfold maxLoadFactor in *.
    destruct (_ =? 0) eqn:Hz; [apply Z.ltb_lt|apply Z.leb_le]; lia.
Qed.
End ThreadDataLifetime.

Section ThreadDataLifetimeExample.
#[local] Existing Instance identityHash.

(** The first thread: the hashtable of three slots is made for it. *)
Lemma threadData_constructor_keeps_load_factor_witness :
  (WellFormed initialState ∧ threadData initialState !! 1%positive = None ∧
   0 ≤ numThreads initialState ∧ 6 * (numThreads initialState + 1) < 2 ^ 32) ∧
  ∃ p st', myThreadData 1%positive initialState = Some (p, st') ∧
    numThreads st' = 1 ∧
    loadFactorReached (tableSize st') (numThreads st') = true ∧
    numThreads (destroyThreadData st') = 0.
Proof.
  assert (0 ≤ numThreads initialState) as Hn0 by (simpl; lia).
  assert (6 * (numThreads initialState + 1) < 2 ^ 32) as Hn1 by (vm_compute; reflexivity).
  split; [split; [exact initialState_wf|split; [reflexivity|split; [exact Hn0|exact Hn1]]]|].
  destruct (threadData_constructor_keeps_load_factor 1%positive initialState
              initialState_wf eq_refl Hn0 Hn1)
    as (p & st' & Hrun & Hn' & Hload & _ & _ & _ & _ & _ & Hback & _).
  exists p, st'. split; [exact Hrun|]. split; [exact Hn'|]. split; [exact Hload|exact Hback].
Defined.
End ThreadDataLifetimeExample.

(** ** The assertions of [parkConditionally], [unparkOne] and [unparkAll] *)

Section ParkKeepsConsistent.
Context `{PtrHash} {U : Type}.

(** Property X9.  [parkConditionally] keeps the state consistent, for a caller
    that passes [ASSERT(!me->shouldPark)] (or is new, with room in the thread
    count).  The call waits when the validation accepts and returns false when
    it declines; afterwards the caller's record has [shouldPark] set and is in
    a queue in the first case, and has it clear and is in no queue in the
    second, so that the thread may park again. *)
Theorem parkConditionally_keeps_consistent me a (validation : U → bool * U) st u :
  Consistent st → canPark st me →
  ∃ p st',
    ParkingLot.parkConditionally me a validation st u
    = Some (if (validation u).1 then ParkingLot.Waiting else ParkingLot.Returned false,
            st', (validation u).2) ∧
    Consistent st' ∧
    threadData st' !! me = Some p ∧
    shouldPark <$> heap st' !! p = Some (validation u).1 ∧
    (enqueued st' p ↔ (validation u).1 = true) ∧
    ((validation u).1 = false → canPark st' me).
Proof.
  intros Hc Hme.
  destruct (parkConditionally_consistent validation me a st u Hc Hme)
    as (p & st' & Hrun & Hc' & Hp & Hsp & _).
  exists p, st'. split_and!; try done.
  - destruct (heap st' !! p) as [td|] eqn:Htd; [|done]. injection Hsp as Hsp.
    destruct (consistent_records _ Hc' p td Htd) as [Hpark _]. by rewrite <- Hsp.
  - intros Hvalid. unfold canPark. by rewrite Hp, Hsp, Hvalid.
Qed.
End ParkKeepsConsistent.

Section UnparkKeepsConsistent.
Context `{PtrHash}.

Lemma take_1_head {T} (l : list T) : take 1 l = option_list (head l).
Proof. by destruct l. Qed.

Lemma unparked_woken_facts ws st st' :
  Consistent st → WellFormed st' → unparked ws st st' →
  Consistent st' ∧
  ∀ p, p ∈ ws →
    shouldPark <$> heap st !! p = Some true ∧
    shouldPark <$> heap st' !! p = Some false ∧
    nextInQueue <$> heap st' !! p = Some None ∧
    ¬ enqueued st' p ∧
    (∀ me, threadData st !! me = Some p → canPark st' me).
Proof.
  intros Hc Hwf' Heffect. split; [by eapply Consistent_unparked|].
  intros p Hp. destruct (unparked_woken _ _ _ Heffect p Hp) as (Henq & Hsp & Hnext).
  split_and!; try done.
  - destruct (enqueued_in_heap st p (consistent_wf _ Hc) Henq) as [td Htd].
    rewrite Htd. simpl. f_equal. by apply (consistent_records _ Hc p td Htd).
  - rewrite (unparked_enqueued ws st st' p Heffect). tauto.
  - intros me Hme. unfold canPark. by rewrite (unparked_threadData _ _ _ Heffect), Hme.
Qed.

(** Property X10.  [unparkOne(address)] keeps the state consistent.  The
    thread data it signals, the first one parked on [address], passes
    [ASSERT(threadData->shouldPark)]; afterwards this thread data has
    [shouldPark] clear and a null [nextInQueue] and is in no queue, so its
    thread leaves the wait loop and may park again. *)
Theorem unparkOne_keeps_consistent a st :
  Consistent st →
  ∃ result st', ParkingLot.unparkOne a st = Some (result, st') ∧
    Consistent st' ∧
    notified st' = notified st ++ option_list (head (parkedOn st a)) ∧
    ∀ p, head (parkedOn st a) = Some p →
      shouldPark <$> heap st !! p = Some true ∧
      shouldPark <$> heap st' !! p = Some false ∧
      nextInQueue <$> heap st' !! p = Some None ∧
      ¬ enqueued st' p ∧
      (∀ me, threadData st !! me = Some p → canPark st' me).
Proof.
  intros Hc. destruct (unparkOne_effect a st (consistent_wf _ Hc))
    as (st' & Hrun & Hwf' & Heffect).
  destruct (unparked_woken_facts _ st st' Hc Hwf' Heffect) as [Hc' Hwoken].
  eexists _, st'. split_and!; [done|done| |].
  - rewrite (unparked_notified _ _ _ Heffect). by rewrite take_1_head.
  - intros p Hp. apply Hwoken. rewrite take_1_head, Hp. apply list_elem_of_here.
Qed.

(** Property X11.  [unparkAll(address)] keeps the state consistent.  Every
    thread data it signals passes [ASSERT(threadData->shouldPark)], and
    afterwards has [shouldPark] clear and a null [nextInQueue] and is in no
    queue. *)
Theorem unparkAll_keeps_consistent a st :
  Consistent st →
  ∃ st', ParkingLot.unparkAll a st = Some st' ∧
    Consistent st' ∧
    notified st' = notified st ++ parkedOn st a ∧
    ∀ p, p ∈ parkedOn st a →
      shouldPark <$> heap st !! p = Some true ∧
      shouldPark <$> heap st' !! p = Some false ∧
      nextInQueue <$> heap st' !! p = Some None ∧
      ¬ enqueued st' p ∧
      (∀ me, threadData st !! me = Some p → canPark st' me).
Proof.
  intros Hc. destruct (unparkAll_effect a st (consistent_wf _ Hc))
    as (st' & Hrun & Hwf' & Heffect).
  destruct (unparked_woken_facts _ st st' Hc Hwf' Heffect) as [Hc' Hwoken].
  exists st'. split_and!; [done|done|by apply (unparked_notified _ _ _ Heffect)|done].
Qed.

Lemma unparked_untouched a ws st st' :
  ws ⊆ parkedOn st a → unparked ws st st' → untouchedExcept a st st'.
Proof.
  intros Hsub Heffect.
  assert (∀ q, q ∈ ws → addressOf (heap st) q = a) as Hws.
  { intros q Hq. apply Hsub in Hq. unfold parkedOn in Hq.
    by apply list_elem_of_filter in Hq as [? _]. }
  split_and!.
  - exists ws. split; [by apply (unparked_notified _ _ _ Heffect)|by apply Forall_forall].
  - intros a' Hne. rewrite (unparked_parkedOn ws st st' a' Heffect).
    apply filter_all. intros q Hq Hin. apply Hws in Hin. unfold parkedOn in Hq.
    apply list_elem_of_filter in Hq as [Hq _]. congruence.
  - intros q Hq. assert (q ∉ ws) as Hout by (intros Hin; by apply Hq, Hws).
    split_and!.
    + rewrite (unparked_enqueued ws st st' q Heffect). tauto.
    + by apply (unparked_others _ _ _ Heffect).
    + by apply (unparked_address _ _ _ Heffect).
Qed.

(** Property X12.  [unparkOne(address)] and [unparkAll(address)] signal only
    threads parked on [address].  The threads parked on another address, also
    those in the same bucket, stay parked in the same order, and their
    [shouldPark] and [address] stay as they are. *)
Theorem unpark_leaves_other_addresses a st :
  WellFormed st →
  ∃ result st1 st2,
    ParkingLot.unparkOne a st = Some (result, st1) ∧ untouchedExcept a st st1 ∧
    ParkingLot.unparkAll a st = Some st2 ∧ untouchedExcept a st st2.
Proof.
  intros Hwf.
  destruct (unparkOne_effect a st Hwf) as (st1 & Hrun1 & _ & Heffect1).
  destruct (unparkAll_effect a st Hwf) as (st2 & Hrun2 & _ & Heffect2).
  eexists _, st1, st2. split_and!; [done| |done|].
  - apply (unparked_untouched a (take 1 (parkedOn st a))); [|done].
    intros q Hq. by apply (subseteq_take 1 (parkedOn st a)).
  - by apply (unparked_untouched a (parkedOn st a)).
Qed.
End UnparkKeepsConsistent.

Section WaitLoop.
Context `{PtrHash}.

(** Property X13.  The end of [parkConditionally] is the wait loop: a thread
    that parked keeps waiting exactly as long as its record is in a queue, and
    changes nothing meanwhile.  Once the record is out, the thread clears
    [address], returns true and may park again; the queues do not change by
    that. *)
Theorem parked_thread_waits_while_enqueued me p st :
  Consistent st → threadData st !! me = Some p →
  ∃ outcome st',
    ParkingLot.resumeParked p st = Some (outcome, st') ∧
    (outcome = ParkingLot.Waiting ↔ enqueued st p) ∧
    (outcome = ParkingLot.Waiting → st' = st) ∧
    (outcome ≠ ParkingLot.Waiting →
       outcome = ParkingLot.Returned true ∧ addressOf (heap st') p = 0 ∧ canPark st' me) ∧
    Consistent st' ∧
    (∀ i, queueAt st' i = queueAt st i) ∧
    (∀ a, parkedOn st' a = parkedOn st a) ∧
    threadData st' = threadData st ∧ notified st' = notified st ∧
    (∀ (U : Type) (validation : U → bool * U) a u,
       ParkingLot.parkConditionally me a validation st u
       = '(p0, st0) ← myThreadData me st;
         '(result, st1, u') ← enqueue a (ParkingLot.parkFunctor validation p0 a) st0 u;
         if negb result then Some (ParkingLot.Returned false, st1, u') else
         '(outcome, st2) ← ParkingLot.resumeParked p0 st1;
         Some (outcome, st2, u')).
Proof.
  intros Hc Hme.
  destruct (resumeParked_consistent me p st Hc Hme) as (td & Htd & Hrun & Hsp & Hdone).
  assert (∀ (U : Type) (validation : U → bool * U) a u,
       ParkingLot.parkConditionally me a validation st u
       = '(p0, st0) ← myThreadData me st;
         '(result, st1, u') ← enqueue a (ParkingLot.parkFunctor validation p0 a) st0 u;
         if negb result then Some (ParkingLot.Returned false, st1, u') else
         '(outcome, st2) ← ParkingLot.resumeParked p0 st1;
         Some (outcome, st2, u')) as Hunfold.
  { intros U validation a u. unfold ParkingLot.parkConditionally, ParkingLot.resumeParked.
    destruct (myThreadData me st) as [[p0 st0]|]; [|done]. cbn [mbind option_bind].
    destruct (enqueue _ _ _ _) as [[[result st1] u']|]; [|done]. cbn [mbind option_bind].
    destruct result; [|done]. cbn [negb].
    destruct (heap st1 !! p0) as [td0|]; [|done]. cbn [mbind option_bind].
    by destruct (shouldPark td0). }
  destruct (shouldPark td) eqn:Hpark.
  - exists ParkingLot.Waiting, st. split_and!; try done.
    split; [intros _; by apply Hsp|done].
  - destruct (Hdone _ eq_refl eq_refl) as (Hc' & Hcan & Hat & Hparked).
    eexists _, _. split_and!; try done.
    + split; [done|]. intros Henq. apply Hsp in Henq. done.
    + intros _. split_and!; [done| |done].
      unfold addressOf. simpl. by rewrite lookup_insert_eq.
Qed.
End WaitLoop.

Section Handshake.
Context `{PtrHash} {U : Type}.

(** Property X14.  A park and the unpark that answers it.  When no thread is
    parked on [address], a thread whose validation accepts waits; one
    [unparkOne(address)] signals this thread and no other; the thread then
    leaves the wait loop, with [parkConditionally] returning true and a null
    [address] in its record; the threads parked on any address are then the
    ones from before the park, and a further [unparkOne(address)] finds
    nothing and returns false. *)
Theorem park_unpark_handshake me a (validation : U → bool * U) st u :
  Consistent st → canPark st me → (validation u).1 = true → parkedOn st a = [] →
  ∃ p st1 result st2 st3,
    ParkingLot.parkConditionally me a validation st u
    = Some (ParkingLot.Waiting, st1, (validation u).2) ∧
    threadData st1 !! me = Some p ∧
    ParkingLot.resumeParked p st1 = Some (ParkingLot.Waiting, st1) ∧
    ParkingLot.unparkOne a st1 = Some (result, st2) ∧
    notified st2 = notified st ++ [p] ∧
    ParkingLot.resumeParked p st2 = Some (ParkingLot.Returned true, st3) ∧
    Consistent st3 ∧ canPark st3 me ∧
    addressOf (heap st3) p = 0 ∧
    (∀ a', parkedOn st3 a' = parkedOn st a') ∧
    ParkingLot.unparkOne a st3 = Some (false, st3).
Proof.
  intros Hc Hme Hvalid Hnone.
  destruct (parkConditionally_consistent validation me a st u Hc Hme)
    as (p & st1 & Hrun1 & Hc1 & Hp1 & Hsp1 & Haddr1).
  rewrite Hvalid in Hrun1, Hsp1. specialize (Haddr1 Hvalid).
  destruct (parkConditionally_accepted validation me a st u (consistent_wf _ Hc)
              (canPark_notParked st me Hc Hme) Hvalid)
    as (p' & st1' & Hrun1' & _ & Hp1' & Hparked1 & Hothers1 & _ & Hlog1).
  rewrite Hrun1 in Hrun1'. injection Hrun1' as <-.
  rewrite Hp1 in Hp1'. injection Hp1' as <-. rewrite Hnone in Hparked1. simpl in Hparked1.
  destruct (resumeParked_consistent me p st1 Hc1 Hp1) as (td1 & Htd1 & Hres1 & _ & _).
  rewrite Htd1 in Hsp1. injection Hsp1 as Hsp1. rewrite Hsp1 in Hres1.
  destruct (unparkOne_effect a st1 (consistent_wf _ Hc1)) as (st2 & Hrun2 & Hwf2 & Heffect2).
  rewrite Hparked1 in Heffect2. simpl in Heffect2.
  pose proof (Consistent_unparked _ _ _ Hc1 Hwf2 Heffect2) as Hc2.
  assert (threadData st2 !! me = Some p) as Hp2
    by (by rewrite (unparked_threadData _ _ _ Heffect2)).
  destruct (resumeParked_consistent me p st2 Hc2 Hp2) as (td2 & Htd2 & Hres2 & _ & Hdone2).
  destruct (unparked_woken _ _ _ Heffect2 p (list_elem_of_here _ _)) as (_ & Hsp2 & _).
  rewrite Htd2 in Hsp2. injection Hsp2 as Hsp2. rewrite Hsp2 in Hres2.
  destruct (Hdone2 _ eq_refl Hsp2) as (Hc3 & Hcan3 & _ & Hparked3).
  assert (∀ a', parkedOn st2 a' = parkedOn st a') as Hparked2.
  { intros a'. rewrite (unparked_parkedOn _ _ _ a' Heffect2).
    destruct (decide (a' = a)) as [->|Hne].
    - rewrite Hparked1, Hnone. rewrite filter_cons, decide_False; [done|].
      intros Hnot. apply Hnot, list_elem_of_here.
    - rewrite Hothers1 by done. apply filter_all. intros q Hq ->%list_elem_of_singleton.
      rewrite <- Hothers1 in Hq by done. unfold parkedOn in Hq.
      apply list_elem_of_filter in Hq as [Hq _]. congruence. }
  eexists p, st1, _, st2, _. split_and!; try done.
  - by rewrite (unparked_notified _ _ _ Heffect2), Hlog1.
  - unfold addressOf. simpl. by rewrite lookup_insert_eq.
  - intros a'. by rewrite Hparked3, Hparked2.
  - apply unparkOne_none; [by apply (consistent_wf _ Hc3)|].
    by rewrite Hparked3, Hparked2.
Qed.
End Handshake.

Section ConsistencyExamples.
#[local] Existing Instance identityHash.

(** A fifth thread parks on [fourWaiters]; this makes its record and
    rehashes. *)
Lemma parkConditionally_keeps_consistent_witness :
  (Consistent fourWaiters ∧ canPark fourWaiters 5%positive) ∧
  ∃ p st',
    ParkingLot.parkConditionally 5%positive 100 alwaysValid fourWaiters tt
    = Some (ParkingLot.Waiting, st', tt) ∧
    Consistent st' ∧ threadData st' !! 5%positive = Some p ∧
    shouldPark <$> heap st' !! p = Some true ∧ enqueued st' p.
Proof.
  assert (canPark fourWaiters 5%positive) as Hcan
    by (apply newThread_canPark; vm_compute; reflexivity).
  split; [split; [exact Consistent_fourWaiters|exact Hcan]|].
  destruct (parkConditionally_keeps_consistent 5%positive 100 alwaysValid fourWaiters tt
              Consistent_fourWaiters Hcan)
    as (p & st' & Hrun & Hc' & Hp & Hsp & Henq & _).
  exists p, st'. split; [exact Hrun|]. split; [exact Hc'|]. split; [exact Hp|].
  split; [exact Hsp|]. apply Henq. reflexivity.
Defined.

(** [unparkOne(100)] on [fourWaiters]. *)
Lemma unparkOne_keeps_consistent_witness :
  Consistent fourWaiters ∧
  ∃ result st', ParkingLot.unparkOne 100 fourWaiters = Some (result, st') ∧
    Consistent st' ∧
    notified st' = notified fourWaiters ++ option_list (head (parkedOn fourWaiters 100)).
Proof.
  split; [exact Consistent_fourWaiters|].
  destruct (unparkOne_keeps_consistent 100 fourWaiters Consistent_fourWaiters)
    as (result & st' & Hrun & Hc' & Hlog & _).
  exists result, st'. split; [exact Hrun|]. split; [exact Hc'|exact Hlog].
Defined.

(** [unparkAll(100)] on [fourWaiters]. *)
Lemma unparkAll_keeps_consistent_witness :
  Consistent fourWaiters ∧
  ∃ st', ParkingLot.unparkAll 100 fourWaiters = Some st' ∧
    Consistent st' ∧
    notified st' = notified fourWaiters ++ parkedOn fourWaiters 100.
Proof.
  split; [exact Consistent_fourWaiters|].
  destruct (unparkAll_keeps_consistent 100 fourWaiters Consistent_fourWaiters)
    as (st' & Hrun & Hc' & Hlog & _).
  exists st'. split; [exact Hrun|]. split; [exact Hc'|exact Hlog].
Defined.

(** In [sharedBucket] the thread parked on 112 shares the bucket of the
    thread parked on 100. *)
Lemma unpark_leaves_other_addresses_witness :
  WellFormed sharedBucket ∧
  ∃ result st1 st2,
    ParkingLot.unparkOne 100 sharedBucket = Some (result, st1) ∧
    untouchedExcept 100 sharedBucket st1 ∧
    ParkingLot.unparkAll 100 sharedBucket = Some st2 ∧
    untouchedExcept 100 sharedBucket st2.
Proof.
  split; [exact sharedBucket_wf|].
  exact (unpark_leaves_other_addresses 100 sharedBucket sharedBucket_wf).
Defined.

(** The thread of [oneWaiter] waits. *)
Lemma parked_thread_waits_while_enqueued_witness :
  (Consistent oneWaiter ∧ threadData oneWaiter !! 1%positive = Some 1%positive) ∧
  ∃ outcome st',
    ParkingLot.resumeParked 1%positive oneWaiter = Some (outcome, st') ∧
    (outcome = ParkingLot.Waiting ↔ enqueued oneWaiter 1%positive) ∧
    (outcome = ParkingLot.Waiting → st' = oneWaiter).
Proof.
  assert (threadData oneWaiter !! 1%positive = Some 1%positive) as Hme
    by (vm_compute; reflexivity).
  split; [split; [exact Consistent_oneWaiter|exact Hme]|].
  destruct (parked_thread_waits_while_enqueued 1%positive 1%positive oneWaiter
              Consistent_oneWaiter Hme)
    as (outcome & st' & Hrun & Hwait & Hsame & _).
  exists outcome, st'. split; [exact Hrun|]. split; [exact Hwait|exact Hsame].
Defined.

(** The first thread parks on address 100 and is unparked. *)
Lemma park_unpark_handshake_witness :
  (Consistent initialState ∧ canPark initialState 1%positive ∧
   (alwaysValid tt).1 = true ∧ parkedOn initialState 100 = []) ∧
  ∃ p st1 result st2 st3,
    ParkingLot.parkConditionally 1%positive 100 alwaysValid initialState tt
    = Some (ParkingLot.Waiting, st1, tt) ∧
    ParkingLot.unparkOne 100 st1 = Some (result, st2) ∧
    notified st2 = [p] ∧
    ParkingLot.resumeParked p st2 = Some (ParkingLot.Returned true, st3) ∧
    ParkingLot.unparkOne 100 st3 = Some (false, st3).
Proof.
  assert (canPark initialState 1%positive) as Hcan
    by (apply newThread_canPark; vm_compute; reflexivity).
  assert (parkedOn initialState 100 = []) as Hnone by reflexivity.
  split; [split; [exact Consistent_initialState|split; [exact Hcan|split;
            [reflexivity|exact Hnone]]]|].
  destruct (park_unpark_handshake 1%positive 100 alwaysValid initialState tt
              Consistent_initialState Hcan eq_refl Hnone)
    as (p & st1 & result & st2 & st3 & Hrun1 & _ & _ & Hrun2 & Hlog & Hres & _ & _ & _ & _
        & Hrun3).
  exists p, st1, result, st2, st3. split; [exact Hrun1|]. split; [exact Hrun2|].
  split; [exact Hlog|]. split; [exact Hres|exact Hrun3].
Defined.
End ConsistencyExamples.

(** ** No bucket is lost in a rehash *)

Lemma materializeAll_keeps n : ∀ bs t found j bucket,
  Hashtable.data t !! j = Some bucket →
  Hashtable.data (materializeAll n bs t found).2 !! j = Some bucket.
Proof.
  induction n as [|n IH]; intros bs t found j bucket Hj; [done|].
  cbn [materializeAll]. unfold materializeBucket, newBucket.
  destruct (Hashtable.data t !! Z.of_nat n) as [b0|] eqn:Hslot.
  - by apply IH.
  - apply IH. simpl. rewrite lookup_insert_ne; [done|]. intros <-. congruence.
Qed.

Lemma materializeAll_length n : ∀ bs t found,
  length (materializeAll n bs t found).1.1 = (length found + n)%nat.
Proof.
  induction n as [|n IH]; intros bs t found; [simpl; lia|].
  cbn [materializeAll]. unfold materializeBucket, newBucket.
  destruct (Hashtable.data t !! Z.of_nat n) as [b0|].
  - rewrite IH, length_app. simpl. lia.
  - rewrite IH, length_app. simpl. lia.
Qed.

Lemma filter_length_insert {T} (P Q : T → Prop) `{!∀ x, Decision (P x)}
    `{!∀ x, Decision (Q x)} (l : list T) i :
  NoDup l → i ∈ l → ¬ P i → (∀ j, Q j ↔ P j ∨ j = i) →
  length (filter Q l) = S (length (filter P l)).
Proof.
  induction l as [|x l IH]; intros Hnd Hin Hi HQ; [by apply elem_of_nil in Hin|].
  apply NoDup_cons in Hnd as [Hx Hnd]. rewrite !filter_cons.
  apply elem_of_cons in Hin as [<-|Hin].
  - rewrite decide_True by (apply HQ; by right). rewrite decide_False by done.
    simpl. f_equal. f_equal. apply filter_ext_in. intros j Hj. rewrite HQ.
    split; [|by left]. intros [?| ->]; done.
  - assert (x ≠ i) as Hne by (by intros ->).
    destruct (decide (P x)) as [HP|HP].
    + rewrite decide_True by (apply HQ; by left). simpl. f_equal. by apply IH.
    + rewrite decide_False by (rewrite HQ; tauto). by apply IH.
Qed.

Lemma filter_length_complement {T} (P : T → Prop) `{!∀ x, Decision (P x)} (l : list T) :
  (length (filter P l) + length (filter (λ x, ¬ P x) l))%nat = length l.
Proof.
  induction l as [|x l IH]; [done|]. rewrite !filter_cons.
  destruct (decide (P x)) as [HP|HP].
  - rewrite decide_False by tauto. simpl. lia.
  - rewrite decide_True by done. simpl. lia.
Qed.

Lemma bucketAt_count k i bs t reusable bucket bs1 t1 reusable1 :
  0 ≤ i < Hashtable.size t →
  bucketAt i bs t reusable = (bucket, bs1, t1, reusable1) →
  Hashtable.size t1 = Hashtable.size t ∧
  (∀ j b, Hashtable.data t !! j = Some b → Hashtable.data t1 !! j = Some b) ∧
  (∀ b, b ∈ reusable → b ∈ reusable1 ∨ hasBucket t1 b) ∧
  (reusable = [] ∨ (length (slotsInUse t) + length reusable)%nat = k →
   reusable1 = [] ∨ (length (slotsInUse t1) + length reusable1)%nat = k).
Proof.
  intros Hi. unfold bucketAt.
  destruct (Hashtable.data t !! i) as [bucket0|] eqn:Hslot.
  { intros [= <- <- <- <-]. split_and!; try done. intros b Hb. by left. }
  assert (length (slotsInUse (Hashtable.store i bucket t)) = S (length (slotsInUse t)))
    as Hcount.
  { unfold slotsInUse. simpl. apply (filter_length_insert _ _ _ i).
    - apply NoDup_seqZ.
    - apply elem_of_seqZ. lia.
    - rewrite Hslot. by intros [].
    - intros j. destruct (decide (j = i)) as [->|Hne].
      + rewrite lookup_insert_eq. split; [by right|by eexists].
      + rewrite lookup_insert_ne by done. split; [by left|]. by intros [|]. }
  assert (∀ j b, Hashtable.data t !! j = Some b →
                 Hashtable.data (Hashtable.store i bucket t) !! j = Some b) as Hkeeps.
  { intros j b Hj. simpl. rewrite lookup_insert_ne; [done|]. intros <-. congruence. }
  destruct (takeLast reusable) as [[bucket0 reusable']|] eqn:Hlast.
  - apply takeLast_Some in Hlast as ->. intros [= <- <- <- <-]. split_and!; try done.
    + intros b [Hb| ->%list_elem_of_singleton]%elem_of_app; [by left|].
      right. exists i. simpl. by rewrite lookup_insert_eq.
    + intros [Hnil|Hk]; [by destruct reusable'|]. right.
      rewrite Hcount. rewrite length_app in Hk. simpl in Hk. lia.
  - apply takeLast_None in Hlast as ->. unfold newBucket. intros [= <- <- <- <-].
    split_and!; try done.
    + by intros b ?%elem_of_nil.
    + intros _. by left.
Qed.

Section RehashCount.
Context `{PtrHash}.

Lemma rehash_count k threadDatas : ∀ h bs t reusable h' bs' t' reusable',
  0 < Hashtable.size t →
  rehash threadDatas h bs t reusable = Some (h', bs', t', reusable') →
  Hashtable.size t' = Hashtable.size t ∧
  (∀ j b, Hashtable.data t !! j = Some b → Hashtable.data t' !! j = Some b) ∧
  (∀ b, b ∈ reusable → b ∈ reusable' ∨ hasBucket t' b) ∧
  (reusable = [] ∨ (length (slotsInUse t) + length reusable)%nat = k →
   reusable' = [] ∨ (length (slotsInUse t') + length reusable')%nat = k).
Proof.
  induction threadDatas as [|threadData rest IH];
    intros h bs t reusable h' bs' t' reusable' Hsize Hrun.
  { simpl in Hrun. injection Hrun as <- <- <- <-. split_and!; try done.
    intros b Hb. by left. }
  cbn [rehash] in Hrun.
  destruct (h !! threadData) as [td|] eqn:Htd; [|done]. cbn [mbind option_bind] in Hrun.
  destruct (Hashtable.size t =? 0); [done|].
  set (i := hashAddress (address td) `mod` Hashtable.size t) in *.
  assert (0 ≤ i < Hashtable.size t) as Hi by (apply Z.mod_pos_bound; lia).
  destruct (bucketAt i bs t reusable) as [[[bucket bs1] t1] reusable1] eqn:Hat.
  destruct (bucketAt_count k _ _ _ _ _ _ _ _ Hi Hat) as (Hsize1 & Hkeeps1 & Hin1 & Hcount1).
  destruct (bs1 !! bucket) as [b|] eqn:Hb; [|done]. cbn [mbind option_bind] in Hrun.
  destruct (Bucket.enqueue h b threadData) as [[h1 b1]|] eqn:Henq; [|done].
  cbn [mbind option_bind] in Hrun.
  assert (0 < Hashtable.size t1) as Hpos1 by lia.
  destruct (IH _ _ _ _ _ _ _ _ Hpos1 Hrun) as (Hsize' & Hkeeps' & Hin' & Hcount').
  split_and!.
  - congruence.
  - intros j b0 Hj. by apply Hkeeps', Hkeeps1.
  - intros b0 Hb0. destruct (Hin1 b0 Hb0) as [Hr|[j Hj]]; [by apply Hin'|].
    right. exists j. by apply Hkeeps'.
  - intros Hk. by apply Hcount', Hcount1.
Qed.
End RehashCount.

Lemma placeLeftovers_count n : ∀ i t reusable,
  (length reusable
   ≤ length (filter (λ j, ¬ is_Some (Hashtable.data t !! j)) (seqZ i (Z.of_nat n))))%nat →
  (placeLeftovers n i t reusable).2 = [] ∧
  (∀ j b, Hashtable.data t !! j = Some b →
          Hashtable.data (placeLeftovers n i t reusable).1 !! j = Some b) ∧
  (∀ b, b ∈ reusable → hasBucket (placeLeftovers n i t reusable).1 b).
Proof.
  induction n as [|n IH]; intros i t reusable Hroom.
  { simpl in *. destruct reusable; [|simpl in Hroom; lia].
    split_and!; try done. by intros b ?%elem_of_nil. }
  cbn [placeLeftovers]. destruct (takeLast reusable) as [[bucket reusable']|] eqn:Hlast.
  2:{ apply takeLast_None in Hlast as ->. split_and!; try done.
      by intros b ?%elem_of_nil. }
  apply takeLast_Some in Hlast as ->.
  rewrite seqZ_cons in Hroom by lia. rewrite filter_cons in Hroom.
  replace (Z.pred (Z.of_nat (S n))) with (Z.of_nat n) in Hroom by lia.
  replace (Z.succ i) with (i + 1) in Hroom by lia.
  destruct (Hashtable.data t !! i) as [b0|] eqn:Hslot.
  - rewrite decide_False in Hroom by (intros Hnot; apply Hnot; by eexists).
    by apply IH.
  - rewrite decide_True in Hroom by (by intros []). rewrite length_app in Hroom.
    simpl in Hroom.
    destruct (IH (i + 1) (Hashtable.store i bucket t) reusable') as (Hnil & Hkeeps & Hin).
    { assert (filter (λ j, ¬ is_Some (Hashtable.data (Hashtable.store i bucket t) !! j))
                (seqZ (i + 1) (Z.of_nat n))
              = filter (λ j, ¬ is_Some (Hashtable.data t !! j)) (seqZ (i + 1) (Z.of_nat n)))
        as ->.
      { apply filter_ext_in. intros j Hj. apply elem_of_seqZ in Hj. simpl.
        by rewrite lookup_insert_ne by lia. }
      lia. }
    split_and!; [done| |].
    + intros j b Hj. apply Hkeeps. simpl. rewrite lookup_insert_ne; [done|].
      intros <-. congruence.
    + intros b [Hb| ->%list_elem_of_singleton]%elem_of_app; [by apply Hin|].
      exists i. apply Hkeeps. simpl. by rewrite lookup_insert_eq.
Qed.

Section NoLeak.
Context `{PtrHash}.

Lemma ensureHashtableSize_inv n st st' :
  ensureHashtableSize n st = Some st' →
  st' = st ∨ st' = (lockHashtable st).2 ∨
  ∃ t1 h1 bs1 threadDatas newSize h2 bs2 filled reusable2,
    hashtable (lockHashtable st).2 = Some t1 ∧
    drainBuckets (lockHashtable st).1 (heap (lockHashtable st).2)
      (buckets (lockHashtable st).2) [] = Some (h1, bs1, threadDatas) ∧
    Hashtable.size t1 < newSize ∧
    rehash threadDatas h1 bs1 (Hashtable.create newSize) (lockHashtable st).1
    = Some (h2, bs2, filled, reusable2) ∧
    st' = withTable bs2 (placeLeftovers (Z.to_nat newSize) 0 filled reusable2).1
            (withHeap h2 (lockHashtable st).2).
Proof.
  unfold ensureHashtableSize.
  set (newSize := wrapUnsigned (wrapUnsigned (n * growthFactor) * maxLoadFactor)).
  destruct (noNeedToRehash st n); [intros [= <-]; by left|].
  destruct (lockHashtable st) as [sorted st1]. simpl.
  destruct (noNeedToRehash st1 n); [intros [= <-]; right; by left|].
  destruct (hashtable st1) as [t1|]; [|done]. cbn [mbind option_bind].
  destruct (drainBuckets sorted (heap st1) (buckets st1) [])
    as [[[h1 bs1] threadDatas]|]; [|done].
  cbn [mbind option_bind].
  destruct (Hashtable.size t1 <? newSize) eqn:Hgrow; [|done]. cbn [negb].
  apply Z.ltb_lt in Hgrow.
  destruct (rehash threadDatas h1 bs1 _ sorted) as [[[[h2 bs2] filled] reusable2]|] eqn:Hre;
    [|done].
  cbn [mbind option_bind].
  destruct (placeLeftovers _ 0 filled reusable2) as [final leftover] eqn:Hplace.
  intros [= <-]. right. right.
  exists t1, h1, bs1, threadDatas, newSize, h2, bs2, filled, reusable2.
  split_and!; try done. by rewrite Hplace.
Qed.

Lemma ensureHashtableSize_buckets n st st' t bucket :
  WellFormed st → ensureHashtableSize n st = Some st' →
  hashtable st = Some t → hasBucket t bucket →
  ∃ t', hashtable st' = Some t' ∧ hasBucket t' bucket.
Proof.
  intros Hwf Hrun Ht [j Hj].
  pose proof (lockHashtable_unfold st) as Hlock. simpl in Hlock.
  rewrite Ht in Hlock. simpl in Hlock.
  set (r := materializeAll (Z.to_nat (Hashtable.size t)) (buckets st) t []) in *.
  assert (Hashtable.data r.2 !! j = Some bucket) as Hj1 by (by apply materializeAll_keeps).
  destruct (ensureHashtableSize_inv n st st' Hrun)
    as [->|[->|(t1 & h1 & bs1 & tds & newSize & h2 & bs2 & filled & reusable2 & Ht1 & _
               & Hgrow & Hrehash & ->)]].
  - exists t. split; [done|by exists j].
  - rewrite Hlock. simpl. exists r.2. split; [done|by exists j].
  - rewrite Hlock in Ht1, Hrehash. simpl in Ht1, Hrehash. injection Ht1 as <-.
    destruct (lockHashtable_spec st Hwf)
      as (sorted & bs' & t' & Hrun' & Hinv & Hsize & Hsorted & _).
    rewrite Hlock in Hrun'. injection Hrun' as Hs _ Ht'. rewrite <- Ht' in *.
    rewrite Ht in Hsize. simpl in Hsize.
    assert (bucket ∈ merge_sort Pos.le r.1.1) as Hin
      by (rewrite Hs; apply Hsorted; by exists j).
    assert (length (merge_sort Pos.le r.1.1) = Z.to_nat (Hashtable.size t)) as Hk.
    { rewrite (Permutation_length (merge_sort_Permutation Pos.le r.1.1)).
      unfold r. by rewrite materializeAll_length. }
    pose proof (table_size _ _ _ Hinv) as Hpos.
    assert (0 < Hashtable.size (Hashtable.create newSize)) as Hnew by (simpl; lia).
    destruct (rehash_count (length (merge_sort Pos.le r.1.1)) _ _ _ _ _ _ _ _ _
                Hnew Hrehash) as (Hsize2 & _ & Hin2 & Hcount2).
    simpl in Hsize2.
    assert (slotsInUse (Hashtable.create newSize) = []) as Hempty.
    { unfold slotsInUse. apply filter_none, Forall_forall. intros i _. simpl.
      rewrite lookup_empty. by intros []. }
    destruct (placeLeftovers_count (Z.to_nat newSize) 0 filled reusable2)
      as (_ & Hkeeps3 & Hin3).
    { destruct Hcount2 as [->|Hcount2]; [by right; rewrite Hempty|simpl; lia|].
      pose proof (filter_length_complement (λ j, is_Some (Hashtable.data filled !! j))
                    (seqZ 0 (Z.of_nat (Z.to_nat newSize)))) as Hsum.
      rewrite length_seqZ in Hsum. unfold slotsInUse in Hcount2. rewrite Hsize2 in Hcount2.
      rewrite Z2Nat.id in Hsum by lia. rewrite Z2Nat.id by lia. lia. }
    eexists. split; [done|]. destruct (Hin2 bucket Hin) as [Hr|[i Hi]].
    + by apply Hin3.
    + exists i. by apply Hkeeps3.
Qed.

(** Property X7.  [ensureHashtableSize] does not lose a bucket: whenever it
    returns, every bucket of the hashtable it found is a bucket of the
    hashtable it leaves.  In a rehash the buckets left over after the thread
    datas are placed all find an empty slot of the new, larger table, as
    [ASSERT(reusableBuckets.isEmpty())] says. *)
Theorem ensureHashtableSize_keeps_buckets n st :
  WellFormed st →
  ∀ st' t,
    ensureHashtableSize n st = Some st' → hashtable st = Some t →
    ∃ t', hashtable st' = Some t' ∧
      Hashtable.size t ≤ Hashtable.size t' ∧
      ∀ bucket, hasBucket t bucket → hasBucket t' bucket.
Proof.
  intros Hwf st' t Hrun Ht.
  destruct (ensureHashtableSize_cases n st st' Hwf Hrun) as [Hcases Hsize].
  assert (is_Some (hashtable st')) as [t' Ht'].
  { destruct Hcases as [->|[]]; [by eexists|done]. }
  exists t'. split; [done|]. split.
  - unfold tableSize in Hsize. by rewrite Ht, Ht' in Hsize.
  - intros bucket Hb.
    destruct (ensureHashtableSize_buckets n st st' t bucket Hwf Hrun Ht Hb)
      as (t'' & Ht'' & Hb''). congruence.
Qed.
End NoLeak.

Section NoLeakExample.
#[local] Existing Instance identityHash.

(** The rehash of [fourWaiters] for a fifth thread keeps the twelve buckets
    of the old table. *)
Lemma ensureHashtableSize_keeps_buckets_witness :
  WellFormed fourWaiters ∧
  ∃ st', ensureHashtableSize 5 fourWaiters = Some st' ∧
    ∀ t, hashtable fourWaiters = Some t →
      ∃ t', hashtable st' = Some t' ∧
        Hashtable.size t ≤ Hashtable.size t' ∧
        ∀ bucket, hasBucket t bucket → hasBucket t' bucket.
Proof.
  split; [exact fourWaiters_wf|].
  assert (ensureHashtableSize 5 fourWaiters ≫= (λ _, Some tt) = Some tt) as Hsome
    by (vm_compute; reflexivity).
  destruct (ensureHashtableSize 5 fourWaiters) as [st'|] eqn:Hrun; [|discriminate Hsome].
  exists st'. split; [reflexivity|]. intros t Ht.
  exact (ensureHashtableSize_keeps_buckets 5 fourWaiters fourWaiters_wf st' t Hrun Ht).
Defined.
End NoLeakExample.

(** ** The invariant between calls *)

Section Invariant.
Context `{PtrHash}.

Lemma Consistent_same_heap st st' :
  Consistent st → WellFormed st' →
  heap st' = heap st → threadData st' = threadData st →
  is_Some (hashtable st') → (∀ i, queueAt st' i = queueAt st i) →
  Consistent st'.
Proof.
  intros [Hwf Hthreads Hrecords] Hwf' Hheap Htd Ht Hat.
  assert (∀ q, enqueued st' q ↔ enqueued st q) as Henq
    by (intros q; unfold enqueued; by setoid_rewrite Hat).
  split; [done| |].
  - intros me p. rewrite Htd, Hheap. intros Hme. by destruct (Hthreads me p Hme).
  - intros p td. rewrite Hheap, Henq. apply Hrecords.
Qed.

Lemma parkConditionally_counts {U : Type} me a (validation : U → bool * U) st u
    outcome st' u' :
  Consistent st → canPark st me →
  numThreads st = Z.of_nat (size (threadData st)) →
  (is_Some (hashtable st) → maxLoadFactor * numThreads st ≤ tableSize st) →
  ParkingLot.parkConditionally me a validation st u = Some (outcome, st', u') →
  numThreads st' = Z.of_nat (size (threadData st')) ∧
  maxLoadFactor * numThreads st' ≤ tableSize st'.
Proof.
  intros Hc Hme Hcount Hload Hrun. unfold ParkingLot.parkConditionally in Hrun.
  destruct (myThreadData me st) as [[p st0]|] eqn:Hmy; [|done].
  cbn [mbind option_bind] in Hrun.
  destruct (enqueue a _ st0 u) as [[[result st1] u1]|] eqn:Henq; [|done].
  cbn [mbind option_bind] in Hrun.
  destruct (enqueue_globals _ _ _ _ _ _ _ Henq) as (_ & Hn1 & Htd1 & _ & Hsize1).
  assert (numThreads st0 = Z.of_nat (size (threadData st0)) ∧
          maxLoadFactor * numThreads st0 ≤ tableSize st0) as [Hcount0 Hload0].
  { unfold canPark in Hme. destruct (threadData st !! me) as [p0|] eqn:Hp0.
    - unfold myThreadData in Hmy. rewrite Hp0 in Hmy. injection Hmy as <- <-.
      split; [done|]. apply Hload. by destruct (consistent_threads _ Hc me p0 Hp0).
    - destruct Hme as [Hn0 Hn1'].
      destruct (myThreadData_created me st (consistent_wf _ Hc) Hp0 Hn0 Hn1')
        as (p' & st0' & Hmy' & _ & _ & Hn' & Hload' & _ & _ & _ & Htd' & _).
      rewrite Hmy in Hmy'. injection Hmy' as <- <-. split; [|done].
      rewrite Hn', Htd', Hcount. rewrite map_size_insert_None by done. lia. }
  assert (numThreads st' = numThreads st1 ∧ threadData st' = threadData st1 ∧
          tableSize st' = tableSize st1) as (-> & -> & ->).
  { destruct (negb result); [by injection Hrun as <- <- <-|].
    destruct (heap st1 !! p) as [td|]; [|done]. cbn [mbind option_bind] in Hrun.
    destruct (shouldPark td); by injection Hrun as <- <- <-. }
  by rewrite Hn1, Htd1, Hsize1.
Qed.

Lemma alter_identifier (f : ThreadData → ThreadData) (h : Heap) p q :
  (∀ td, threadIdentifier (f td) = threadIdentifier td) →
  threadIdentifier <$> alter f p h !! q = threadIdentifier <$> h !! q.
Proof.
  intros Hf. destruct (decide (p = q)) as [<-|Hne].
  - rewrite lookup_alter_eq. destruct (h !! p) as [td|]; [|done]. simpl. by rewrite Hf.
  - by rewrite lookup_alter_ne.
Qed.

Lemma enqueue_identifier {U : Type} (validation : U → bool * U) a p st u r st' u' q :
  enqueue a (ParkingLot.parkFunctor validation p a) st u = Some (r, st', u') →
  threadIdentifier <$> heap st' !! q = threadIdentifier <$> heap st !! q.
Proof.
  unfold enqueue. destruct (hashtable st) as [t|]; [|done]. cbn [mbind option_bind].
  destruct (Hashtable.size t =? 0); [done|].
  destruct (materializeBucket _ (buckets st) t) as [[bucket bs1] t1].
  destruct (bs1 !! bucket) as [b|]; [|done]. cbn [mbind option_bind].
  unfold ParkingLot.parkFunctor. destruct (validation u) as [[] u1]; cbn [negb].
  2:{ by intros [= <- <- <-]. }
  unfold Bucket.enqueue. destruct (queueTail b) as [tl|].
  - unfold storeNext. destruct (alter _ p (heap st) !! tl) as [tdtl|] eqn:Htl; [|done].
    cbn [mbind option_bind]. intros [= <- <- <-]. simpl.
    rewrite <- (alter_identifier (λ td, setShouldPark true (setAddress a td))
                  (heap st) p q) by done.
    destruct (decide (q = tl)) as [->|Hne].
    + by rewrite lookup_insert_eq, Htl.
    + by rewrite lookup_insert_ne.
  - cbn [mbind option_bind]. intros [= <- <- <-]. simpl. by apply alter_identifier.
Qed.

Lemma myThreadData_identifier me st p st0 q :
  WellFormed st → threadData st !! me = None → myThreadData me st = Some (p, st0) →
  q ≠ p → threadIdentifier <$> heap st0 !! q = threadIdentifier <$> heap st !! q.
Proof.
  intros Hwf Hme Hrun Hne.
  destruct (myThreadData_new me st p st0 Hme Hrun) as (st2 & Hens & _ & ->). simpl.
  rewrite lookup_insert_ne by done.
  set (st1 := mkState _ _ _ _ _ _) in Hens.
  assert (WellFormed st1) as Hwf1 by done.
  destruct (ensureHashtableSize_cases _ _ _ Hwf1 Hens) as [[->|Hsame] _]; [done|].
  by apply (sameRecords_identifier (heap st1)), (waiters_records _ _ Hsame).
Qed.

Lemma parkConditionally_owned {U : Type} me a (validation : U → bool * U) st u
    outcome st' u' :
  Consistent st → canPark st me → ownRecords st →
  ParkingLot.parkConditionally me a validation st u = Some (outcome, st', u') →
  ownRecords st'.
Proof.
  intros Hc Hme Hown Hrun. unfold ParkingLot.parkConditionally in Hrun.
  destruct (myThreadData me st) as [[p st0]|] eqn:Hmy; [|done].
  cbn [mbind option_bind] in Hrun.
  destruct (enqueue a _ st0 u) as [[[result st1] u1]|] eqn:Henq; [|done].
  cbn [mbind option_bind] in Hrun.
  destruct (enqueue_globals _ _ _ _ _ _ _ Henq) as (_ & _ & Htd1 & _ & _).
  assert (ownRecords st0) as Hown0.
  { unfold canPark in Hme. destruct (threadData st !! me) as [p0|] eqn:Hp0.
    - unfold myThreadData in Hmy. rewrite Hp0 in Hmy. by injection Hmy as <- <-.
    - destruct Hme as [Hn0 Hn1].
      destruct (myThreadData_created me st (consistent_wf _ Hc) Hp0 Hn0 Hn1)
        as (p' & st0' & Hmy' & _ & _ & _ & _ & _ & Hfresh & Hp' & Htd' & _).
      rewrite Hmy in Hmy'. injection Hmy' as <- <-.
      intros me' p'. rewrite Htd'. destruct (decide (me = me')) as [<-|Hne].
      + rewrite lookup_insert_eq. intros [= <-]. by rewrite Hp'.
      + rewrite lookup_insert_ne by done. intros Hme'.
        rewrite (myThreadData_identifier me st p st0 p' (consistent_wf _ Hc) Hp0 Hmy).
        * by apply Hown.
        * intros ->. specialize (Hown me' p Hme'). by rewrite Hfresh in Hown. }
  assert (ownRecords st1) as Hown1.
  { intros me' p'. rewrite Htd1. intros Hme'.
    rewrite (enqueue_identifier validation a p st0 u result st1 u1 p' Henq).
    by apply Hown0. }
  destruct (negb result); [by injection Hrun as _ <- _|].
  destruct (heap st1 !! p) as [td|] eqn:Htd; [|done]. cbn [mbind option_bind] in Hrun.
  destruct (shouldPark td); [by injection Hrun as _ <- _|].
  injection Hrun as _ <- _. intros me' p' Hme'. simpl in *.
  specialize (Hown1 me' p' Hme'). destruct (decide (p' = p)) as [->|Hne].
  - rewrite lookup_insert_eq. by rewrite Htd in Hown1.
  - by rewrite lookup_insert_ne.
Qed.

Lemma myThreadData_address me st p st0 q :
  WellFormed st → threadData st !! me = None → myThreadData me st = Some (p, st0) →
  q ≠ p → addressOf (heap st0) q = addressOf (heap st) q.
Proof.
  intros Hwf Hme Hrun Hne.
  destruct (myThreadData_new me st p st0 Hme Hrun) as (st2 & Hens & _ & ->). simpl.
  unfold addressOf at 1. rewrite lookup_insert_ne by done. fold (addressOf (heap st2) q).
  set (st1 := mkState _ _ _ _ _ _) in Hens.
  assert (WellFormed st1) as Hwf1 by done.
  destruct (ensureHashtableSize_cases _ _ _ Hwf1 Hens) as [[->|Hsame] _]; [done|].
  by apply (sameRecords_address (heap st1)), (waiters_records _ _ Hsame).
Qed.

Lemma parkConditionally_addresses {U : Type} me a (validation : U → bool * U) st u
    outcome st' u' :
  Consistent st → canPark st me → a ≠ 0 →
  (∀ q, enqueued st q → addressOf (heap st) q ≠ 0) →
  ParkingLot.parkConditionally me a validation st u = Some (outcome, st', u') →
  ∀ q, enqueued st' q → addressOf (heap st') q ≠ 0.
Proof.
  intros Hc Hme Ha Haddr Hrun. unfold ParkingLot.parkConditionally in Hrun.
  destruct (myThreadData_consistent me st Hc Hme)
    as (p & st0 & td & Hmy & Hc0 & Hp0 & Htd0 & Hsp0 & Hnext0 & Hnot0).
  rewrite Hmy in Hrun. cbn [mbind option_bind] in Hrun.
  assert (∀ q, enqueued st0 q → addressOf (heap st0) q ≠ 0) as Haddr0.
  { unfold canPark in Hme. destruct (threadData st !! me) as [p0|] eqn:Hme0.
    - unfold myThreadData in Hmy. rewrite Hme0 in Hmy. by injection Hmy as _ <-.
    - destruct Hme as [Hn0 Hn1].
      destruct (myThreadData_created me st (consistent_wf _ Hc) Hme0 Hn0 Hn1)
        as (p' & st0' & Hmy' & _ & _ & _ & _ & _ & _ & _ & _ & _ & _ & Henq0 & _).
      rewrite Hmy in Hmy'. injection Hmy' as <- <-. intros q Hq.
      rewrite (myThreadData_address me st p st0 q (consistent_wf _ Hc) Hme0 Hmy).
      + by apply Haddr, Henq0.
      + by intros ->. }
  pose proof Hc0 as [Hwf0 Hthreads0 _].
  destruct (Hthreads0 me p Hp0) as [_ [t0 Ht0]].
  pose proof Hwf0 as Hinv0. unfold WellFormed in Hinv0. rewrite Ht0 in Hinv0.
  destruct ((validation u).1) eqn:Hvalid.
  - destruct (enqueue_parked validation a p td st0 u t0 Ht0 Hinv0 Htd0 Hnext0 Hnot0 Hvalid)
      as (st1 & Henq & _ & Hp1 & Hqueues & _ & Hframe & _).
    rewrite Henq in Hrun. cbn [mbind option_bind negb] in Hrun. rewrite Hp1 in Hrun.
    cbn [mbind option_bind] in Hrun. simpl in Hrun. injection Hrun as _ <- _.
    intros q [i Hq]. destruct (decide (q = p)) as [->|Hne].
    + by rewrite (addressOf_lookup _ _ _ Hp1).
    + rewrite (Hframe q Hne). apply Haddr0. exists i.
      rewrite Hqueues in Hq. apply elem_of_app in Hq as [Hq|Hq]; [done|].
      destruct (decide _); [|by apply elem_of_nil in Hq].
      by apply list_elem_of_singleton in Hq.
  - destruct (enqueue_declined validation a p st0 u t0 Ht0 Hinv0 Hvalid)
      as (st1 & Henq & _ & Hheap1 & _ & _ & _ & Henq1).
    rewrite Henq in Hrun. cbn [mbind option_bind negb] in Hrun. injection Hrun as _ <- _.
    intros q Hq. rewrite Hheap1. by apply Haddr0, Henq1.
Qed.

Lemma RunInvariant_initialState : RunInvariant initialState.
Proof.
  split; [apply Consistent_initialState|done|by intros []| |].
  - intros me p Hme. simpl in Hme. by rewrite lookup_empty in Hme.
  - intros p [i Hp]. by rewrite queueAt_no_table in Hp by done; apply elem_of_nil in Hp.
Qed.

Lemma RunInvariant_park {U : Type} me a (validation : U → bool * U) st u :
  RunInvariant st → canPark st me → a ≠ 0 →
  ∃ p st',
    ParkingLot.parkConditionally me a validation st u
    = Some (if (validation u).1 then ParkingLot.Waiting else ParkingLot.Returned false,
            st', (validation u).2) ∧
    RunInvariant st' ∧ threadData st' !! me = Some p ∧
    (shouldPark <$> heap st' !! p = Some (validation u).1) ∧
    ((validation u).1 = true → addressOf (heap st') p = a).
Proof.
  intros [Hc Hcount Hload Hown Haddr] Hme Ha.
  destruct (parkConditionally_consistent validation me a st u Hc Hme)
    as (p & st' & Hrun & Hc' & Hp & Hsp & Hpa).
  exists p, st'. split_and!; try done.
  destruct (parkConditionally_counts me a validation st u _ st' _ Hc Hme Hcount Hload Hrun)
    as [Hcount' Hload'].
  split; [done|done|done| |].
  - by apply (parkConditionally_owned me a validation st u _ st' _ Hc Hme Hown Hrun).
  - by apply (parkConditionally_addresses me a validation st u _ st' _ Hc Hme Ha Haddr Hrun).
Qed.

Lemma RunInvariant_resume me p st :
  RunInvariant st → threadData st !! me = Some p →
  ∃ outcome st', ParkingLot.resumeParked p st = Some (outcome, st') ∧
    RunInvariant st' ∧
    (outcome = ParkingLot.Waiting ↔ enqueued st p) ∧
    (outcome = ParkingLot.Waiting ∨ outcome = ParkingLot.Returned true) ∧
    (outcome = ParkingLot.Waiting → st' = st) ∧
    (outcome = ParkingLot.Returned true → canPark st' me).
Proof.
  intros [Hc Hcount Hload Hown Haddr] Hme.
  destruct (resumeParked_consistent me p st Hc Hme) as (td & Htd & Hrun & Hiff & Hdone).
  destruct (shouldPark td) eqn:Hsp.
  - exists ParkingLot.Waiting, st. split_and!; try done; [by rewrite <- Hiff|by left].
  - destruct (Hdone _ eq_refl eq_refl) as (Hc' & Hcan & Hat & _).
    eexists _, _. split; [exact Hrun|].
    assert (∀ q, enqueued (withHeap (<[p := setAddress 0 td]> (heap st)) st) q
                 ↔ enqueued st q) as Henq
      by (intros q; unfold enqueued; by setoid_rewrite Hat).
    split_and!; try done.
    + split; [done|done|done| |].
      * intros me' p' Hme'. simpl in *.
        specialize (Hown me' p' Hme'). destruct (decide (p' = p)) as [->|Hne].
        -- rewrite lookup_insert_eq. by rewrite Htd in Hown.
        -- by rewrite lookup_insert_ne.
      * intros q Hq. apply Henq in Hq. pose proof (Haddr q Hq) as Hq0.
        assert (q ≠ p) as Hne.
        { intros ->. apply Hiff in Hq. congruence. }
        unfold addressOf in *. simpl. by rewrite lookup_insert_ne.
    + split; [done|]. intros Hq%Hiff. congruence.
    + by right.
Qed.

Lemma RunInvariant_unparked ws st st' :
  RunInvariant st → WellFormed st' → unparked ws st st' → RunInvariant st'.
Proof.
  intros [Hc Hcount Hload Hown Haddr] Hwf' Heffect.
  split; [by eapply Consistent_unparked| | | |].
  - by rewrite (unparked_numThreads _ _ _ Heffect), (unparked_threadData _ _ _ Heffect).
  - unfold tableSize. by rewrite (unparked_numThreads _ _ _ Heffect),
      (unparked_table _ _ _ Heffect).
  - intros me p. rewrite (unparked_threadData _ _ _ Heffect),
      (unparked_identifier _ _ _ Heffect). apply Hown.
  - intros q Hq. rewrite (unparked_address _ _ _ Heffect). apply Haddr.
    by apply (unparked_enqueued _ _ _ _ Heffect) in Hq as [Hq _].
Qed.

Lemma RunInvariant_forEach {A : Type} (callback : positive → Z → A → A) st acc :
  RunInvariant st →
  ∃ st', ParkingLot.forEach callback st acc
         = Some (st', foldl (callOn callback (heap st)) acc (visited st')) ∧
    RunInvariant st'.
Proof.
  intros [Hc Hcount Hload Hown Haddr].
  destruct (forEach_spec callback st acc (consistent_wf _ Hc))
    as (st' & Hrun & _ & _ & Hwf' & Ht' & Hheap & Htd & _ & Hn & Hat & Hsize).
  exists st'. split; [done|].
  split; [by eapply Consistent_same_heap| | | |].
  - by rewrite Hn, Htd.
  - intros _. rewrite Hn, Hsize. destruct (hashtable st) as [t|] eqn:Ht.
    + unfold tableSize in Hload. rewrite Ht in Hload. apply Hload. by eexists.
    + destruct (decide (threadData st = ∅)) as [Hempty|Hne].
      * rewrite Hcount, Hempty, map_size_empty. unfold maxLoadFactor. lia.
      * apply map_choose in Hne as (me & p & Hme).
        destruct (consistent_threads _ Hc me p Hme) as [_ [t Ht0]]. congruence.
  - unfold ownRecords. by rewrite Htd, Hheap.
  - intros q [i Hq]. rewrite Hheap. apply Haddr. exists i. by rewrite <- Hat.
Qed.

(** Property X15.  The invariant between calls is kept by every call of the
    interface, and every such call returns.  The invariant says: a thread
    data has [shouldPark] set exactly while it is in a queue, a thread data
    in no queue has a null [nextInQueue], every thread data in a queue has a
    non-null [address], [numThreads] is the number of threads that have a
    thread data, the hashtable, once made, has at least [maxLoadFactor]
    slots for each of them, every thread's record carries the
    [threadIdentifier] of that thread, and no two threads share a record.
    It holds before the first call.  From a state in which it holds,
    [parkConditionally] on a non-null address, called by a thread that is
    not waiting in an earlier call of it, leaves the calling thread in a
    queue with that address when the validation accepts, and in no queue
    when it declines; the end of a parked thread's call, [unparkOne],
    [unparkAll] and [forEach] keep the invariant as well. *)
Theorem run_invariant_kept st :
  RunInvariant st →
  ((∀ p td, heap st !! p = Some td →
      (shouldPark td = true ↔ enqueued st p) ∧
      (¬ enqueued st p → nextInQueue td = None) ∧
      (enqueued st p → address td ≠ 0)) ∧
   numThreads st = Z.of_nat (size (threadData st)) ∧
   (is_Some (hashtable st) → maxLoadFactor * numThreads st ≤ tableSize st) ∧
   (∀ me p, threadData st !! me = Some p → threadIdentifier <$> heap st !! p = Some me) ∧
   (∀ me1 me2 p,
      threadData st !! me1 = Some p → threadData st !! me2 = Some p → me1 = me2)) ∧
  RunInvariant initialState ∧
  (∀ (U : Type) (validation : U → bool * U) u me address,
     canPark st me → address ≠ 0 →
     ∃ p st',
       ParkingLot.parkConditionally me address validation st u
       = Some (if (validation u).1 then ParkingLot.Waiting else ParkingLot.Returned false,
               st', (validation u).2) ∧
       RunInvariant st' ∧ threadData st' !! me = Some p ∧
       if (validation u).1
       then enqueued st' p ∧ addressOf (heap st') p = address
       else ¬ enqueued st' p) ∧
  (∀ me p, threadData st !! me = Some p →
     ∃ outcome st', ParkingLot.resumeParked p st = Some (outcome, st') ∧
       RunInvariant st' ∧
       (outcome = ParkingLot.Waiting ↔ enqueued st p) ∧
       (outcome = ParkingLot.Waiting ∨ outcome = ParkingLot.Returned true) ∧
       (outcome = ParkingLot.Waiting → st' = st) ∧
       (outcome = ParkingLot.Returned true → canPark st' me)) ∧
  (∀ address, ∃ result st',
     ParkingLot.unparkOne address st = Some (result, st') ∧ RunInvariant st') ∧
  (∀ address, ∃ st', ParkingLot.unparkAll address st = Some st' ∧ RunInvariant st') ∧
  (∀ (A : Type) (callback : positive → Z → A → A) acc, ∃ st' acc',
     ParkingLot.forEach callback st acc = Some (st', acc') ∧ RunInvariant st').
Proof.
  intros Hinv. pose proof Hinv as [Hc Hcount Hload Hown Haddr]. split_and!.
  - intros p td Hp. destruct (consistent_records _ Hc p td Hp) as [Hsp Hnext].
    split_and!; try done. intros Hq%Haddr. by rewrite (addressOf_lookup _ _ _ Hp) in Hq.
  - done.
  - done.
  - done.
  - intros me1 me2 p H1 H2. apply Hown in H1, H2. congruence.
  - apply RunInvariant_initialState.
  - intros U validation u me a Hme Ha.
    destruct (RunInvariant_park me a validation st u Hinv Hme Ha)
      as (p & st' & Hrun & Hinv' & Hp & Hsp & Hpa).
    exists p, st'. split_and!; try done.
    destruct (heap st' !! p) as [td|] eqn:Htd; [|done]. injection Hsp as Hsp.
    destruct (consistent_records _ (run_consistent _ Hinv') p td Htd) as [Hiff _].
    destruct ((validation u).1).
    + split; [by apply Hiff|by apply Hpa].
    + intros Hq%Hiff. congruence.
  - intros me p Hme. by apply RunInvariant_resume.
  - intros a. destruct (unparkOne_effect a st (consistent_wf _ Hc))
      as (st' & Hrun & Hwf' & Heffect).
    eexists _, st'. split; [exact Hrun|]. by eapply RunInvariant_unparked.
  - intros a. destruct (unparkAll_effect a st (consistent_wf _ Hc))
      as (st' & Hrun & Hwf' & Heffect).
    exists st'. split; [exact Hrun|]. by eapply RunInvariant_unparked.
  - intros A callback acc.
    destruct (RunInvariant_forEach callback st acc Hinv) as (st' & Hrun & Hinv').
    by eexists _, _.
Qed.
End Invariant.

Section InvariantExamples.
#[local] Existing Instance identityHash.

Lemma RunInvariant_parked st who :
  RunInvariant st → canPark st who.1 → who.2 ≠ 0 → RunInvariant (park st who).
Proof.
  intros Hinv Hme Ha.
  destruct (RunInvariant_park who.1 who.2 alwaysValid st tt Hinv Hme Ha)
    as (p & st' & Hrun & Hinv' & _).
  unfold park. by rewrite Hrun.
Qed.

Lemma RunInvariant_fourWaiters : RunInvariant fourWaiters.
Proof.
  apply (RunInvariant_parked _ (4%positive, 100));
    [|by apply newThread_canPark; vm_compute|done].
  apply (RunInvariant_parked _ (3%positive, 112));
    [|by apply newThread_canPark; vm_compute|done].
  apply (RunInvariant_parked _ (2%positive, 100));
    [|by apply newThread_canPark; vm_compute|done].
  apply (RunInvariant_parked _ (1%positive, 100));
    [|by apply newThread_canPark; vm_compute|done].
  apply RunInvariant_initialState.
Qed.

(** Four threads parked one after the other, and a fifth that parks on
    address 124. *)
Lemma run_invariant_kept_witness :
  RunInvariant fourWaiters ∧
  numThreads fourWaiters = 4 ∧ tableSize fourWaiters = 12 ∧
  canPark fourWaiters 5 ∧
  (∃ p st', ParkingLot.parkConditionally 5 124 alwaysValid fourWaiters tt
            = Some (ParkingLot.Waiting, st', tt) ∧
     RunInvariant st' ∧ threadData st' !! 5%positive = Some p ∧
     enqueued st' p ∧ addressOf (heap st') p = 124) ∧
  (∃ result st', ParkingLot.unparkOne 100 fourWaiters = Some (result, st') ∧
     RunInvariant st').
Proof.
  split; [exact RunInvariant_fourWaiters|].
  split; [vm_compute; reflexivity|]. split; [vm_compute; reflexivity|].
  assert (canPark fourWaiters 5) as Hme by (by apply newThread_canPark; vm_compute).
  split; [exact Hme|].
  destruct (run_invariant_kept fourWaiters RunInvariant_fourWaiters)
    as (_ & _ & Hpark & _ & Hone & _).
  split; [|exact (Hone 100)].
  destruct (Hpark unit alwaysValid tt 5%positive 124 Hme ltac:(done))
    as (p & st' & Hrun & Hinv' & Hp & Hq).
  exists p, st'. split; [exact Hrun|]. split; [exact Hinv'|]. split; [exact Hp|exact Hq].
Defined.
End InvariantExamples.

(** ** FIFO per address *)

Section Fifo.
Context `{PtrHash}.

Lemma parkedOn_NoDup st a : WellFormed st → NoDup (parkedOn st a).
Proof. intros Hwf. unfold parkedOn, queueFor. by apply NoDup_filter, queueAt_NoDup. Qed.

Lemma resumeParked_woken p st :
  shouldPark <$> heap st !! p = Some false →
  ∃ st', ParkingLot.resumeParked p st = Some (ParkingLot.Returned true, st').
Proof.
  intros Hp. unfold ParkingLot.resumeParked.
  destruct (heap st !! p) as [td|]; [|done]. injection Hp as Hp.
  cbn [mbind option_bind]. rewrite Hp. by eexists.
Qed.

(** One [unparkOne(address)] with a thread parked on the address: which
    record it takes, and what it does to the [shouldPark] flags. *)
Lemma unparkOne_wakes a st p rest :
  WellFormed st → parkedOn st a = p :: rest →
  ∃ result st' before after,
    ParkingLot.unparkOne a st = Some (result, st') ∧ WellFormed st' ∧
    queueFor st a = before ++ p :: after ∧
    Forall (λ q, addressOf (heap st) q ≠ a) before ∧
    queueFor st' a = before ++ after ∧
    notified st' = notified st ++ [p] ∧
    parkedOn st' a = rest ∧
    shouldPark <$> heap st' !! p = Some false ∧
    (∀ q, q ≠ p → shouldPark <$> heap st' !! q = shouldPark <$> heap st !! q).
Proof.
  intros Hwf Hparked.
  destruct (unparkOne_some a st p rest Hwf Hparked)
    as (st' & l1 & l2 & Hrun & Hwf' & Hbefore & Hafter & Hrest & Hlog & Hsp & _ & _ & _
        & _ & Hmiss).
  destruct (unparkOne_effect a st Hwf) as (st'' & Hrun' & _ & Heffect).
  rewrite Hrun in Hrun'. injection Hrun' as _ <-.
  rewrite Hparked in Heffect. simpl in Heffect.
  exists (bool_decide (queueFor st' a ≠ [])), st', l1, l2. split_and!; try done.
  intros q Hne. apply (unparked_others _ _ _ Heffect).
  by intros ->%list_elem_of_singleton.
Qed.

(** Claim C4: a thread that parks on [address] is put behind the records
    already parked on it, with [shouldPark] set, and waits; parks on other
    addresses, also in the same bucket, do not change that order.
    [unparkOne(address)] removes the first record of the bucket's queue
    whose address is [address], clears its [shouldPark] and notifies it, so
    that its thread leaves the wait loop and [parkConditionally] returns
    true; it changes no other record's [shouldPark].  So with [p1], [p2],
    [p3] parked on [address] in this order, three calls of
    [unparkOne(address)] wake [p1], [p2], [p3] in this order: the first
    call wakes [p1] and leaves [p2] and [p3] as they are, the second wakes
    [p2] and leaves [p3], the third wakes [p3]. *)
Theorem unparkOne_fifo a st :
  WellFormed st →
  (∀ (U : Type) (validation : U → bool * U) u me address,
     notParked st me → (validation u).1 = true →
     ∃ p st', ParkingLot.parkConditionally me address validation st u
              = Some (ParkingLot.Waiting, st', (validation u).2) ∧
       WellFormed st' ∧ threadData st' !! me = Some p ∧
       parkedOn st' address = parkedOn st address ++ [p] ∧
       (address ≠ a → parkedOn st' a = parkedOn st a) ∧
       shouldPark <$> heap st' !! p = Some true ∧
       ParkingLot.resumeParked p st' = Some (ParkingLot.Waiting, st')) ∧
  (∀ p rest, parkedOn st a = p :: rest →
     ∃ result st' before after,
       ParkingLot.unparkOne a st = Some (result, st') ∧ WellFormed st' ∧
       queueFor st a = before ++ p :: after ∧
       Forall (λ q, addressOf (heap st) q ≠ a) before ∧
       queueFor st' a = before ++ after ∧
       notified st' = notified st ++ [p] ∧
       parkedOn st' a = rest ∧
       shouldPark <$> heap st' !! p = Some false ∧
       (∃ st'', ParkingLot.resumeParked p st' = Some (ParkingLot.Returned true, st'')) ∧
       (∀ q, q ≠ p → shouldPark <$> heap st' !! q = shouldPark <$> heap st !! q)) ∧
  (∀ p1 p2 p3 rest, parkedOn st a = p1 :: p2 :: p3 :: rest →
     ∃ r1 st1 r2 st2 r3 st3,
       ParkingLot.unparkOne a st = Some (r1, st1) ∧
       ParkingLot.unparkOne a st1 = Some (r2, st2) ∧
       ParkingLot.unparkOne a st2 = Some (r3, st3) ∧
       notified st1 = notified st ++ [p1] ∧
       notified st2 = notified st ++ [p1; p2] ∧
       notified st3 = notified st ++ [p1; p2; p3] ∧
       parkedOn st3 a = rest ∧
       (shouldPark <$> heap st1 !! p1 = Some false ∧
        shouldPark <$> heap st1 !! p2 = shouldPark <$> heap st !! p2 ∧
        shouldPark <$> heap st1 !! p3 = shouldPark <$> heap st !! p3) ∧
       (shouldPark <$> heap st2 !! p1 = Some false ∧
        shouldPark <$> heap st2 !! p2 = Some false ∧
        shouldPark <$> heap st2 !! p3 = shouldPark <$> heap st !! p3) ∧
       (∀ p, p ∈ [p1; p2; p3] →
          shouldPark <$> heap st3 !! p = Some false ∧
          ∃ st', ParkingLot.resumeParked p st3 = Some (ParkingLot.Returned true, st'))).
Proof.
  intros Hwf. split_and!.
  - intros U validation u me address Hme Hvalid.
    destruct (parkConditionally_accepted validation me address st u Hwf Hme Hvalid)
      as (p & st' & Hrun & Hwf' & Hp & Hparked & Hothers & (td & Htd & Hsp & _) & _).
    exists p, st'. split_and!; try done.
    + intros Hne. by apply Hothers.
    + by rewrite Htd; simpl; rewrite Hsp.
    + unfold ParkingLot.resumeParked. rewrite Htd. cbn [mbind option_bind].
      by rewrite Hsp.
  - intros p rest Hparked.
    destruct (unparkOne_wakes a st p rest Hwf Hparked)
      as (result & st' & l1 & l2 & Hrun & Hwf' & Hbefore & Hmiss & Hafter & Hlog & Hrest
          & Hsp & Hframe).
    exists result, st', l1, l2. split_and!; try done. by apply resumeParked_woken.
  - intros p1 p2 p3 rest Hparked.
    pose proof (parkedOn_NoDup st a Hwf) as Hnd. rewrite Hparked in Hnd.
    apply NoDup_cons in Hnd as [Hp1 Hnd]. apply NoDup_cons in Hnd as [Hp2 _].
    assert (p1 ≠ p2) as H12 by (intros ->; apply Hp1; left).
    assert (p1 ≠ p3) as H13 by (intros ->; apply Hp1; right; left).
    assert (p2 ≠ p3) as H23 by (intros ->; apply Hp2; left).
    destruct (unparkOne_wakes a st p1 _ Hwf Hparked)
      as (r1 & st1 & _ & _ & Hrun1 & Hwf1 & _ & _ & _ & Hlog1 & Hrest1 & Hsp1 & Hframe1).
    destruct (unparkOne_wakes a st1 p2 _ Hwf1 Hrest1)
      as (r2 & st2 & _ & _ & Hrun2 & Hwf2 & _ & _ & _ & Hlog2 & Hrest2 & Hsp2 & Hframe2).
    destruct (unparkOne_wakes a st2 p3 _ Hwf2 Hrest2)
      as (r3 & st3 & _ & _ & Hrun3 & Hwf3 & _ & _ & _ & Hlog3 & Hrest3 & Hsp3 & Hframe3).
    assert (shouldPark <$> heap st2 !! p1 = Some false) as Hsp21
      by (by rewrite Hframe2).
    assert (shouldPark <$> heap st3 !! p1 = Some false) as Hsp31
      by (by rewrite Hframe3).
    assert (shouldPark <$> heap st3 !! p2 = Some false) as Hsp32
      by (rewrite Hframe3; [done|by apply not_eq_sym]).
    exists r1, st1, r2, st2, r3, st3. split_and!; try done.
    + by rewrite Hlog2, Hlog1, <- app_assoc.
    + by rewrite Hlog3, Hlog2, Hlog1, <- !app_assoc.
    + apply Hframe1. by apply not_eq_sym.
    + apply Hframe1. by apply not_eq_sym.
    + rewrite Hframe2 by (by apply not_eq_sym). apply Hframe1. by apply not_eq_sym.
    + intros p Hp. assert (shouldPark <$> heap st3 !! p = Some false) as Hsp.
      { apply elem_of_cons in Hp as [->|Hp]; [done|].
        apply elem_of_cons in Hp as [->|Hp]; [done|].
        by apply list_elem_of_singleton in Hp as ->. }
      split; [done|]. by apply resumeParked_woken.
Qed.
End Fifo.

Section FifoExample.
#[local] Existing Instance identityHash.

(** In [fourWaiters] the threads 1, 2 and 4 are parked on 100 and thread 3,
    parked on 112, sits between them in the same bucket. *)
Lemma unparkOne_fifo_witness :
  WellFormed fourWaiters ∧
  queueFor fourWaiters 100 = [1; 2; 3; 4]%positive ∧
  parkedOn fourWaiters 100 = [1; 2; 4]%positive ∧
  ∃ r1 st1 r2 st2 r3 st3,
    ParkingLot.unparkOne 100 fourWaiters = Some (r1, st1) ∧
    ParkingLot.unparkOne 100 st1 = Some (r2, st2) ∧
    ParkingLot.unparkOne 100 st2 = Some (r3, st3) ∧
    notified st1 = notified fourWaiters ++ [1%positive] ∧
    notified st2 = notified fourWaiters ++ [1; 2]%positive ∧
    notified st3 = notified fourWaiters ++ [1; 2; 4]%positive ∧
    parkedOn st3 100 = [] ∧
    ∀ p, p ∈ [1; 2; 4]%positive →
      shouldPark <$> heap st3 !! p = Some false ∧
      ∃ st', ParkingLot.resumeParked p st3 = Some (ParkingLot.Returned true, st').
Proof.
  split; [apply fourWaiters_wf|]. split; [vm_compute; reflexivity|].
  assert (parkedOn fourWaiters 100 = [1; 2; 4]%positive) as Hparked
    by (vm_compute; reflexivity).
  split; [exact Hparked|].
  destruct (unparkOne_fifo 100 fourWaiters fourWaiters_wf) as (_ & _ & Hthree).
  destruct (Hthree _ _ _ _ Hparked)
    as (r1 & st1 & r2 & st2 & r3 & st3 & Hrun1 & Hrun2 & Hrun3 & Hlog1 & Hlog2 & Hlog3
        & Hrest & _ & _ & Hwoken).
  exists r1, st1, r2, st2, r3, st3.
  split; [exact Hrun1|]. split; [exact Hrun2|]. split; [exact Hrun3|].
  split; [exact Hlog1|]. split; [exact Hlog2|]. split; [exact Hlog3|].
  split; [exact Hrest|exact Hwoken].
Defined.
End FifoExample.
